(** * dough: monetary amounts in minor units

    A shallow embedding of package [dough] (money.go, the variant with
    [Share]) and the properties of its parser, formatter, arithmetic and
    allocator.

    Conventions of the embedding:
    - Go's [int] and [uint] are the 64-bit types of the usual targets
      (amd64, arm64).  A value lives in [Z]; every arithmetic result is
      reduced by [wrap_int] / [wrap_uint], as the hardware does.
    - Go's [/] and [%] on [int] truncate toward zero: [Z.quot], [Z.rem].
    - [float64] is IEEE 754 binary64, computed by the executable
      specification [SpecFloat] with [prec = 53] and [emax = 1024].
    - a Go string is its sequence of bytes: [list ascii].
    - a slice argument aliases the caller's array, so [Share] returns the
      final content of [weightings] next to its outcome. *)

From Stdlib Require Import ZArith Lia Bool Ascii String SpecFloat.
From Stdlib Require Import QArith Qpower Lqa.
From stdpp Require Import base list.

Local Open Scope Z_scope.

(** ** Machine integers *)

Module Int.

Definition min_int : Z := - 2 ^ 63.
Definition max_int : Z := 2 ^ 63 - 1.
Definition modulus : Z := 2 ^ 64.

(** Two's complement reduction into [int]. *)
Definition wrap_int (z : Z) : Z := (z + 2 ^ 63) mod 2 ^ 64 - 2 ^ 63.

(** Reduction into [uint]. *)
Definition wrap_uint (z : Z) : Z := z mod 2 ^ 64.

Definition is_int (z : Z) : Prop := - 2 ^ 63 <= z < 2 ^ 63.
Definition is_uint (z : Z) : Prop := 0 <= z < 2 ^ 64.

Definition is_intb (z : Z) : bool := (- 2 ^ 63 <=? z) && (z <? 2 ^ 63).

End Int.
Import Int.

(** ** Errors and results *)

(** The [error] values the package builds with [fmt.Errorf], by kind. *)
Inductive error : Type :=
  | CurrencyMismatch      (* "Can't add/subtract/compare different currencies" *)
  | AmountMalformed       (* "unable to parse amount" *)
  | CurrencyMalformed.    (* "coudn't parse currency" *)

(** A Go pair [(T, error)]. *)
Inductive result (A : Type) : Type :=
  | Ok (x : A)
  | Err (e : error).
Arguments Ok {A} x.
Arguments Err {A} e.

(** ** Money *)

(** [c] is the currency unit, identified by its ISO 4217 code (what
    [currency.Unit.String] returns); [a] is the amount in atoms. *)
Record Money : Type := mkMoney { c : string; a : Z }.

Definition Currency (x : Money) : string := c x.

Definition addSub (x y : Money) (add : bool) : result Money :=
  if negb (String.eqb (Currency x) (Currency y)) then Err CurrencyMismatch
  else
    let z := if add then wrap_int (a x + a y) else wrap_int (a x - a y) in
    Ok (mkMoney (c x) z).

Definition Add (x y : Money) : result Money := addSub x y true.
Definition Sub (x y : Money) : result Money := addSub x y false.

Definition Mul (x : Money) (f : Z) : result Money :=
  Ok (mkMoney (c x) (wrap_int (a x * f))).

Definition Cmp (x y : Money) : result Z :=
  if negb (String.eqb (Currency x) (Currency y)) then Err CurrencyMismatch
  else if a x <? a y then Ok (-1)
  else if a x =? a y then Ok 0
  else Ok 1.

(** The sum of a list of [Money] by [Add], left to right from [zero], as
    a caller adds shares up; the first error ends it. *)
Definition add_all (zero : Money) (l : list Money) : result Money :=
  fold_left (fun acc y => match acc with Ok s => Add s y | Err e => Err e end)
    l (Ok zero).

(** ** Amount parser *)

(** [\d] of Go's regexp (RE2): the ASCII digits only. *)
Definition is_digit (ch : ascii) : bool :=
  (48 <=? Z.of_N (N_of_ascii ch)) && (Z.of_N (N_of_ascii ch) <=? 57).

Definition digit_val (ch : ascii) : Z := Z.of_N (N_of_ascii ch) - 48.

Definition digit_chr (d : Z) : ascii := ascii_of_N (Z.to_N (d + 48)).

(** The greedy [\d*]: longest prefix of digits, and what follows it. *)
Fixpoint span_digits (s : list ascii) : list ascii * list ascii :=
  match s with
  | ch :: r =>
      if is_digit ch
      then let '(ds, rest) := span_digits r in (ch :: ds, rest)
      else ([], s)
  | [] => ([], [])
  end.

(** [regexp.MustCompile("^(-)?(\\d+)(\\.([\\d]{2}))?$").FindStringSubmatch]:
    the five submatches [m[0..4]] on a match, the empty slice otherwise.
    [$] without the [m] flag matches at the end of the text only; an
    unmatched group is the empty string. *)
Definition FindStringSubmatch (amt : list ascii) : list (list ascii) :=
  let '(m1, s1) :=
    match amt with
    | ch :: r => if Ascii.eqb ch "-" then ([ch], r) else ([], amt)
    | [] => ([], amt)
    end in
  let '(m2, s2) := span_digits s1 in
  match m2 with
  | [] => []
  | _ :: _ =>
      match s2 with
      | [] => [amt; m1; m2; []; []]
      | [p; d1; d2] =>
          if Ascii.eqb p "." && is_digit d1 && is_digit d2
          then [amt; m1; m2; s2; [d1; d2]]
          else []
      | _ => []
      end
  end.

(** Value of a digit string, most significant digit first. *)
Definition digits_value (ds : list ascii) : Z :=
  fold_left (fun n ch => n * 10 + digit_val ch) ds 0.

(** [strconv.Atoi]: optional sign, at least one digit, nothing else, and
    a value that fits [int]; [None] stands for its [*NumError]. *)
Definition Atoi (s : list ascii) : option Z :=
  let '(neg, ds) :=
    match s with
    | ch :: r =>
        if Ascii.eqb ch "-" then (true, r)
        else if Ascii.eqb ch "+" then (false, r)
        else (false, s)
    | [] => (false, s)
    end in
  match ds with
  | [] => None
  | _ :: _ =>
      if forallb is_digit ds then
        let v := if neg then - digits_value ds else digits_value ds in
        if is_intb v then Some v else None
      else None
  end.

(** [==] on strings. *)
Fixpoint bytes_eqb (s t : list ascii) : bool :=
  match s, t with
  | [], [] => true
  | x :: s', y :: t' => Ascii.eqb x y && bytes_eqb s' t'
  | _, _ => false
  end.

Definition strToInt (cur : string) (amt : string) : result Z :=
  let m := FindStringSubmatch (list_ascii_of_string amt) in
  if (length m =? 0)%nat then Err AmountMalformed
  else
    let digits := nth 2 m [] ++ nth 4 m [] in
    match Atoi digits with
    | None => Err AmountMalformed
    | Some v =>
        if bytes_eqb (nth 1 m []) ["-"%char]
        then Ok (wrap_int (v * -1))
        else Ok v
    end.

(** [New]; [ParseISO] is the currency registry of golang.org/x/text,
    mapping a code to its unit or failing. *)
Definition New (ParseISO : string -> option string) (cur amt : string)
  : result Money :=
  match ParseISO cur with
  | None => Err CurrencyMalformed
  | Some u =>
      match strToInt u amt with
      | Err e => Err e
      | Ok v => Ok (mkMoney u v)
      end
  end.

(** ** Amount formatter *)

(** Decimal digits of a non-negative number, least significant first
    into the accumulator; [fuel] bounds the number of digits. *)
Fixpoint utoa_fuel (fuel : nat) (n : Z) (acc : list ascii) : list ascii :=
  match fuel with
  | O => acc
  | S f =>
      let acc' := digit_chr (n mod 10) :: acc in
      if n <? 10 then acc' else utoa_fuel f (n / 10) acc'
  end.

Definition utoa (n : Z) : list ascii :=
  utoa_fuel (S (Z.to_nat (Z.log2 n))) n [].

(** [strconv.Itoa]. *)
Definition Itoa (z : Z) : list ascii :=
  if z <? 0 then "-"%char :: utoa (- z) else utoa z.

(** Zero padding on the left up to [width] characters. *)
Definition pad0 (width : nat) (s : list ascii) : list ascii :=
  repeat "0"%char (width - length s) ++ s.

(** [fmt.Sprintf("%02d", z)]: the sign counts in the width. *)
Definition Sprintf_02d (z : Z) : list ascii :=
  if z <? 0 then "-"%char :: pad0 1 (utoa (- z)) else pad0 2 (utoa z).

Definition Amount (x : Money) : string :=
  let neg := if a x <? 0 then ["-"%char] else [] in
  let a' := if a x <? 0 then wrap_int (a x * -1) else a x in
  let maj := Itoa (Z.quot a' 100) in
  let min := Sprintf_02d (Z.rem a' 100) in
  string_of_list_ascii (neg ++ maj ++ ["."%char] ++ min).

(** ** float64 *)

Module F64.

Definition prec : Z := 53.
Definition emax : Z := 1024.

Definition float64 : Type := spec_float.

(** Conversions [float64(n)] from [int] and [uint]: the nearest binary64
    number, ties to even. *)
Definition of_Z (z : Z) : float64 := binary_normalize prec emax z 0 false.

Definition div : float64 -> float64 -> float64 := SFdiv prec emax.
Definition mul : float64 -> float64 -> float64 := SFmul prec emax.

(** [math.Trunc]: the integer part, toward zero. *)
Definition Trunc (f : float64) : float64 :=
  match f with
  | S754_finite s m e =>
      if 0 <=? e then f
      else binary_normalize prec emax
             (cond_Zopp s (Z.shiftr (Zpos m) (- e))) 0 s
  | _ => f
  end.

(** Conversion [int(f)]: the fraction is discarded; a value that [int]
    cannot hold (also an infinity or a NaN) converts to the "integer
    indefinite" value [min_int], as CVTTSD2SQ does on amd64. *)
Definition to_int (f : float64) : Z :=
  match f with
  | S754_zero _ => 0
  | S754_finite s m e =>
      let v := cond_Zopp s (if 0 <=? e then Z.shiftl (Zpos m) e
                            else Z.shiftr (Zpos m) (- e)) in
      if is_intb v then v else min_int
  | _ => min_int
  end.

End F64.

(** ** Allocator *)

Inductive panic : Type :=
  | IndexOutOfRange        (* runtime error: index out of range *)
  | IntegerDivideByZero    (* runtime error: integer divide by zero *)
  | BadAllocation.         (* panic("dough package: bad allocation ...") *)

(** How a call ends; [OutOfFuel] is the embedding's own: the loop was
    cut before it ended. *)
Inductive outcome (A : Type) : Type :=
  | Returned (x : A)
  | Panicked (p : panic)
  | OutOfFuel.
Arguments Returned {A} x.
Arguments Panicked {A} p.
Arguments OutOfFuel {A}.

(** [var sum uint; for _, w := range weightings { sum += w }] *)
Definition uint_sum (weightings : list Z) : Z :=
  fold_left (fun sum w => wrap_uint (sum + w)) weightings 0.

(** [total := 0; for i := range allocations { total += allocations[i] }] *)
Definition int_sum (allocations : list Z) : Z :=
  fold_left (fun total al => wrap_int (total + al)) allocations 0.

(** The zero-sum branch: the content of [weightings] and the value of
    [sum] after it. *)
Definition fallback (weightings : list Z) : list Z * Z :=
  let sum := uint_sum weightings in
  if sum =? 0
  then (replicate (length weightings) 1,
        wrap_uint (Z.of_nat (length weightings)))
  else (weightings, sum).

Definition ratios_of (weightings : list Z) (sum : Z) : list F64.float64 :=
  map (fun w => F64.div (F64.of_Z w) (F64.of_Z sum)) weightings.

(** The allocations after the first loop over [ratios]. *)
Definition truncated (x : Money) (ratios : list F64.float64) : list Z :=
  let fa := F64.of_Z (a x) in
  map (fun r => F64.to_int (F64.Trunc (F64.mul r fa))) ratios.

(** [rem] after the first loop over [ratios]. *)
Definition remainder (x : Money) (allocations : list Z) : Z :=
  fold_left (fun rem al => wrap_int (rem - al)) allocations (a x).

(** [for i := 0; rem != 0; i++ { ... }], one iteration per unit of
    [fuel]; [continue] still runs [i++]. *)
Fixpoint distribute (fuel : nat) (weightings : list Z) (n d : Z)
    (i rem : Z) (allocations : list Z) : outcome (list Z) :=
  if rem =? 0 then Returned allocations
  else
    match fuel with
    | O => OutOfFuel
    | S fuel' =>
        if n =? 0 then Panicked IntegerDivideByZero
        else
          let ind := Z.rem i n in
          if ind <? 0 then Panicked IndexOutOfRange
          else
            match weightings !! Z.to_nat ind with
            | None => Panicked IndexOutOfRange
            | Some w =>
                if w =? 0
                then distribute fuel' weightings n d
                       (wrap_int (i + 1)) rem allocations
                else
                  match allocations !! Z.to_nat ind with
                  | None => Panicked IndexOutOfRange
                  | Some al =>
                      distribute fuel' weightings n d
                        (wrap_int (i + 1)) (wrap_int (rem + - d))
                        (<[Z.to_nat ind := wrap_int (al + d)]> allocations)
                  end
            end
    end.

(** [Share], with the content of the caller's [weightings] after the
    call as second component. *)
Definition Share (fuel : nat) (x : Money) (weightings : list Z)
  : outcome (list Money) * list Z :=
  let n := Z.of_nat (length weightings) in
  let '(weightings, sum) := fallback weightings in
  let ratios := ratios_of weightings sum in
  let allocations := truncated x ratios in
  let rem := remainder x allocations in
  let d := if rem <? 0 then -1 else 1 in
  match distribute fuel weightings n d 0 rem allocations with
  | Returned allocations =>
      let total := int_sum allocations in
      if negb (total =? a x) then (Panicked BadAllocation, weightings)
      else (Returned (map (mkMoney (c x)) allocations), weightings)
  | Panicked p => (Panicked p, weightings)
  | OutOfFuel => (OutOfFuel, weightings)
  end.

(** The values of [allocations] and [rem] when the second loop of
    [Share] starts, and the outcome of that loop. *)
Definition initial_allocations (x : Money) (weightings : list Z) : list Z :=
  truncated x (ratios_of (fst (fallback weightings)) (snd (fallback weightings))).

Definition initial_remainder (x : Money) (weightings : list Z) : Z :=
  remainder x (initial_allocations x weightings).

Definition final_allocations (fuel : nat) (x : Money) (weightings : list Z)
  : outcome (list Z) :=
  distribute fuel (fst (fallback weightings)) (Z.of_nat (length weightings))
    (if initial_remainder x weightings <? 0 then -1 else 1)
    0 (initial_remainder x weightings) (initial_allocations x weightings).

(** The allocation of a textual amount, as the tests of the package run
    it: parse, [Share], format every share. *)
Definition share_amounts (fuel : nat) (cur amt : string) (weightings : list Z)
  : option (list string) :=
  match strToInt cur amt with
  | Ok v =>
      match fst (Share fuel (mkMoney cur v) weightings) with
      | Returned res => Some (map Amount res)
      | _ => None
      end
  | Err _ => None
  end.

(** ** The allocation, as the specification words it *)

(** Sum over the integers. *)
Definition Zsum (l : list Z) : Z := foldr Z.add 0 l.

(** Step 2: the exact share [weights[i] * x.atoms / total], truncated
    toward zero, by one multiplication and one integer division. *)
Definition exact_truncated (x : Money) (weights : list Z) (total : Z) : list Z :=
  map (fun w => Z.quot (w * a x) total) weights.

(** Step 4.  [eligibleb weights j]: the weight at index [j] is not zero. *)
Definition eligibleb (weights : list Z) (j : nat) : bool :=
  negb (nth j weights 0 =? 0).

(** The indices [t mod N] met by the steps [t = i, i+1, ..., i+len-1] of
    the walk, those of weight zero skipped. *)
Definition visited (weights : list Z) (i len : nat) : list nat :=
  List.filter (eligibleb weights)
    (map (fun t => Nat.modulo t (length weights)) (seq i len)).

(** One unit [d] to the allocation at index [j]. *)
Definition give (d : Z) (allocations : list Z) (j : nat) : list Z :=
  match allocations !! j with
  | Some al => <[j := wrap_int (al + d)]> allocations
  | None => allocations
  end.

(** One unit to each of the first [|rem|] indices the walk meets. *)
Definition spec_distribute (weights allocations : list Z) (rem : Z) : list Z :=
  let units := Z.abs_nat rem in
  let d := if rem <? 0 then -1 else 1 in
  fold_left (give d)
    (take units (visited weights 0 (units * length weights)))
    allocations.

(** The same in closed form.  [eligible]: the indices of non-zero
    weight, in order. *)
Definition eligible (weights : list Z) : list nat :=
  List.filter (eligibleb weights) (seq 0 (length weights)).

(** The place of index [j] among the eligible indices. *)
Definition rank (weights : list Z) (j : nat) : nat :=
  length (List.filter (eligibleb weights) (seq 0 j)).

(** Of [units] units every eligible index receives [units / m], [m] the
    number of eligible indices, and the first [units mod m] of them one
    more; an index of weight zero receives nothing. *)
Definition units_for (weights : list Z) (units j : nat) : nat :=
  let m := length (eligible weights) in
  if eligibleb weights j && (j <? length weights)%nat
  then units / m + (if (rank weights j <? units mod m)%nat then 1 else 0)
  else 0.

(** ** Bounded inputs *)

(** [mag f]: the binade of a finite binary64 number,
    [2^(mag - 1) <= |f| < 2^mag]. *)
Definition mag (f : spec_float) : Z :=
  match f with
  | S754_finite _ m e => Zdigits2 (Z.pos m) + e
  | _ => 0
  end.

(** A finite, non-zero number with a mantissa of at most 53 digits. *)
Definition finite (f : spec_float) : Prop :=
  match f with
  | S754_finite _ m _ => Zdigits2 (Z.pos m) <= 53
  | _ => False
  end.

(** A binary64 zero or finite number. *)
Definition zero_or_finite (f : spec_float) : Prop :=
  match f with
  | S754_zero _ => True
  | S754_finite _ m _ => Zdigits2 (Z.pos m) <= 53
  | _ => False
  end.

(** The amounts and weightings on which no integer of [Share] leaves its
    type: the weights are [uint]s whose sum stays below [2^64], and the
    amount is small against the number [N] of weights. *)
Definition bounded_input (x : Money) (ws : list Z) : Prop :=
  ws <> [] /\ Forall is_uint ws /\ Zsum ws < 2 ^ 64 /\
  Z.of_nat (length ws) * (128 * Z.of_nat (length ws) + 129)
  * Z.max 1 (Z.abs (a x)) < 2 ^ 63.

(** ** The value of a binary64 number *)

(** [2^e] as a rational, for an exponent of either sign. *)
Definition pow2 (e : Z) : Q := (2 ^ e)%Q.

(** The absolute value of a finite number, [m × 2^e]; zero otherwise. *)
Definition Fabs (f : spec_float) : Q :=
  match f with
  | S754_finite _ m e => (inject_Z (Z.pos m) * pow2 e)%Q
  | _ => 0%Q
  end.

(** The relative error of one rounding is at most [2^-52]. *)
Definition eps : Q := 1 # 4503599627370496.

(** The sign bit of a number. *)
Definition sign_of (f : spec_float) : bool :=
  match f with
  | S754_zero s | S754_infinity s | S754_finite s _ _ => s
  | S754_nan => false
  end.

(** ** Small inputs *)

(** The inputs on which [float64] is accurate enough: weights that add
    up to less than [2^64], fewer than [2^31] of them, and an amount
    below [2^49] atoms in absolute value. *)
Definition small_input (x : Money) (ws : list Z) : Prop :=
  ws <> [] /\ Forall is_uint ws /\ Zsum ws < 2 ^ 64 /\
  Z.of_nat (length ws) < 2 ^ 31 /\ Z.abs (a x) < 2 ^ 49.

(** The number of non-zero weights. *)
Definition nonzero_count (ws : list Z) : Z :=
  Z.of_nat (length (List.filter (fun w => negb (w =? 0)) ws)).

(** What [truncated_share_accuracy] says of a weight and its truncated
    share [v] of [A] atoms, [s] being the sum of the weights. *)
Definition near_share (s A w v : Z) : Prop :=
  0 <= v /\
  - (w * A) <= 2 ^ 49 * (w * A - v * s) < 2 ^ 49 * s + w * A /\
  (w = 0 -> v = 0).

(** A final share [f] of the weight [w], against the exact share
    [w × A / s] of [A] atoms: less than [1 + |A| / 2^49] away, and of
    the sign of the amount. *)
Definition fair_share (s A w f : Z) : Prop :=
  2 ^ 49 * Z.abs (f * s - w * A) <= 2 ^ 49 * s + w * Z.abs A /\
  Z.abs (f * s - w * A) < 2 * s /\
  (0 <= A -> 0 <= f) /\ (A <= 0 -> f <= 0) /\ (w = 0 -> f = 0).

(** ** The amount grammar, as the specification words it *)

(** An optional leading [-], the integer part, and an optional fractional
    part of two characters after a [.]. *)
Record amount_parts : Type := mkParts {
  negative : bool;
  int_part : list ascii;
  frac_part : option (ascii * ascii)
}.

Definition sign_text (p : amount_parts) : list ascii :=
  if negative p then ["-"%char] else [].

Definition frac_digits (p : amount_parts) : list ascii :=
  match frac_part p with
  | Some (d1, d2) => [d1; d2]
  | None => []
  end.

Definition frac_text (p : amount_parts) : list ascii :=
  match frac_part p with
  | Some (d1, d2) => ["."%char; d1; d2]
  | None => []
  end.

(** The text of an amount. *)
Definition render (p : amount_parts) : list ascii :=
  sign_text p ++ int_part p ++ frac_text p.

Definition all_digits (ds : list ascii) : Prop :=
  Forall (fun ch => is_digit ch = true) ds.

(** One or more decimal digits, and two decimal digits after the point. *)
Definition in_grammar (p : amount_parts) : Prop :=
  int_part p <> [] /\ all_digits (int_part p) /\ all_digits (frac_digits p).

(** [sign × (integerPart × 100 + fractionalPart)] *)
Definition spec_atoms (p : amount_parts) : Z :=
  (if negative p then -1 else 1)
  * (digits_value (int_part p) * 100 + digits_value (frac_digits p)).

(** The number the digits of the text spell, point removed. *)
Definition digits_number (p : amount_parts) : Z :=
  digits_value (int_part p ++ frac_digits p).

(** The canonical text of an amount: a fractional part, no superfluous
    leading zero in the integer part, and no sign on zero. *)
Definition canonical (p : amount_parts) : Prop :=
  in_grammar p /\
  frac_part p <> None /\
  (int_part p = ["0"%char] \/ hd "0"%char (int_part p) <> "0"%char) /\
  (negative p = true -> digits_number p <> 0).

(** ** The tables of the package's tests *)

(** [TestCanAllocate]: amount, weightings, expected shares. *)
Definition allocate_cases : list (string * list Z * list string) :=
  [
    ("0.00", [1; 1; 1], ["0.00"; "0.00"; "0.00"]);
    ("0.01", [1; 1; 1], ["0.01"; "0.00"; "0.00"]);
    ("0.02", [1; 1; 1], ["0.01"; "0.01"; "0.00"]);
    ("0.03", [1; 1; 1], ["0.01"; "0.01"; "0.01"]);
    ("0.04", [1; 1; 1], ["0.02"; "0.01"; "0.01"]);
    ("0.05", [1; 1; 1], ["0.02"; "0.02"; "0.01"]);
    ("1.00", [0; 1; 0], ["0.00"; "1.00"; "0.00"]);
    ("0.03", [0; 5; 0], ["0.00"; "0.03"; "0.00"]);
    ("3.00", [1; 1; 1], ["1.00"; "1.00"; "1.00"]);
    ("1.00", [1; 1; 1], ["0.34"; "0.33"; "0.33"]);
    ("0.03", [0; 5; 0], ["0.00"; "0.03"; "0.00"]);
    ("0.03", [0; 4; 2], ["0.00"; "0.02"; "0.01"]);
    ("1.05", [3; 7], ["0.32"; "0.73"]);
    ("0.05", [1; 1], ["0.03"; "0.02"]);
    ("300.00", [122; 878], ["36.60"; "263.40"]);
    ("300.00", [122; 0; 878], ["36.60"; "0.00"; "263.40"]);
    ("120.00", [20; 100], ["20.00"; "100.00"]);
    ("300.00", [0], ["300.00"]);
    ("300.00", [0; 0; 0], ["100.00"; "100.00"; "100.00"]);
    ("-0.00", [1; 1; 1], ["0.00"; "0.00"; "0.00"]);
    ("-0.01", [1; 1; 1], ["-0.01"; "0.00"; "0.00"]);
    ("-0.02", [1; 1; 1], ["-0.01"; "-0.01"; "0.00"]);
    ("-0.03", [1; 1; 1], ["-0.01"; "-0.01"; "-0.01"]);
    ("-0.04", [1; 1; 1], ["-0.02"; "-0.01"; "-0.01"]);
    ("-0.05", [1; 1; 1], ["-0.02"; "-0.02"; "-0.01"]);
    ("-1.00", [0; 1; 0], ["0.00"; "-1.00"; "0.00"]);
    ("-0.03", [0; 5; 0], ["0.00"; "-0.03"; "0.00"]);
    ("-3.00", [1; 1; 1], ["-1.00"; "-1.00"; "-1.00"]);
    ("-1.00", [1; 1; 1], ["-0.34"; "-0.33"; "-0.33"]);
    ("-0.03", [0; 5; 0], ["0.00"; "-0.03"; "0.00"]);
    ("-0.03", [0; 4; 2], ["0.00"; "-0.02"; "-0.01"]);
    ("-1.05", [3; 7], ["-0.32"; "-0.73"]);
    ("-0.05", [1; 1], ["-0.03"; "-0.02"]);
    ("-300.00", [122; 878], ["-36.60"; "-263.40"]);
    ("-300.00", [122; 0; 878], ["-36.60"; "0.00"; "-263.40"]);
    ("-120.00", [20; 100], ["-20.00"; "-100.00"]);
    ("-300.00", [0], ["-300.00"]);
    ("-300.00", [0; 0; 0], ["-100.00"; "-100.00"; "-100.00"])
  ]%string.

(** [TestCanCreate]: the amounts that must come back from [Amount]. *)
Definition create_cases : list string := ["0.00"; "0.01"; "-0.01"; "123.45"]%string.

(** [TestCanRejectBadAmount] *)
Definition bad_amounts : list string := ["Z"; "10.S0"; "ONE"; "10 EUR"; "1f.00"]%string.

(* ================================================================= *)
(** * Properties *)

(** ** Machine integers *)

Section IntFacts.

Lemma is_intb_spec z : is_intb z = true <-> is_int z.
Proof. unfold is_intb, is_int. rewrite andb_true_iff. lia. Qed.

Lemma wrap_int_range z : is_int (wrap_int z).
Proof.
  unfold is_int, wrap_int.
  pose proof (Z.mod_pos_bound (z + 2 ^ 63) (2 ^ 64) ltac:(lia)). lia.
Qed.

Lemma wrap_int_small z : is_int z -> wrap_int z = z.
Proof.
  unfold is_int, wrap_int. intros H.
  rewrite Z.mod_small by lia. lia.
Qed.

Lemma wrap_int_eqm z : (wrap_int z) mod 2 ^ 64 = z mod 2 ^ 64.
Proof.
  unfold wrap_int.
  rewrite <- Zminus_mod_idemp_l, Z.mod_mod by lia.
  rewrite Zminus_mod_idemp_l. f_equal. lia.
Qed.

Lemma wrap_int_congr x y :
  x mod 2 ^ 64 = y mod 2 ^ 64 -> wrap_int x = wrap_int y.
Proof.
  unfold wrap_int. intros H.
  rewrite <- (Zplus_mod_idemp_l x), <- (Zplus_mod_idemp_l y), H. reflexivity.
Qed.

Lemma wrap_int_idem z : wrap_int (wrap_int z) = wrap_int z.
Proof. apply wrap_int_small, wrap_int_range. Qed.

Lemma wrap_int_add_l x y : wrap_int (wrap_int x + y) = wrap_int (x + y).
Proof.
  apply wrap_int_congr.
  rewrite <- Zplus_mod_idemp_l, wrap_int_eqm, Zplus_mod_idemp_l. reflexivity.
Qed.

Lemma wrap_int_add_r x y : wrap_int (x + wrap_int y) = wrap_int (x + y).
Proof. rewrite Z.add_comm, wrap_int_add_l. f_equal. lia. Qed.

Lemma wrap_int_inj_range x y :
  is_int x -> is_int y -> wrap_int x = wrap_int y -> x = y.
Proof. intros Hx Hy. rewrite !wrap_int_small; auto. Qed.

Lemma wrap_uint_range z : is_uint (wrap_uint z).
Proof. unfold is_uint, wrap_uint. apply Z.mod_pos_bound. lia. Qed.

Lemma wrap_uint_small z : is_uint z -> wrap_uint z = z.
Proof. unfold is_uint, wrap_uint. intros. apply Z.mod_small. lia. Qed.

Lemma wrap_int_sub_l x y : wrap_int (wrap_int x - y) = wrap_int (x - y).
Proof. unfold Z.sub. apply wrap_int_add_l. Qed.

End IntFacts.

(** ** Arithmetic and comparison *)

Section Arithmetic.

Variables x y : Money.

Lemma currency_differs :
  negb (String.eqb (Currency x) (Currency y)) = true <-> c x <> c y.
Proof.
  unfold Currency. rewrite negb_true_iff. apply String.eqb_neq.
Qed.

Lemma addSub_mismatch add :
  addSub x y add = Err CurrencyMismatch <-> c x <> c y.
Proof.
  rewrite <- currency_differs. unfold addSub.
  destruct (negb _); split; congruence.
Qed.

Lemma addSub_same add :
  c x = c y ->
  addSub x y add =
  Ok (mkMoney (c x) (wrap_int (if add then a x + a y else a x - a y))).
Proof.
  intros E. unfold addSub, Currency. rewrite E, String.eqb_refl. simpl.
  destruct add; reflexivity.
Qed.

Lemma Cmp_mismatch : Cmp x y = Err CurrencyMismatch <-> c x <> c y.
Proof.
  rewrite <- currency_differs. unfold Cmp.
  destruct (negb _); [tauto|].
  destruct (a x <? a y); [split; congruence|].
  destruct (a x =? a y); split; congruence.
Qed.

Lemma Cmp_same :
  c x = c y ->
  Cmp x y = Ok (match a x ?= a y with Lt => -1 | Eq => 0 | Gt => 1 end).
Proof.
  intros E. unfold Cmp, Currency. rewrite E, String.eqb_refl. simpl.
  destruct (Z.ltb_spec (a x) (a y)) as [L|L].
  - now rewrite (proj2 (Z.compare_lt_iff _ _) L).
  - destruct (Z.eqb_spec (a x) (a y)) as [Q|Q].
    + now rewrite (proj2 (Z.compare_eq_iff _ _) Q).
    + assert (G : a y < a x) by lia.
      now rewrite (proj2 (Z.compare_gt_iff _ _) G).
Qed.

End Arithmetic.

(** C9, as the code has it: [Add], [Sub] and [Cmp] fail with
    [CurrencyMismatch] exactly when the two currency codes differ.  On
    equal codes [Add] and [Sub] keep the currency and return the atoms
    [a x + a y] and [a x - a y] reduced into the 64-bit [int] (so the
    exact sum and difference whenever these fit [int]), and [Cmp]
    returns -1, 0 or 1 by the order of the atoms. *)
Theorem arith_currency_checked (x y : Money) :
  (Add x y = Err CurrencyMismatch <-> c x <> c y) /\
  (Sub x y = Err CurrencyMismatch <-> c x <> c y) /\
  (Cmp x y = Err CurrencyMismatch <-> c x <> c y) /\
  (c x = c y ->
   Add x y = Ok (mkMoney (c x) (wrap_int (a x + a y))) /\
   Sub x y = Ok (mkMoney (c x) (wrap_int (a x - a y))) /\
   (is_int (a x + a y) -> Add x y = Ok (mkMoney (c x) (a x + a y))) /\
   (is_int (a x - a y) -> Sub x y = Ok (mkMoney (c x) (a x - a y))) /\
   (a x < a y -> Cmp x y = Ok (-1)) /\
   (a x = a y -> Cmp x y = Ok 0) /\
   (a x > a y -> Cmp x y = Ok 1)).
Proof.
  split; [apply addSub_mismatch|].
  split; [apply addSub_mismatch|].
  split; [apply Cmp_mismatch|].
  intros E. unfold Add, Sub.
  rewrite !addSub_same, Cmp_same by assumption.
  repeat split.
  - intros H. now rewrite wrap_int_small.
  - intros H. now rewrite wrap_int_small.
  - intros H. now rewrite (proj2 (Z.compare_lt_iff _ _) H).
  - intros H. now rewrite (proj2 (Z.compare_eq_iff _ _) H).
  - intros H. assert (G : a y < a x) by lia.
    now rewrite (proj2 (Z.compare_gt_iff _ _) G).
Qed.

(** The largest amount the parser accepts, plus one atom: the sum leaves
    [int] and [Add] wraps to the smallest [int]. *)
Lemma arith_overflow_counterexample :
  strToInt "GBP" "92233720368547758.07" = Ok (2 ^ 63 - 1) /\
  strToInt "GBP" "0.01" = Ok 1 /\
  Add (mkMoney "GBP" (2 ^ 63 - 1)) (mkMoney "GBP" 1)
    = Ok (mkMoney "GBP" (- 2 ^ 63)) /\
  Add (mkMoney "GBP" (2 ^ 63 - 1)) (mkMoney "GBP" 1)
    <> Ok (mkMoney "GBP" ((2 ^ 63 - 1) + 1)).
Proof. repeat split; try (vm_compute; reflexivity). vm_compute. discriminate. Qed.

Lemma arith_currency_checked_witness :
  Add (mkMoney "GBP" 12345) (mkMoney "GBP" 23456) = Ok (mkMoney "GBP" 35801) /\
  Sub (mkMoney "GBP" 0) (mkMoney "GBP" 1234) = Ok (mkMoney "GBP" (-1234)) /\
  Cmp (mkMoney "GBP" 4567) (mkMoney "GBP" (-4567)) = Ok 1.
Proof.
  pose proof (arith_currency_checked (mkMoney "GBP" 12345) (mkMoney "GBP" 23456))
    as (_ & _ & _ & H1).
  pose proof (arith_currency_checked (mkMoney "GBP" 0) (mkMoney "GBP" 1234))
    as (_ & _ & _ & H2).
  pose proof (arith_currency_checked (mkMoney "GBP" 4567) (mkMoney "GBP" (-4567)))
    as (_ & _ & _ & H3).
  destruct (H1 eq_refl) as (_ & _ & A & _).
  destruct (H2 eq_refl) as (_ & _ & _ & S & _).
  destruct (H3 eq_refl) as (_ & _ & _ & _ & _ & _ & G).
  split; [apply A; unfold is_int; simpl; lia|].
  split; [apply S; unfold is_int; simpl; lia|].
  apply G. simpl. lia.
Defined.

(** ** Digits *)

Section Digits.

Lemma is_digit_range ch :
  is_digit ch = true <-> 0 <= digit_val ch <= 9.
Proof.
  unfold is_digit, digit_val. rewrite andb_true_iff, Z.leb_le, Z.leb_le. lia.
Qed.

Lemma digit_chr_val ch : digit_chr (digit_val ch) = ch.
Proof.
  unfold digit_chr, digit_val.
  replace (Z.of_N (N_of_ascii ch) - 48 + 48) with (Z.of_N (N_of_ascii ch)) by lia.
  rewrite N2Z.id. apply ascii_N_embedding.
Qed.

Lemma digit_val_chr d : 0 <= d <= 9 -> digit_val (digit_chr d) = d.
Proof.
  intros H. unfold digit_chr, digit_val.
  rewrite N_ascii_embedding by lia. lia.
Qed.

Lemma is_digit_chr d : 0 <= d <= 9 -> is_digit (digit_chr d) = true.
Proof. intros H. apply is_digit_range. rewrite digit_val_chr; lia. Qed.

Lemma digit_val_inj c1 c2 : digit_val c1 = digit_val c2 -> c1 = c2.
Proof.
  intros H. rewrite <- (digit_chr_val c1), <- (digit_chr_val c2). now f_equal.
Qed.

Lemma digit_val_zero ch : digit_val ch = 0 <-> ch = "0"%char.
Proof.
  split; [|intros ->; reflexivity].
  intros H. apply digit_val_inj. rewrite H. reflexivity.
Qed.

Lemma digits_value_snoc ds ch :
  digits_value (ds ++ [ch]) = digits_value ds * 10 + digit_val ch.
Proof. unfold digits_value. now rewrite fold_left_app. Qed.

Lemma digits_value_nonneg ds : all_digits ds -> 0 <= digits_value ds.
Proof.
  induction ds as [|ch ds IH] using rev_ind; intros H; [reflexivity|].
  apply Forall_app in H as [H1 H2]. apply Forall_inv in H2.
  apply is_digit_range in H2. rewrite digits_value_snoc.
  specialize (IH H1). lia.
Qed.

Lemma digits_value_app ds es :
  digits_value (ds ++ es)
  = digits_value ds * 10 ^ Z.of_nat (length es) + digits_value es.
Proof.
  induction es as [|ch es IH] using rev_ind.
  - rewrite app_nil_r. simpl. unfold digits_value at 3. simpl. lia.
  - rewrite app_assoc, !digits_value_snoc, IH, length_app. simpl.
    rewrite Nat2Z.inj_add, Z.pow_add_r by lia. simpl Z.of_nat. lia.
Qed.

(** A digit string that does not start with [0] spells a positive number. *)
Lemma digits_value_pos ds :
  all_digits ds -> ds <> [] -> hd "0"%char ds <> "0"%char ->
  0 < digits_value ds.
Proof.
  induction ds as [|ch ds IH] using rev_ind; intros H N Z0; [congruence|].
  apply Forall_app in H as [H1 H2]. apply Forall_inv in H2.
  apply is_digit_range in H2. rewrite digits_value_snoc.
  destruct ds as [|e ds].
  - simpl in *. unfold digits_value. simpl.
    assert (digit_val ch <> 0) by (rewrite digit_val_zero; congruence). lia.
  - simpl in Z0. assert (0 < digits_value (e :: ds)) by (apply IH; simpl; auto; congruence).
    lia.
Qed.

End Digits.

(** ** Decimal printing *)

Section Printing.

Lemma utoa_fuel_acc fuel : forall n acc,
  utoa_fuel fuel n acc = utoa_fuel fuel n [] ++ acc.
Proof.
  induction fuel as [|f IH]; intros n acc; simpl; [reflexivity|].
  destruct (n <? 10); [reflexivity|].
  rewrite IH, (IH _ [_]), <- app_assoc. reflexivity.
Qed.

(** Any fuel above the binary length of [n] gives the same digits. *)
Lemma utoa_fuel_indep f1 : forall f2 n acc,
  0 <= n -> n < 2 ^ Z.of_nat f1 -> n < 2 ^ Z.of_nat f2 ->
  (0 < f1)%nat -> (0 < f2)%nat ->
  utoa_fuel f1 n acc = utoa_fuel f2 n acc.
Proof.
  induction f1 as [|f1 IH]; intros f2 n acc Hn H1 H2 P1 P2; [lia|].
  destruct f2 as [|f2]; [lia|]. simpl.
  destruct (Z.ltb_spec n 10) as [L|L]; [reflexivity|].
  rewrite Nat2Z.inj_succ, Z.pow_succ_r in H1, H2 by lia.
  assert (0 < f1)%nat.
  { destruct f1; [simpl in H1; lia|lia]. }
  assert (0 < f2)%nat.
  { destruct f2; [simpl in H2; lia|lia]. }
  apply IH; try assumption.
  - apply Z.div_pos; lia.
  - apply Z.div_lt_upper_bound; lia.
  - apply Z.div_lt_upper_bound; lia.
Qed.

Lemma utoa_small n : 0 <= n < 10 -> utoa n = [digit_chr n].
Proof.
  intros H. unfold utoa. simpl.
  rewrite Z.mod_small by lia.
  destruct (Z.ltb_spec n 10); [reflexivity|lia].
Qed.

Lemma utoa_step n :
  10 <= n -> utoa n = utoa (n / 10) ++ [digit_chr (n mod 10)].
Proof.
  intros H. unfold utoa at 1. simpl.
  destruct (Z.ltb_spec n 10); [lia|].
  rewrite utoa_fuel_acc. f_equal. unfold utoa.
  pose proof (Z.log2_spec n ltac:(lia)) as [_ U].
  assert (1 <= n / 10) by (apply Z.div_le_lower_bound; lia).
  pose proof (Z.log2_spec (n / 10) ltac:(lia)) as [_ V].
  pose proof (Z.log2_nonneg n). pose proof (Z.log2_nonneg (n / 10)).
  assert (0 < Z.log2 n).
  { apply Z.log2_pos. lia. }
  apply utoa_fuel_indep; try lia.
  - rewrite Z2Nat.id by lia. apply Z.div_lt_upper_bound; [lia|].
    rewrite Z.pow_succ_r in U by lia. lia.
  - rewrite Nat2Z.inj_succ, Z2Nat.id by lia. exact V.
Qed.

(** Printing then reading a non-negative number gives it back. *)
Lemma utoa_value n :
  0 <= n -> utoa n <> [] /\ all_digits (utoa n) /\ digits_value (utoa n) = n.
Proof.
  revert n. apply (Zlt_0_ind (fun n =>
    utoa n <> [] /\ all_digits (utoa n) /\ digits_value (utoa n) = n)).
  intros n IH Hn.
  destruct (Z.ltb_spec n 10) as [L|L].
  - rewrite utoa_small by lia. repeat split; [discriminate| |].
    + constructor; [apply is_digit_chr; lia|constructor].
    + unfold digits_value. simpl. rewrite digit_val_chr; lia.
  - rewrite utoa_step by lia.
    destruct (IH (n / 10)) as (N & D & V).
    { split; [apply Z.div_pos; lia|apply Z.div_lt; lia]. }
    pose proof (Z.mod_pos_bound n 10 ltac:(lia)).
    repeat split.
    + intros E. apply app_eq_nil in E as [_ E]. discriminate.
    + apply Forall_app. split; [exact D|].
      constructor; [apply is_digit_chr; lia|constructor].
    + rewrite digits_value_snoc, V, digit_val_chr by lia.
      pose proof (Z.div_mod n 10 ltac:(lia)). lia.
Qed.

(** Reading then printing a digit string without a superfluous leading
    zero gives it back. *)
Lemma utoa_digits_value ds :
  all_digits ds -> ds <> [] ->
  (ds = ["0"%char] \/ hd "0"%char ds <> "0"%char) ->
  utoa (digits_value ds) = ds.
Proof.
  induction ds as [|ch es IH] using rev_ind; intros D N Z0; [congruence|].
  apply Forall_app in D as [D1 D2]. apply Forall_inv in D2.
  apply is_digit_range in D2. rewrite digits_value_snoc.
  destruct es as [|e es].
  - change (digits_value [] * 10 + digit_val ch) with (digit_val ch).
    rewrite utoa_small by lia. now rewrite digit_chr_val.
  - assert (Hhd : hd "0"%char (e :: es) <> "0"%char).
    { destruct Z0 as [Z0|Z0]; [|exact Z0].
      destruct es; simpl in Z0; discriminate. }
    pose proof (digits_value_pos (e :: es) D1 ltac:(discriminate) Hhd) as P.
    rewrite utoa_step by lia.
    replace ((digits_value (e :: es) * 10 + digit_val ch) / 10)
      with (digits_value (e :: es)).
    2:{ apply Z.div_unique with (r := digit_val ch); lia. }
    replace ((digits_value (e :: es) * 10 + digit_val ch) mod 10)
      with (digit_val ch).
    2:{ apply Z.mod_unique with (q := digits_value (e :: es)); lia. }
    rewrite IH by (auto; discriminate). now rewrite digit_chr_val.
Qed.

Lemma Sprintf_02d_digits d1 d2 :
  is_digit d1 = true -> is_digit d2 = true ->
  Sprintf_02d (digits_value [d1; d2]) = [d1; d2].
Proof.
  intros H1 H2. apply is_digit_range in H1 as R1. apply is_digit_range in H2 as R2.
  change (digits_value [d1; d2]) with ((0 * 10 + digit_val d1) * 10 + digit_val d2).
  rewrite <- (digit_chr_val d1) at 2. rewrite <- (digit_chr_val d2) at 2.
  revert R1 R2. generalize (digit_val d1) (digit_val d2). clear.
  intros v1 v2 R1 R2. unfold Sprintf_02d.
  destruct (Z.ltb_spec ((0 * 10 + v1) * 10 + v2) 0); [lia|].
  destruct (Z.eq_dec v1 0) as [->|E].
  - change ((0 * 10 + 0) * 10 + v2) with v2.
    rewrite utoa_small by lia. reflexivity.
  - rewrite utoa_step by lia.
    replace (((0 * 10 + v1) * 10 + v2) / 10) with v1.
    2:{ apply Z.div_unique with (r := v2); lia. }
    replace (((0 * 10 + v1) * 10 + v2) mod 10) with v2.
    2:{ apply Z.mod_unique with (q := v1); lia. }
    rewrite utoa_small by lia. reflexivity.
Qed.

End Printing.

(** ** Parsing *)

Section Parsing.

Lemma span_digits_inv s : forall ds rest,
  span_digits s = (ds, rest) ->
  s = ds ++ rest /\ all_digits ds /\
  (forall ch r, rest = ch :: r -> is_digit ch = false).
Proof.
  induction s as [|ch s IH]; simpl; intros ds rest E.
  - inversion E; subst. repeat split; [constructor|]. intros; discriminate.
  - destruct (is_digit ch) eqn:D.
    + destruct (span_digits s) as [ds' rest'].
      inversion E; subst. destruct (IH _ _ eq_refl) as (A & B & C). subst s.
      repeat split; [constructor; assumption|exact C].
    + inversion E; subst. repeat split; [constructor|].
      intros ch' r R. inversion R; subst. exact D.
Qed.

Lemma span_digits_app ds rest :
  all_digits ds -> (forall ch r, rest = ch :: r -> is_digit ch = false) ->
  span_digits (ds ++ rest) = (ds, rest).
Proof.
  intros D R. induction D as [|ch ds Hch D IH]; simpl.
  - destruct rest as [|e r]; [reflexivity|]. simpl.
    now rewrite (R e r eq_refl).
  - now rewrite Hch, IH.
Qed.

Lemma frac_text_not_digit p :
  forall ch r, frac_text p = ch :: r -> is_digit ch = false.
Proof.
  unfold frac_text. destruct (frac_part p) as [[d1 d2]|]; intros ch r E.
  - inversion E. reflexivity.
  - discriminate.
Qed.

(** What the regexp captures on a text of the grammar. *)
Lemma FindStringSubmatch_render p :
  in_grammar p ->
  FindStringSubmatch (render p)
  = [render p; sign_text p; int_part p; frac_text p; frac_digits p].
Proof.
  intros (N & D & F). unfold FindStringSubmatch.
  assert (S1 : match render p with
               | ch :: r => if Ascii.eqb ch "-" then ([ch], r) else ([], render p)
               | [] => ([], render p)
               end = (sign_text p, int_part p ++ frac_text p)).
  { unfold render, sign_text. destruct (negative p); simpl; [reflexivity|].
    destruct (int_part p) as [|ch ip]; [congruence|]. simpl.
    apply Forall_inv in D. destruct (Ascii.eqb_spec ch "-"); [|reflexivity].
    subst ch. discriminate. }
  rewrite S1, (span_digits_app _ _ D (frac_text_not_digit p)).
  destruct (int_part p) as [|ch ip] eqn:E; [congruence|]. rewrite <- E.
  unfold frac_text, frac_digits in *.
  destruct (frac_part p) as [[d1 d2]|]; [|reflexivity].
  apply Forall_inv in F as F1. apply Forall_inv_tail, Forall_inv in F as F2.
  now rewrite F1, F2.
Qed.

(** Every text the regexp matches is a text of the grammar. *)
Lemma FindStringSubmatch_inv s :
  FindStringSubmatch s <> [] -> exists p, in_grammar p /\ s = render p.
Proof.
  unfold FindStringSubmatch.
  destruct (match s with
            | ch :: r => if Ascii.eqb ch "-" then ([ch], r) else ([], s)
            | [] => ([], s)
            end) as [m1 s1] eqn:E1.
  assert (S1 : exists neg, s = (if neg : bool then ["-"%char] else []) ++ s1).
  { destruct s as [|ch r]; [inversion E1; now exists false|].
    destruct (Ascii.eqb_spec ch "-").
    - inversion E1; subst. now exists true.
    - inversion E1; subst. now exists false. }
  destruct S1 as [neg ->].
  destruct (span_digits s1) as [m2 s2] eqn:E2.
  apply span_digits_inv in E2 as (-> & D & _).
  destruct m2 as [|e m2]; [congruence|].
  destruct s2 as [|p0 [|d1 [|d2 [|x s2]]]]; try congruence.
  - intros _. exists (mkParts neg (e :: m2) None).
    split; [repeat split; [discriminate|exact D|constructor]|].
    unfold render, sign_text, frac_text. simpl. now rewrite app_nil_r.
  - destruct (Ascii.eqb_spec p0 "."); [|simpl; congruence]. subst p0.
    destruct (is_digit d1) eqn:F1; [|simpl; congruence].
    destruct (is_digit d2) eqn:F2; [|simpl; congruence].
    intros _. exists (mkParts neg (e :: m2) (Some (d1, d2))).
    split; [|reflexivity].
    repeat split; [discriminate|exact D|].
    unfold frac_digits. simpl. repeat constructor; assumption.
Qed.

(** [Atoi] on a non-empty digit string: its value if it fits [int]. *)
Lemma Atoi_digits ds :
  ds <> [] -> all_digits ds ->
  Atoi ds = if digits_value ds <=? max_int then Some (digits_value ds) else None.
Proof.
  intros N D. unfold Atoi.
  destruct ds as [|ch ds]; [congruence|].
  apply Forall_inv in D as Hch.
  destruct (Ascii.eqb_spec ch "-"); [subst; discriminate|].
  destruct (Ascii.eqb_spec ch "+"); [subst; discriminate|].
  assert (B : forallb is_digit (ch :: ds) = true).
  { apply forallb_forall. intros e He.
    unfold all_digits in D. rewrite List.Forall_forall in D. now apply D. }
  rewrite B. pose proof (digits_value_nonneg _ D).
  unfold is_intb, max_int.
  destruct (Z.leb_spec (digits_value (ch :: ds)) (2 ^ 63 - 1));
    destruct (Z.leb_spec (- 2 ^ 63) (digits_value (ch :: ds)));
    destruct (Z.ltb_spec (digits_value (ch :: ds)) (2 ^ 63)); simpl; try reflexivity; lia.
Qed.

Lemma in_grammar_digits p :
  in_grammar p ->
  int_part p ++ frac_digits p <> [] /\ all_digits (int_part p ++ frac_digits p).
Proof.
  intros (N & D & F). split.
  - intros E. apply app_eq_nil in E as [E _]. congruence.
  - apply Forall_app. split; assumption.
Qed.

Lemma bytes_eqb_sign p : bytes_eqb (sign_text p) ["-"%char] = negative p.
Proof. unfold sign_text. destruct (negative p); reflexivity. Qed.

(** [strToInt] on a text of the grammar. *)
Lemma strToInt_render cur p :
  in_grammar p ->
  strToInt cur (string_of_list_ascii (render p))
  = if digits_number p <=? max_int
    then Ok ((if negative p then -1 else 1) * digits_number p)
    else Err AmountMalformed.
Proof.
  intros G. unfold strToInt.
  rewrite list_ascii_of_string_of_list_ascii, FindStringSubmatch_render by exact G.
  cbn [length Nat.eqb nth].
  destruct (in_grammar_digits p G) as [N D].
  rewrite Atoi_digits by assumption. fold (digits_number p).
  destruct (Z.leb_spec (digits_number p) max_int) as [L|L]; [|reflexivity].
  rewrite bytes_eqb_sign.
  pose proof (digits_value_nonneg _ D) as P. fold (digits_number p) in P.
  destruct (negative p).
  - rewrite wrap_int_small; [f_equal; lia|].
    unfold is_int, max_int in *. lia.
  - f_equal. lia.
Qed.

Lemma strToInt_error cur amt e :
  strToInt cur amt = Err e -> e = AmountMalformed.
Proof.
  unfold strToInt.
  destruct (length _ =? 0)%nat; [congruence|].
  destruct (Atoi _); [|congruence].
  destruct (bytes_eqb _ _); congruence.
Qed.

Lemma spec_atoms_digits p :
  frac_part p <> None ->
  spec_atoms p = (if negative p then -1 else 1) * digits_number p.
Proof.
  intros F. unfold spec_atoms, digits_number. f_equal.
  rewrite digits_value_app. unfold frac_digits.
  destruct (frac_part p) as [[d1 d2]|]; [reflexivity|congruence].
Qed.

End Parsing.

(** C3, as the code has it: [strToInt] succeeds exactly on the texts of
    the grammar (an optional [-], one or more digits, an optional [.]
    with exactly two digits) whose digits, point removed, spell a number
    of at most [2^63 - 1]; every other input is rejected as
    [AmountMalformed]; and on an accepted text that has a fractional part
    the result is [sign × (integerPart × 100 + fractionalPart)]. *)
Theorem strToInt_grammar (cur amt : string) :
  ((exists v, strToInt cur amt = Ok v) <->
   (exists p, in_grammar p /\ list_ascii_of_string amt = render p /\
              digits_number p <= max_int)) /\
  ((forall v, strToInt cur amt <> Ok v) -> strToInt cur amt = Err AmountMalformed) /\
  (forall p, in_grammar p -> list_ascii_of_string amt = render p ->
             frac_part p <> None -> digits_number p <= max_int ->
             strToInt cur amt = Ok (spec_atoms p)).
Proof.
  assert (R : forall p, list_ascii_of_string amt = render p ->
                        amt = string_of_list_ascii (render p)).
  { intros p E. rewrite <- E. symmetry. apply string_of_list_ascii_of_string. }
  split; [split|split].
  - intros [v Hv].
    destruct (FindStringSubmatch_inv (list_ascii_of_string amt)) as (p & G & E).
    { intros E. unfold strToInt in Hv. rewrite E in Hv. discriminate. }
    exists p. split; [exact G|]. split; [exact E|].
    rewrite (R p E), strToInt_render in Hv by exact G.
    destruct (Z.leb_spec (digits_number p) max_int); [assumption|discriminate].
  - intros (p & G & E & L). rewrite (R p E), strToInt_render by exact G.
    destruct (Z.leb_spec (digits_number p) max_int); [eauto|lia].
  - intros H. destruct (strToInt cur amt) as [v|e] eqn:E.
    + now destruct (H v).
    + f_equal. eapply strToInt_error. exact E.
  - intros p G E F L. rewrite (R p E), strToInt_render by exact G.
    destruct (Z.leb_spec (digits_number p) max_int); [|lia].
    now rewrite spec_atoms_digits.
Qed.

Lemma strToInt_grammar_witness :
  strToInt "GBP" "-123.45" = Ok (-12345).
Proof.
  pose proof (strToInt_grammar "GBP" "-123.45") as (_ & _ & H).
  apply (H (mkParts true (list_ascii_of_string "123") (Some ("4"%char, "5"%char)))).
  - repeat split; [discriminate|repeat constructor|repeat constructor].
  - reflexivity.
  - discriminate.
  - vm_compute. discriminate.
Defined.

(** Two texts of the grammar on which the code departs from the claim:
    twenty nines are rejected (the number does not fit [int]), and a
    text without fractional part is read as a count of atoms. *)
Lemma strToInt_counterexample :
  (in_grammar (mkParts false (list_ascii_of_string "99999999999999999999") None) /\
   render (mkParts false (list_ascii_of_string "99999999999999999999") None)
     = list_ascii_of_string "99999999999999999999" /\
   strToInt "GBP" "99999999999999999999" = Err AmountMalformed) /\
  (in_grammar (mkParts false (list_ascii_of_string "5") None) /\
   render (mkParts false (list_ascii_of_string "5") None)
     = list_ascii_of_string "5" /\
   spec_atoms (mkParts false (list_ascii_of_string "5") None) = 500 /\
   strToInt "GBP" "5" = Ok 5).
Proof.
  repeat split; try discriminate; try (repeat constructor; fail).
Qed.

(** ** Formatting *)

Section Formatting.

Lemma quot_rem_100 i f :
  0 <= i -> 0 <= f < 100 ->
  Z.quot (i * 100 + f) 100 = i /\ Z.rem (i * 100 + f) 100 = f.
Proof.
  intros Hi Hf.
  rewrite Z.quot_div_nonneg, Z.rem_mod_nonneg by lia. split.
  - symmetry. apply Z.div_unique with (r := f); lia.
  - symmetry. apply Z.mod_unique with (q := i); lia.
Qed.

Lemma Itoa_nonneg n : 0 <= n -> Itoa n = utoa n.
Proof. intros H. unfold Itoa. destruct (Z.ltb_spec n 0); [lia|reflexivity]. Qed.

(** Formatting the atoms [i × 100 + f], with either sign. *)
Lemma Amount_parts cur (neg : bool) ip d1 d2 :
  all_digits ip -> ip <> [] ->
  (ip = ["0"%char] \/ hd "0"%char ip <> "0"%char) ->
  is_digit d1 = true -> is_digit d2 = true ->
  digits_value ip * 100 + digits_value [d1; d2] <= max_int ->
  (neg = true -> digits_value ip * 100 + digits_value [d1; d2] <> 0) ->
  Amount (mkMoney cur ((if neg then -1 else 1)
                       * (digits_value ip * 100 + digits_value [d1; d2])))
  = string_of_list_ascii
      ((if neg then ["-"%char] else []) ++ ip ++ ["."%char; d1; d2]).
Proof.
  intros D N Z0 H1 H2 L NZ.
  pose proof (digits_value_nonneg ip D) as Pi.
  assert (Pf : 0 <= digits_value [d1; d2] < 100).
  { apply is_digit_range in H1, H2.
    change (digits_value [d1; d2]) with ((0 * 10 + digit_val d1) * 10 + digit_val d2).
    lia. }
  destruct (quot_rem_100 _ _ Pi Pf) as [Q R].
  unfold Amount. cbn [a]. f_equal.
  set (n := digits_value ip * 100 + digits_value [d1; d2]) in *.
  assert (A' : (if (if neg then -1 else 1) * n <? 0
                then wrap_int ((if neg then -1 else 1) * n * -1)
                else (if neg then -1 else 1) * n) = n).
  { destruct neg.
    - specialize (NZ eq_refl).
      destruct (Z.ltb_spec (-1 * n) 0); [|lia].
      rewrite wrap_int_small; [lia|]. unfold is_int, max_int in *. lia.
    - destruct (Z.ltb_spec (1 * n) 0); lia. }
  rewrite A', Q, R, Itoa_nonneg, utoa_digits_value, Sprintf_02d_digits by assumption.
  f_equal. destruct neg.
  - specialize (NZ eq_refl). destruct (Z.ltb_spec (-1 * n) 0); [reflexivity|lia].
  - destruct (Z.ltb_spec (1 * n) 0); [lia|reflexivity].
Qed.

End Formatting.

(** C7, as the code has it: on a canonical text (an optional sign, an
    integer part without superfluous leading zero, a point and exactly
    two digits, no sign on zero) whose digits spell at most [2^63 - 1],
    parsing succeeds and formatting the parsed atoms gives the text
    back. *)
Theorem Amount_strToInt_roundtrip (cur : string) (p : amount_parts) :
  canonical p -> digits_number p <= max_int ->
  exists v, strToInt cur (string_of_list_ascii (render p)) = Ok v /\
            Amount (mkMoney cur v) = string_of_list_ascii (render p).
Proof.
  intros (G & F & Z0 & NZ) L.
  exists ((if negative p then -1 else 1) * digits_number p). split.
  - rewrite strToInt_render by exact G.
    destruct (Z.leb_spec (digits_number p) max_int); [reflexivity|lia].
  - destruct G as (N & D & FD).
    unfold digits_number in *. rewrite digits_value_app in *.
    unfold render, sign_text, frac_text, frac_digits in *.
    destruct (frac_part p) as [[d1 d2]|]; [|congruence].
    apply Forall_inv in FD as F1. apply Forall_inv_tail, Forall_inv in FD as F2.
    change (10 ^ Z.of_nat (length [d1; d2])) with 100 in *.
    now apply Amount_parts.
Qed.

Lemma Amount_strToInt_roundtrip_witness :
  exists v, strToInt "GBP" "-123.45" = Ok v /\
            Amount (mkMoney "GBP" v) = "-123.45"%string.
Proof.
  apply (Amount_strToInt_roundtrip "GBP"
           (mkParts true (list_ascii_of_string "123") (Some ("4"%char, "5"%char)))).
  - split; [repeat split; [discriminate|repeat constructor|repeat constructor]|].
    split; [discriminate|].
    split; [right; discriminate|].
    intros _. vm_compute. discriminate.
  - vm_compute. discriminate.
Defined.

(** Texts with a sign, an integer part, a point and two digits that do
    not come back: the sign of zero and leading zeros are dropped. *)
Lemma Amount_roundtrip_counterexample :
  (strToInt "GBP" "-0.00" = Ok 0 /\
   Amount (mkMoney "GBP" 0) = "0.00"%string /\
   Amount (mkMoney "GBP" 0) <> "-0.00"%string) /\
  (strToInt "GBP" "007.50" = Ok 750 /\
   Amount (mkMoney "GBP" 750) = "7.50"%string /\
   Amount (mkMoney "GBP" 750) <> "007.50"%string).
Proof. repeat split; try reflexivity; vm_compute; discriminate. Qed.

(** ** Allocation *)

(** *** Sums *)

Lemma Zsum_app l1 l2 : Zsum (l1 ++ l2) = Zsum l1 + Zsum l2.
Proof. unfold Zsum. induction l1; simpl; lia. Qed.

Lemma Zsum_insert (l : list Z) i v v' :
  l !! i = Some v -> Zsum (<[i := v']> l) = Zsum l - v + v'.
Proof.
  revert i. induction l as [|x l IH]; intros [|i] H; simpl in *; try discriminate.
  - inversion H; subst. unfold Zsum. simpl. lia.
  - unfold Zsum in *. simpl. rewrite (IH i H). lia.
Qed.

Lemma int_sum_from (l : list Z) : forall acc,
  fold_left (fun total al => wrap_int (total + al)) l (wrap_int acc)
  = wrap_int (acc + Zsum l).
Proof.
  induction l as [|x l IH]; intros acc; simpl.
  - unfold Zsum. simpl. f_equal. lia.
  - rewrite wrap_int_add_l, IH. unfold Zsum. simpl. f_equal. lia.
Qed.

Lemma int_sum_Zsum l : int_sum l = wrap_int (Zsum l).
Proof. unfold int_sum. change 0 with (wrap_int 0) at 1. now rewrite int_sum_from. Qed.

Lemma remainder_from (l : list Z) : forall acc,
  fold_left (fun rem al => wrap_int (rem - al)) l (wrap_int acc)
  = wrap_int (acc - Zsum l).
Proof.
  induction l as [|x l IH]; intros acc; simpl.
  - unfold Zsum. simpl. f_equal. lia.
  - rewrite wrap_int_sub_l, IH. unfold Zsum. simpl. f_equal. lia.
Qed.

Lemma remainder_Zsum x al :
  is_int (a x) -> remainder x al = wrap_int (a x - Zsum al).
Proof.
  intros H. unfold remainder. rewrite <- (wrap_int_small (a x)) at 1 by exact H.
  apply remainder_from.
Qed.

Lemma distribute_invariant ws n d fuel : forall i rem allocs res,
  distribute fuel ws n d i rem allocs = Returned res ->
  length res = length allocs /\
  wrap_int (Zsum res) = wrap_int (Zsum allocs + rem).
Proof.
  induction fuel as [|fuel IH]; intros i rem allocs res; simpl.
  - destruct (Z.eqb_spec rem 0); [|discriminate].
    intros [= <-]. subst. split; [reflexivity|f_equal; lia].
  - destruct (Z.eqb_spec rem 0).
    { intros [= <-]. subst. split; [reflexivity|f_equal; lia]. }
    destruct (n =? 0); [discriminate|].
    destruct (Z.rem i n <? 0); [discriminate|].
    destruct (ws !! Z.to_nat (Z.rem i n)) as [w|]; [|discriminate].
    destruct (w =? 0); [apply IH|].
    destruct (allocs !! Z.to_nat (Z.rem i n)) as [al|] eqn:A; [|discriminate].
    intros H. apply IH in H as [L S]. rewrite length_insert in L.
    split; [exact L|]. rewrite S. rewrite (Zsum_insert _ _ al) by exact A.
    rewrite wrap_int_add_r.
    replace (Zsum allocs - al + wrap_int (al + d) + (rem + - d))
      with (Zsum allocs - al + (rem + - d) + wrap_int (al + d)) by lia.
    rewrite wrap_int_add_r. f_equal. lia.
Qed.

Lemma fallback_length ws : length (fst (fallback ws)) = length ws.
Proof.
  unfold fallback. destruct (uint_sum ws =? 0); simpl; [|reflexivity].
  apply length_replicate.
Qed.

Lemma truncated_length x rs : length (truncated x rs) = length rs.
Proof. unfold truncated. apply length_map. Qed.

Lemma ratios_of_length ws s : length (ratios_of ws s) = length ws.
Proof. unfold ratios_of. apply length_map. Qed.

(** What [Share] returns, when it returns. *)
Lemma Share_returned fuel x ws res :
  is_int (a x) ->
  fst (Share fuel x ws) = Returned res ->
  length res = length ws /\
  Forall (fun y => c y = c x) res /\
  wrap_int (Zsum (map a res)) = a x.
Proof.
  intros Hx. unfold Share.
  destruct (fallback ws) as [ws' sum] eqn:F.
  destruct (distribute _ _ _ _ _ _ _) as [al| |] eqn:D; simpl; try discriminate.
  destruct (negb _) eqn:T; simpl; [discriminate|].
  intros [= <-].
  apply distribute_invariant in D as [L S].
  rewrite truncated_length, ratios_of_length in L.
  pose proof (fallback_length ws) as FL. rewrite F in FL. simpl in FL.
  split; [rewrite length_map; congruence|].
  split; [apply Forall_map; apply Forall_forall; reflexivity|].
  rewrite map_map. simpl. rewrite map_id.
  apply negb_false_iff, Z.eqb_eq in T. rewrite int_sum_Zsum in T. exact T.
Qed.

Lemma Share_unfold fuel x ws :
  Share fuel x ws =
  match final_allocations fuel x ws with
  | Returned al =>
      if negb (int_sum al =? a x) then (Panicked BadAllocation, fst (fallback ws))
      else (Returned (map (mkMoney (c x)) al), fst (fallback ws))
  | Panicked p => (Panicked p, fst (fallback ws))
  | OutOfFuel => (OutOfFuel, fst (fallback ws))
  end.
Proof.
  unfold Share, final_allocations, initial_remainder, initial_allocations.
  destruct (fallback ws) as [ws' sum]. reflexivity.
Qed.

Lemma distribute_no_bad_allocation ws n d fuel : forall i rem allocs,
  distribute fuel ws n d i rem allocs <> Panicked BadAllocation.
Proof.
  induction fuel as [|fuel IH]; intros i rem allocs; simpl.
  - destruct (rem =? 0); discriminate.
  - destruct (rem =? 0); [discriminate|].
    destruct (n =? 0); [discriminate|].
    destruct (Z.rem i n <? 0); [discriminate|].
    destruct (ws !! Z.to_nat (Z.rem i n)) as [w|]; [|discriminate].
    destruct (w =? 0); [apply IH|].
    destruct (allocs !! Z.to_nat (Z.rem i n)) as [al|]; [apply IH|discriminate].
Qed.

(** The sum the check of [Share] computes. *)
Lemma final_allocations_sum fuel x ws al :
  is_int (a x) -> final_allocations fuel x ws = Returned al -> int_sum al = a x.
Proof.
  intros Hx D. apply distribute_invariant in D as [_ S].
  fold (initial_allocations x ws) in S. fold (initial_remainder x ws) in S.
  unfold initial_remainder in S.
  rewrite int_sum_Zsum, S, remainder_Zsum, wrap_int_add_r by exact Hx.
  rewrite <- (wrap_int_small (a x)) at 2 by exact Hx. f_equal. lia.
Qed.

(** *** The walk *)

Lemma visited_cons ws i len :
  visited ws i (S len)
  = if eligibleb ws (i mod length ws)%nat
    then (i mod length ws)%nat :: visited ws (S i) len
    else visited ws (S i) len.
Proof. unfold visited. simpl. reflexivity. Qed.

Lemma visited_app ws i l1 l2 :
  visited ws i (l1 + l2) = visited ws i l1 ++ visited ws (i + l1) l2.
Proof. unfold visited. now rewrite seq_app, map_app, List.filter_app. Qed.

Lemma give_length d al j : length (give d al j) = length al.
Proof. unfold give. destruct (al !! j); [apply length_insert|reflexivity]. Qed.

Section Walk.

Variable ws : list Z.
Variable d : Z.
Let N := length ws.
Hypothesis N_pos : (0 < N)%nat.

Lemma distribute_walk len : forall i rem allocs fuel,
  length allocs = N ->
  is_int rem ->
  (0 < rem -> d = 1) -> (rem < 0 -> d = -1) ->
  Z.of_nat i + Z.of_nat len < 2 ^ 63 ->
  (Z.abs_nat rem <= length (visited ws i len))%nat ->
  (len <= fuel)%nat ->
  distribute fuel ws (Z.of_nat N) d (Z.of_nat i) rem allocs
  = Returned (fold_left (give d) (take (Z.abs_nat rem) (visited ws i len)) allocs).
Proof.
  induction len as [|len IH]; intros i rem allocs fuel LA IR Dp Dn Bi Bv Bf.
  - simpl in Bv. assert (rem = 0) by lia. subst rem.
    destruct fuel; reflexivity.
  - destruct fuel as [|fuel]; [lia|]. simpl distribute.
    destruct (Z.eqb_spec rem 0) as [->|NZ]; [reflexivity|].
    destruct (Z.eqb_spec (Z.of_nat N) 0); [lia|].
    rewrite Z.rem_mod_nonneg by lia.
    rewrite <- Nat2Z.inj_mod, Nat2Z.id.
    destruct (Z.ltb_spec (Z.of_nat (i mod N)) 0); [lia|].
    pose proof (Nat.mod_upper_bound i N ltac:(lia)) as Hj.
    destruct (lookup_lt_is_Some_2 ws (i mod N)%nat Hj) as [w Hw].
    destruct (lookup_lt_is_Some_2 allocs (i mod N)%nat ltac:(lia)) as [al Hal].
    rewrite Hw, Hal.
    assert (Wi : wrap_int (Z.of_nat i + 1) = Z.of_nat (S i)).
    { rewrite wrap_int_small; [lia|]. unfold is_int. lia. }
    rewrite Wi. rewrite visited_cons in Bv |- *. fold N in Bv |- *.
    assert (E : eligibleb ws (i mod N) = negb (w =? 0)).
    { unfold eligibleb. f_equal. f_equal.
      apply nth_lookup_Some with (d := 0) in Hw. exact Hw. }
    rewrite E in Bv |- *.
    destruct (Z.eqb_spec w 0) as [W0|NW]; simpl negb in *; cbv iota in *.
    + apply IH; auto; lia.
    + assert (R' : is_int (rem + - d) /\ Z.abs_nat (rem + - d) = pred (Z.abs_nat rem)).
      { unfold is_int in *. destruct (Z.lt_trichotomy rem 0) as [L|[L|L]];
          [rewrite (Dn L)|lia|rewrite (Dp L)]; lia. }
      destruct R' as [IR' AR'].
      rewrite (wrap_int_small _ IR').
      destruct (Z.abs_nat rem) as [|r] eqn:AR; [lia|].
      simpl in Bv. simpl take. simpl fold_left.
      unfold give at 2. rewrite Hal.
      rewrite IH; try (rewrite AR'; simpl); auto; try lia.
      now rewrite length_insert.
Qed.

End Walk.

Section Cycles.

Variable ws : list Z.
Let N := length ws.
Hypothesis N_pos : (0 < N)%nat.

Lemma block_indices_from k len : forall s,
  (s + len <= N)%nat ->
  map (fun t => t mod N)%nat (seq (k * N + s) len) = seq s len.
Proof.
  induction len as [|len IH]; intros s Hs; [reflexivity|]. simpl. f_equal.
  - rewrite Nat.add_comm, Nat.Div0.mod_add. apply Nat.mod_small. lia.
  - rewrite <- Nat.add_succ_r. apply IH. lia.
Qed.

Lemma block_indices k :
  map (fun t => t mod N)%nat (seq (k * N) N) = seq 0 N.
Proof.
  rewrite <- (Nat.add_0_r (k * N)). apply block_indices_from. lia.
Qed.

(** Every full cycle of the walk meets the same indices. *)
Lemma visited_block k : visited ws (k * N) N = visited ws 0 N.
Proof.
  unfold visited. fold N. rewrite block_indices.
  change 0%nat with (0 * N)%nat at 2. now rewrite block_indices.
Qed.

Lemma visited_cycles r : forall k,
  length (visited ws (k * N) (r * N)) = (r * length (visited ws 0 N))%nat.
Proof.
  induction r as [|r IH]; intros k; [reflexivity|].
  change (S r * N)%nat with (N + r * N)%nat.
  rewrite visited_app, length_app, visited_block.
  change (k * N + N)%nat with (k * N + N)%nat.
  replace (k * N + N)%nat with (S k * N)%nat by lia.
  rewrite IH. lia.
Qed.

(** A cycle meets every index of non-zero weight. *)
Lemma visited_some j w :
  ws !! j = Some w -> w <> 0 -> (0 < length (visited ws 0 N))%nat.
Proof.
  intros Hj Hw.
  assert (In j (visited ws 0 N)).
  { unfold visited. fold N. change 0%nat with (0 * N)%nat. rewrite block_indices.
    apply List.filter_In. split.
    - apply List.in_seq. apply lookup_lt_Some in Hj. fold N in Hj. lia.
    - unfold eligibleb. apply nth_lookup_Some with (d := 0) in Hj.
      rewrite Hj. now apply negb_true_iff, Z.eqb_neq. }
  destruct (visited ws 0 N); [contradiction|simpl; lia].
Qed.

Lemma visited_enough j w r :
  ws !! j = Some w -> w <> 0 -> (r <= length (visited ws 0 (r * N)))%nat.
Proof.
  intros Hj Hw. pose proof (visited_some j w Hj Hw).
  pose proof (visited_cycles r 0) as C. simpl in C. rewrite C. nia.
Qed.

End Cycles.

(** *** The weight sum *)

Lemma wrap_uint_add_l x y : wrap_uint (wrap_uint x + y) = wrap_uint (x + y).
Proof. unfold wrap_uint. apply Zplus_mod_idemp_l. Qed.

Lemma uint_sum_from (l : list Z) : forall acc,
  fold_left (fun sum w => wrap_uint (sum + w)) l (wrap_uint acc)
  = wrap_uint (acc + Zsum l).
Proof.
  induction l as [|x l IH]; intros acc; cbn [fold_left].
  - unfold Zsum. simpl. f_equal. lia.
  - rewrite wrap_uint_add_l, IH. unfold Zsum. simpl. f_equal. lia.
Qed.

Lemma uint_sum_Zsum ws : uint_sum ws = wrap_uint (Zsum ws).
Proof. unfold uint_sum. change 0 with (wrap_uint 0) at 1. now rewrite uint_sum_from. Qed.

Lemma Zsum_zeros ws : Forall (fun w => w = 0) ws -> Zsum ws = 0.
Proof. unfold Zsum. induction 1; simpl; lia. Qed.

Lemma Zsum_nonneg ws : Forall is_uint ws -> 0 <= Zsum ws.
Proof. unfold Zsum, is_uint. induction 1; simpl; lia. Qed.

Lemma Zsum_zero_inv ws :
  Forall is_uint ws -> Zsum ws = 0 -> Forall (fun w => w = 0) ws.
Proof.
  induction 1 as [|w ws Hw U IH]; intros S; constructor.
  - pose proof (Zsum_nonneg ws U). unfold Zsum, is_uint in *. simpl in S. lia.
  - apply IH. pose proof (Zsum_nonneg ws U). unfold Zsum, is_uint in *. simpl in S. lia.
Qed.

(** Without overflow the sum is zero exactly when every weight is. *)
Lemma uint_sum_zero_iff ws :
  Forall is_uint ws -> Zsum ws < 2 ^ 64 ->
  (uint_sum ws = 0 <-> Forall (fun w => w = 0) ws).
Proof.
  intros U B. rewrite uint_sum_Zsum.
  pose proof (Zsum_nonneg ws U).
  rewrite wrap_uint_small by (unfold is_uint; lia).
  split; [now apply Zsum_zero_inv|apply Zsum_zeros].
Qed.

(** After the fallback some weight is not zero. *)
Lemma fallback_nonzero ws :
  ws <> [] ->
  exists j w, fst (fallback ws) !! j = Some w /\ w <> 0.
Proof.
  intros NE. unfold fallback.
  destruct (Z.eqb_spec (uint_sum ws) 0) as [E|E]; simpl.
  - exists 0%nat, 1. split; [|lia].
    destruct ws; [congruence|reflexivity].
  - destruct (decide (Forall (fun w => w = 0) ws)) as [A|A].
    + rewrite uint_sum_Zsum, (Zsum_zeros ws A) in E. now destruct E.
    + apply not_Forall_Exists in A; [|intros w; apply _].
      apply Exists_exists in A as (w & Hin & Hw).
      apply list_elem_of_lookup in Hin as [j Hj]. now exists j, w.
Qed.

(** *** Termination *)

Lemma distribute_S fuel ws n d i rem allocs :
  distribute (S fuel) ws n d i rem allocs =
  if rem =? 0 then Returned allocs
  else if n =? 0 then Panicked IntegerDivideByZero
  else if Z.rem i n <? 0 then Panicked IndexOutOfRange
  else match ws !! Z.to_nat (Z.rem i n) with
       | None => Panicked IndexOutOfRange
       | Some w =>
           if w =? 0
           then distribute fuel ws n d (wrap_int (i + 1)) rem allocs
           else
             match allocs !! Z.to_nat (Z.rem i n) with
             | None => Panicked IndexOutOfRange
             | Some al =>
                 distribute fuel ws n d (wrap_int (i + 1)) (wrap_int (rem + - d))
                   (<[Z.to_nat (Z.rem i n) := wrap_int (al + d)]> allocs)
             end
       end.
Proof. reflexivity. Qed.

Lemma distribute_zero fuel ws n d i allocs :
  distribute fuel ws n d i 0 allocs = Returned allocs.
Proof. destruct fuel; reflexivity. Qed.

(** One unit towards zero. *)
Lemma rem_step d rem :
  is_int rem -> rem <> 0 -> (0 < rem -> d = 1) -> (rem < 0 -> d = -1) ->
  wrap_int (rem + - d) = rem + - d /\
  Z.abs_nat (rem + - d) = pred (Z.abs_nat rem) /\
  (0 < rem + - d -> d = 1) /\ (rem + - d < 0 -> d = -1).
Proof.
  intros IR NZ Dp Dn. unfold is_int in IR.
  destruct (Z.lt_trichotomy rem 0) as [L|[L|L]]; [rewrite (Dn L)|lia|rewrite (Dp L)].
  - rewrite wrap_int_small by (unfold is_int; lia). repeat split; lia.
  - rewrite wrap_int_small by (unfold is_int; lia). repeat split; lia.
Qed.

Section Termination.

Variable ws : list Z.
Variable d : Z.
Let n := Z.of_nat (length ws).

(** A single weight: every iteration takes one unit off [rem]. *)
Lemma distribute_ends_single w : forall r rem i allocs,
  ws = [w] -> w <> 0 ->
  is_int rem -> (0 < rem -> d = 1) -> (rem < 0 -> d = -1) ->
  Z.abs_nat rem = r ->
  exists fuel, distribute fuel ws n d i rem allocs <> OutOfFuel.
Proof.
  induction r as [|r IH]; intros rem i allocs E W IR Dp Dn R.
  - exists 0%nat. assert (rem = 0) by lia. subst rem. discriminate.
  - assert (N1 : n = 1) by (unfold n; rewrite E; reflexivity).
    assert (NZ : rem <> 0) by lia.
    destruct (rem_step d rem IR NZ Dp Dn) as (Wr & Ar & Dp' & Dn').
    assert (S1 : forall fuel, distribute (S fuel) ws n d i rem allocs =
              match allocs !! 0%nat with
              | Some al => distribute fuel ws n d (wrap_int (i + 1)) (rem + - d)
                             (<[0%nat := wrap_int (al + d)]> allocs)
              | None => Panicked IndexOutOfRange
              end).
    { intros fuel. rewrite distribute_S, N1, Z.rem_1_r, Wr.
      destruct (Z.eqb_spec rem 0); [contradiction|].
      change (1 =? 0) with false. change (0 <? 0) with false.
      change (Z.to_nat 0) with 0%nat. cbv iota. rewrite E.
      change ([w] !! 0%nat) with (Some w). cbv beta iota.
      rewrite (proj2 (Z.eqb_neq w 0) W). reflexivity. }
    destruct (allocs !! 0%nat) as [al|] eqn:A.
    + destruct (IH (rem + - d) (wrap_int (i + 1))
                  (<[0%nat := wrap_int (al + d)]> allocs) E W) as [fuel Hf];
        try assumption; try lia.
      * rewrite <- Wr. apply wrap_int_range.
      * exists (S fuel). now rewrite S1.
    + exists 1%nat. rewrite S1. discriminate.
Qed.

(** Two or more weights: a negative counter ends the loop at once, for
    [i] and [i + 1] are not both multiples of [n]. *)
Lemma distribute_ends_negative rem i allocs :
  2 <= n -> - 2 ^ 63 <= i <= -2 ->
  exists fuel, distribute fuel ws n d i rem allocs <> OutOfFuel.
Proof.
  intros N2 Hi. exists 2%nat. rewrite distribute_S.
  destruct (rem =? 0); [discriminate|].
  destruct (n =? 0); [discriminate|].
  destruct (Z.ltb_spec (Z.rem i n) 0) as [L|L]; [discriminate|].
  assert (Hn : 0 < n) by lia. assert (Hi0 : i <= 0) by lia.
  assert (Hi1 : i + 1 <= 0) by lia.
  pose proof (Z.rem_bound_pos_neg i n Hn Hi0) as B.
  assert (R0 : Z.rem i n = 0) by lia.
  assert (W1 : wrap_int (i + 1) = i + 1).
  { apply wrap_int_small. unfold is_int. lia. }
  assert (R1 : Z.rem (i + 1) n < 0).
  { pose proof (Z.rem_bound_pos_neg (i + 1) n Hn Hi1).
    pose proof (Z.quot_rem' i n). pose proof (Z.quot_rem' (i + 1) n).
    destruct (Z.eq_dec (Z.rem (i + 1) n) 0) as [Q|Q]; [|lia].
    rewrite R0 in *. rewrite Q in *.
    assert (K : n * ((i + 1) ÷ n - i ÷ n) = 1) by lia.
    destruct (Z_le_gt_dec ((i + 1) ÷ n - i ÷ n) 0); nia. }
  assert (T : forall rem' allocs',
             distribute 1 ws n d (wrap_int (i + 1)) rem' allocs' <> OutOfFuel).
  { intros rem' allocs'. rewrite distribute_S, W1.
    destruct (rem' =? 0); [discriminate|].
    destruct (n =? 0); [discriminate|].
    destruct (Z.ltb_spec (Z.rem (i + 1) n) 0); [discriminate|lia]. }
  destruct (ws !! _) as [w|]; [|discriminate].
  destruct (w =? 0); [apply T|].
  destruct (allocs !! _) as [al|]; [apply T|discriminate].
Qed.

(** The loop ends from [i] if it ends from the next counter. *)
Lemma distribute_ends_step rem i allocs :
  (forall rem' allocs',
     exists fuel, distribute fuel ws n d (wrap_int (i + 1)) rem' allocs' <> OutOfFuel) ->
  exists fuel, distribute fuel ws n d i rem allocs <> OutOfFuel.
Proof.
  intros T.
  destruct (Z.eqb_spec rem 0) as [->|NZ].
  { exists 0%nat. rewrite distribute_zero. discriminate. }
  destruct (T rem allocs) as [f1 H1].
  destruct (ws !! Z.to_nat (Z.rem i n)) as [w|] eqn:W.
  - destruct (Z.eqb_spec w 0) as [W0|W0].
    + exists (S f1). rewrite distribute_S, W.
      rewrite (proj2 (Z.eqb_neq rem 0) NZ), (proj2 (Z.eqb_eq w 0) W0).
      destruct (n =? 0); [discriminate|].
      destruct (Z.rem i n <? 0); [discriminate|exact H1].
    + destruct (allocs !! Z.to_nat (Z.rem i n)) as [al|] eqn:A.
      * destruct (T (wrap_int (rem + - d))
                    (<[Z.to_nat (Z.rem i n) := wrap_int (al + d)]> allocs)) as [f2 H2].
        exists (S f2). rewrite distribute_S, W, A.
        rewrite (proj2 (Z.eqb_neq rem 0) NZ), (proj2 (Z.eqb_neq w 0) W0).
        destruct (n =? 0); [discriminate|].
        destruct (Z.rem i n <? 0); [discriminate|exact H2].
      * exists 1%nat. rewrite distribute_S, W, A.
        rewrite (proj2 (Z.eqb_neq w 0) W0).
        destruct (rem =? 0); [discriminate|].
        destruct (n =? 0); [discriminate|].
        destruct (Z.rem i n <? 0); discriminate.
  - exists 1%nat. rewrite distribute_S, W.
    destruct (rem =? 0); [discriminate|].
    destruct (n =? 0); [discriminate|].
    destruct (Z.rem i n <? 0); discriminate.
Qed.

(** Two or more weights: the counter climbs to [2^63 - 1] at most and
    then turns negative. *)
Lemma distribute_ends_climb k : forall rem i allocs,
  2 <= n -> 0 <= i -> i = 2 ^ 63 - 1 - Z.of_nat k ->
  exists fuel, distribute fuel ws n d i rem allocs <> OutOfFuel.
Proof.
  induction k as [|k IH]; intros rem i allocs N2 Hi Hk;
    apply distribute_ends_step; intros rem' allocs'.
  - replace (wrap_int (i + 1)) with (- 2 ^ 63) by (subst i; reflexivity).
    apply distribute_ends_negative; lia.
  - rewrite wrap_int_small by (unfold is_int; lia).
    apply IH; lia.
Qed.

(** The second loop of [Share] never runs forever. *)
Lemma distribute_ends rem allocs :
  (exists j w, ws !! j = Some w /\ w <> 0) ->
  is_int rem -> (0 < rem -> d = 1) -> (rem < 0 -> d = -1) ->
  exists fuel, distribute fuel ws n d 0 rem allocs <> OutOfFuel.
Proof.
  intros (j & w & Hj & Hw) IR Dp Dn.
  pose proof (lookup_lt_Some _ _ _ Hj) as Lj.
  destruct (Nat.eq_dec (length ws) 1%nat) as [L1|L1].
  - assert (E : ws = [w]).
    { clear - Hj L1. destruct ws as [|w0 [|w1 l]]; try discriminate.
      destruct j; [now injection Hj as ->|discriminate]. }
    now apply (distribute_ends_single w (Z.abs_nat rem)).
  - apply (distribute_ends_climb (Z.to_nat (2 ^ 63 - 1))).
    + unfold n. lia.
    + lia.
    + rewrite Z2Nat.id; lia.
Qed.

End Termination.

(** More fuel does not change an outcome. *)
Lemma distribute_fuel_mono ws n d fuel : forall fuel' i rem allocs,
  (fuel <= fuel')%nat ->
  distribute fuel ws n d i rem allocs <> OutOfFuel ->
  distribute fuel' ws n d i rem allocs = distribute fuel ws n d i rem allocs.
Proof.
  induction fuel as [|fuel IH]; intros fuel' i rem allocs L H.
  - simpl in H. destruct (Z.eqb_spec rem 0) as [->|]; [|congruence].
    now rewrite !distribute_zero.
  - destruct fuel' as [|fuel']; [lia|]. rewrite distribute_S in H |- *.
    rewrite (distribute_S fuel).
    destruct (rem =? 0); [reflexivity|].
    destruct (n =? 0); [reflexivity|].
    destruct (Z.rem i n <? 0); [reflexivity|].
    destruct (ws !! _) as [w|]; [|reflexivity].
    destruct (w =? 0); [apply IH; auto; lia|].
    destruct (allocs !! _) as [al|]; [apply IH; auto; lia|reflexivity].
Qed.

Lemma initial_remainder_int x ws : is_int (a x) -> is_int (initial_remainder x ws).
Proof.
  intros H. unfold initial_remainder. rewrite remainder_Zsum by exact H.
  apply wrap_int_range.
Qed.

Lemma initial_allocations_length x ws :
  length (initial_allocations x ws) = length ws.
Proof.
  unfold initial_allocations.
  now rewrite truncated_length, ratios_of_length, fallback_length.
Qed.

Lemma sign_unit rem (d := if rem <? 0 then -1 else 1) :
  (0 < rem -> d = 1) /\ (rem < 0 -> d = -1).
Proof. unfold d. destruct (Z.ltb_spec rem 0); split; intros; lia. Qed.

Lemma final_allocations_ends x ws :
  is_int (a x) ->
  exists fuel, final_allocations fuel x ws <> OutOfFuel.
Proof.
  intros Hx. unfold final_allocations.
  destruct (sign_unit (initial_remainder x ws)) as [Dp Dn].
  destruct ws as [|w0 ws0] eqn:E.
  - exists 1%nat. rewrite distribute_S.
    destruct (_ =? 0); discriminate.
  - rewrite <- E in *. rewrite <- (fallback_length ws).
    apply distribute_ends; auto.
    + apply fallback_nonzero. congruence.
    + now apply initial_remainder_int.
Qed.

Lemma Share_outcome_mono fuel fuel' x ws :
  (fuel <= fuel')%nat ->
  final_allocations fuel x ws <> OutOfFuel ->
  Share fuel' x ws = Share fuel x ws.
Proof.
  intros L H. rewrite !Share_unfold. unfold final_allocations in *.
  now rewrite (distribute_fuel_mono _ _ _ fuel fuel') by assumption.
Qed.


Lemma Share_completes x ws fuel :
  ws <> [] -> is_int (a x) ->
  Z.abs (initial_remainder x ws) * Z.of_nat (length ws) < 2 ^ 63 ->
  (Z.abs_nat (initial_remainder x ws) * length ws <= fuel)%nat ->
  final_allocations fuel x ws
  = Returned (spec_distribute (fst (fallback ws)) (initial_allocations x ws)
                (initial_remainder x ws)) /\
  fst (Share fuel x ws)
  = Returned (map (mkMoney (c x))
                (spec_distribute (fst (fallback ws)) (initial_allocations x ws)
                   (initial_remainder x ws))).
Proof.
  intros NE Hx B F.
  assert (D : final_allocations fuel x ws
              = Returned (spec_distribute (fst (fallback ws)) (initial_allocations x ws)
                            (initial_remainder x ws))).
  { unfold final_allocations, spec_distribute.
    destruct (sign_unit (initial_remainder x ws)) as [Dp Dn].
    destruct (fallback_nonzero ws NE) as (j & w & Hj & Hw).
    pose proof (fallback_length ws) as FL.
    rewrite <- FL. change 0 with (Z.of_nat 0).
    apply distribute_walk; auto.
    - destruct ws; [congruence|]. rewrite FL. simpl. lia.
    - rewrite initial_allocations_length. now symmetry.
    - now apply initial_remainder_int.
    - rewrite FL. rewrite Nat2Z.inj_mul, Zabs2Nat.id_abs. simpl. lia.
    - apply (visited_enough _ ltac:(destruct ws; [congruence|rewrite FL; simpl; lia]) j w);
        assumption.
    - now rewrite FL. }
  split; [exact D|].
  rewrite Share_unfold, D.
  rewrite (final_allocations_sum fuel x ws _ Hx D), Z.eqb_refl. reflexivity.
Qed.

(** *** The walk in closed form *)

Lemma give_ints d al i : Forall is_int al -> Forall is_int (give d al i).
Proof.
  intros H. unfold give. destruct (al !! i) as [v|]; [|exact H].
  apply Forall_insert; [exact H|apply wrap_int_range].
Qed.

(** What a list of recipients adds at index [j]. *)
Lemma give_lookup d (l : list nat) : forall (al : list Z) j,
  Forall is_int al ->
  fold_left (give d) l al !! j
  = (fun v => wrap_int (v + d * Z.of_nat (count_occ Nat.eq_dec l j))) <$> (al !! j).
Proof.
  induction l as [|i l IH]; intros al j I; cbn [fold_left count_occ].
  - destruct (al !! j) as [v|] eqn:A; simpl; [|reflexivity].
    f_equal. rewrite Z.mul_0_r, Z.add_0_r. symmetry. apply wrap_int_small.
    rewrite Forall_lookup in I. eapply I, A.
  - rewrite IH by now apply give_ints. unfold give.
    destruct (Nat.eq_dec i j) as [->|NE].
    + destruct (al !! j) as [v|] eqn:A.
      * rewrite list_lookup_insert_eq by (now apply lookup_lt_Some in A).
        simpl. f_equal. rewrite wrap_int_add_l. f_equal. lia.
      * rewrite A. reflexivity.
    + destruct (al !! i) as [v|] eqn:A; [|reflexivity].
      now rewrite list_lookup_insert_ne.
Qed.

Lemma concat_replicate_length {A} q (l : list A) :
  length (concat (replicate q l)) = (q * length l)%nat.
Proof.
  induction q as [|q IH]; simpl; [reflexivity|].
  rewrite length_app, IH. reflexivity.
Qed.

(** The first [units] indices of the walk: whole cycles, then the first
    indices of one more. *)
Lemma take_cycles {A} (l : list A) units :
  (0 < length l)%nat ->
  take units (concat (replicate units l))
  = concat (replicate (units / length l) l) ++ take (units mod length l) l.
Proof.
  intros Hm. set (m := length l) in *.
  pose proof (Nat.div_mod_eq units m) as DM.
  pose proof (Nat.mod_upper_bound units m ltac:(lia)) as MB.
  set (q := (units / m)%nat) in *. set (r := (units mod m)%nat) in *.
  assert (Q : (q <= units)%nat) by nia.
  replace units with (q + (units - q))%nat at 2 by lia.
  rewrite replicate_add, concat_app.
  rewrite take_app, concat_replicate_length. fold m.
  replace (units - q * m)%nat with r by lia.
  rewrite take_ge by (rewrite concat_replicate_length; fold m; lia). f_equal.
  destruct (units - q)%nat as [|u] eqn:U.
  - assert (r = 0)%nat by nia. now replace r with 0%nat.
  - simpl. rewrite take_app. fold m.
    replace (r - m)%nat with 0%nat by lia. rewrite take_0, app_nil_r. reflexivity.
Qed.

Section ClosedForm.

Variable ws : list Z.
Hypothesis N_pos : (0 < length ws)%nat.

Lemma visited_cycle : visited ws 0 (length ws) = eligible ws.
Proof.
  unfold visited, eligible.
  pose proof (block_indices ws N_pos 0) as B. simpl in B. now rewrite B.
Qed.

Lemma visited_repeat r : forall k,
  visited ws (k * length ws) (r * length ws) = concat (replicate r (eligible ws)).
Proof.
  induction r as [|r IH]; intros k; [reflexivity|].
  change (S r * length ws)%nat with (length ws + r * length ws)%nat.
  rewrite visited_app, visited_block, visited_cycle by assumption.
  replace (k * length ws + length ws)%nat with (S k * length ws)%nat by lia.
  now rewrite IH.
Qed.

End ClosedForm.

Section Counting.

Variable p : nat -> bool.

Lemma filter_seq_bounds s len j :
  In j (List.filter p (seq s len)) -> (s <= j < s + len)%nat /\ p j = true.
Proof.
  intros H. apply List.filter_In in H as [H1 H2]. apply List.in_seq in H1. auto.
Qed.

Lemma count_filter_seq j len : forall s,
  count_occ Nat.eq_dec (List.filter p (seq s len)) j
  = if p j && (s <=? j)%nat && (j <? s + len)%nat then 1%nat else 0%nat.
Proof.
  induction len as [|len IH]; intros s.
  - cbn [seq List.filter count_occ].
    destruct (Nat.leb_spec s j), (Nat.ltb_spec j (s + 0)); try lia;
      destruct (p j); reflexivity.
  - cbn [seq List.filter].
    assert (T : count_occ Nat.eq_dec (if p s then s :: List.filter p (seq (S s) len)
                                       else List.filter p (seq (S s) len)) j
                = ((if p s && (s =? j)%nat then 1 else 0)
                   + count_occ Nat.eq_dec (List.filter p (seq (S s) len)) j)%nat).
    { destruct (p s); simpl; [|reflexivity].
      destruct (Nat.eq_dec s j) as [->|NE].
      - now rewrite Nat.eqb_refl.
      - now rewrite (proj2 (Nat.eqb_neq s j) NE). }
    rewrite T, IH. clear T IH.
    destruct (Nat.eqb_spec s j) as [Hs|NE], (Nat.leb_spec (S s) j), (Nat.leb_spec s j),
      (Nat.ltb_spec j (S s + len)), (Nat.ltb_spec j (s + S len));
      try lia; try subst s; destruct (p j); try destruct (p s); reflexivity || lia.
Qed.

(** Among the first [r] of the selected indices, [j] is there exactly
    when fewer than [r] selected indices precede it. *)
Lemma count_take_filter_seq j len r :
  count_occ Nat.eq_dec (take r (List.filter p (seq 0 len))) j
  = if p j && (j <? len)%nat && (length (List.filter p (seq 0 j)) <? r)%nat
    then 1%nat else 0%nat.
Proof.
  destruct (p j && (j <? len)%nat) eqn:PJ; simpl.
  - apply andb_true_iff in PJ as [Pj Lj]. apply Nat.ltb_lt in Lj.
    replace len with (j + S (len - S j))%nat by lia.
    rewrite seq_app, List.filter_app. simpl seq. cbn [List.filter]. rewrite Pj.
    set (A := List.filter p (seq 0 j)). set (B := List.filter p (seq (S j) (len - S j))).
    assert (NA : forall k, count_occ Nat.eq_dec (take k A) j = 0%nat).
    { intros k. apply count_occ_not_In. intros H.
      apply list_elem_of_In, elem_of_take in H as (i & Hi & _).
      apply list_elem_of_lookup_2, list_elem_of_In, filter_seq_bounds in Hi. lia. }
    assert (NB : forall k, count_occ Nat.eq_dec (take k B) j = 0%nat).
    { intros k. apply count_occ_not_In. intros H.
      apply list_elem_of_In, elem_of_take in H as (i & Hi & _).
      apply list_elem_of_lookup_2, list_elem_of_In, filter_seq_bounds in Hi. lia. }
    rewrite take_app, count_occ_app, NA. simpl.
    destruct (Nat.ltb_spec (length A) r) as [L|L].
    + replace (r - length A)%nat with (S (r - length A - 1)) by lia.
      cbn [take count_occ]. destruct (Nat.eq_dec j j); [|congruence].
      now rewrite NB.
    + replace (r - length A)%nat with 0%nat by lia. reflexivity.
  - apply count_occ_not_In. intros H.
    apply list_elem_of_In, elem_of_take in H as (i & Hi & _).
    apply list_elem_of_lookup_2, list_elem_of_In, filter_seq_bounds in Hi.
    destruct Hi as [Hb Hp]. rewrite Hp in PJ. simpl in PJ.
    apply Nat.ltb_ge in PJ. lia.
Qed.

Lemma count_concat_replicate q (l : list nat) j :
  count_occ Nat.eq_dec (concat (replicate q l)) j
  = (q * count_occ Nat.eq_dec l j)%nat.
Proof.
  induction q as [|q IH]; simpl; [reflexivity|].
  now rewrite count_occ_app, IH.
Qed.

End Counting.

(** The number of units the walk hands to index [j]. *)
Lemma walk_units ws units j :
  (0 < length (eligible ws))%nat ->
  count_occ Nat.eq_dec (take units (visited ws 0 (units * length ws))) j
  = units_for ws units j.
Proof.
  intros Hm.
  assert (N_pos : (0 < length ws)%nat).
  { destruct ws; [simpl in Hm; lia|simpl; lia]. }
  pose proof (visited_repeat ws N_pos units 0) as V.
  change (0 * length ws)%nat with 0%nat in V.
  rewrite V, take_cycles by assumption.
  rewrite count_occ_app, count_concat_replicate.
  unfold eligible at 2 4. rewrite count_filter_seq, count_take_filter_seq.
  unfold units_for, rank.
  change (0 <=? j)%nat with true. change (0 + length ws)%nat with (length ws).
  rewrite andb_true_r.
  destruct (eligibleb ws j && (j <? length ws)%nat); cbn [andb]; [|lia].
  destruct (_ <? _)%nat; lia.
Qed.

(** The allocation the walk leaves at index [j]. *)
Lemma spec_distribute_lookup ws al rem j :
  (0 < length (eligible ws))%nat -> Forall is_int al ->
  spec_distribute ws al rem !! j
  = (fun v => wrap_int (v + (if rem <? 0 then -1 else 1)
                           * Z.of_nat (units_for ws (Z.abs_nat rem) j)))
    <$> (al !! j).
Proof.
  intros Hm I. unfold spec_distribute.
  now rewrite give_lookup, walk_units.
Qed.

Lemma to_int_range f : is_int (F64.to_int f).
Proof.
  unfold F64.to_int. destruct f as [s|s| |s m e]; try (unfold is_int, min_int; lia).
  destruct (is_intb _) eqn:B; [now apply is_intb_spec|unfold is_int, min_int; lia].
Qed.

Lemma initial_allocations_ints x ws : Forall is_int (initial_allocations x ws).
Proof.
  unfold initial_allocations, truncated. apply Forall_map, Forall_forall.
  intros r _. apply to_int_range.
Qed.

Lemma fallback_eligible ws :
  ws <> [] -> (0 < length (eligible (fst (fallback ws))))%nat.
Proof.
  intros NE. destruct (fallback_nonzero ws NE) as (j & w & Hj & Hw).
  assert (P : (0 < length (fst (fallback ws)))%nat).
  { apply lookup_lt_Some in Hj. lia. }
  rewrite <- (visited_cycle _ P). now apply (visited_some _ P j w).
Qed.

(** *** binary64 magnitudes *)

Section Magnitude.

Lemma digits2_pos_size p : digits2_pos p = Pos.size p.
Proof. induction p as [p IH|p IH|]; simpl; congruence. Qed.

Lemma Zdigits2_log2 m : 0 < m -> Zdigits2 m = Z.log2 m + 1.
Proof.
  destruct m as [|p|p]; try lia. intros _. simpl.
  rewrite digits2_pos_size. destruct p; simpl; lia.
Qed.

Lemma digits_bounds m :
  0 < m -> 2 ^ (Zdigits2 m - 1) <= m < 2 ^ Zdigits2 m.
Proof.
  intros H. rewrite Zdigits2_log2 by exact H.
  replace (Z.log2 m + 1 - 1) with (Z.log2 m) by lia.
  apply Z.log2_spec, H.
Qed.

Lemma digits_unique m d :
  0 < d -> 2 ^ (d - 1) <= m < 2 ^ d -> Zdigits2 m = d.
Proof.
  intros Hd B. assert (0 < m).
  { pose proof (Z.pow_pos_nonneg 2 (d - 1)). lia. }
  rewrite Zdigits2_log2 by assumption.
  rewrite (Z.log2_unique m (d - 1)); [lia|lia|].
  replace (Z.succ (d - 1)) with d by lia. exact B.
Qed.

Lemma digits_pos m : 0 < m -> 0 < Zdigits2 m.
Proof.
  intros H. rewrite Zdigits2_log2 by exact H. pose proof (Z.log2_nonneg m). lia.
Qed.

Lemma shr_1_m mrs : 0 <= shr_m mrs -> shr_m (shr_1 mrs) = shr_m mrs / 2.
Proof.
  destruct mrs as [m r s]. simpl. intros H.
  destruct m as [|[p|p|]|p]; try lia; simpl shr_m.
  - reflexivity.
  - rewrite <- Z.div2_div. reflexivity.
  - rewrite <- Z.div2_div. reflexivity.
  - reflexivity.
Qed.

Lemma iter_shr_m p : forall mrs,
  0 <= shr_m mrs ->
  0 <= shr_m (SpecFloat.iter_pos shr_1 p mrs) /\
  shr_m (SpecFloat.iter_pos shr_1 p mrs) = shr_m mrs / 2 ^ Z.pos p.
Proof.
  assert (S1 : forall mrs, 0 <= shr_m mrs -> 0 <= shr_m (shr_1 mrs)).
  { intros mrs H. rewrite shr_1_m by exact H. apply Z.div_pos; lia. }
  induction p as [p IH|p IH|]; intros mrs H.
  - change (SpecFloat.iter_pos shr_1 p~1 mrs)
      with (SpecFloat.iter_pos shr_1 p (SpecFloat.iter_pos shr_1 p (shr_1 mrs))).
    destruct (IH (shr_1 mrs) (S1 _ H)) as [P1 E1].
    destruct (IH _ P1) as [P2 E2]. split; [exact P2|].
    rewrite E2, E1, shr_1_m by exact H.
    rewrite !Z.div_div by (try apply Z.pow_pos_nonneg; lia).
    f_equal. rewrite Pos2Z.inj_xI, <- Z.pow_add_r, <- Z.pow_succ_r by lia.
    f_equal. lia.
  - change (SpecFloat.iter_pos shr_1 p~0 mrs)
      with (SpecFloat.iter_pos shr_1 p (SpecFloat.iter_pos shr_1 p mrs)).
    destruct (IH mrs H) as [P1 E1].
    destruct (IH _ P1) as [P2 E2]. split; [exact P2|].
    rewrite E2, E1.
    rewrite !Z.div_div by (try apply Z.pow_pos_nonneg; lia).
    f_equal. rewrite Pos2Z.inj_xO, <- Z.pow_add_r by lia. f_equal. lia.
  - change (SpecFloat.iter_pos shr_1 1 mrs) with (shr_1 mrs).
    split; [now apply S1|]. now rewrite shr_1_m.
Qed.

Lemma shr_record_of_loc_m m l : shr_m (shr_record_of_loc m l) = m.
Proof. destruct l as [|[]]; reflexivity. Qed.

Lemma fexp_normal D : -1021 <= D -> fexp 53 1024 D = D - 53.
Proof. unfold fexp, emin. lia. Qed.

(** The right shift of [binary_round_aux] leaves at most 53 digits. *)
Lemma shr_fexp_spec m e l :
  0 < m -> -1021 <= Zdigits2 m + e ->
  exists mrs,
    shr_fexp 53 1024 m e l = (mrs, e + Z.max 0 (Zdigits2 m - 53)) /\
    shr_m mrs = m / 2 ^ Z.max 0 (Zdigits2 m - 53).
Proof.
  intros Hm HD. unfold shr_fexp. rewrite fexp_normal by exact HD.
  replace (Zdigits2 m + e - 53 - e) with (Zdigits2 m - 53) by lia.
  unfold shr. destruct (Zdigits2 m - 53) as [|p|p] eqn:K.
  - exists (shr_record_of_loc m l). rewrite shr_record_of_loc_m.
    change (Z.max 0 0) with 0. rewrite Z.add_0_r, Z.pow_0_r, Z.div_1_r. auto.
  - exists (SpecFloat.iter_pos shr_1 p (shr_record_of_loc m l)).
    replace (Z.max 0 (Z.pos p)) with (Z.pos p) by lia. split; [reflexivity|].
    destruct (iter_shr_m p (shr_record_of_loc m l)) as [_ E].
    { rewrite shr_record_of_loc_m. lia. }
    now rewrite E, shr_record_of_loc_m.
  - exists (shr_record_of_loc m l). rewrite shr_record_of_loc_m.
    replace (Z.max 0 (Z.neg p)) with 0 by lia.
    rewrite Z.add_0_r, Z.pow_0_r, Z.div_1_r. auto.
Qed.

Lemma div_pow2_bounds m d k :
  0 <= k < d -> 2 ^ (d - 1) <= m < 2 ^ d ->
  2 ^ (d - 1 - k) <= m / 2 ^ k < 2 ^ (d - k).
Proof.
  intros Hk [L U]. assert (0 < 2 ^ k) by (apply Z.pow_pos_nonneg; lia). split.
  - apply Z.div_le_lower_bound; [assumption|].
    rewrite <- Z.pow_add_r by lia. replace (k + (d - 1 - k)) with (d - 1) by lia.
    exact L.
  - apply Z.div_lt_upper_bound; [assumption|].
    rewrite <- Z.pow_add_r by lia. replace (k + (d - k)) with d by lia. exact U.
Qed.

Lemma round_nearest_even_bounds m l :
  m <= round_nearest_even m l <= m + 1.
Proof.
  unfold round_nearest_even. destruct l as [|[]]; try lia.
  destruct (Z.even m); lia.
Qed.

(** Rounding to nearest keeps the magnitude, up to one binade, and
    returns a mantissa of at most 53 digits. *)
Lemma round_aux_mag sx m e l :
  0 < m -> -1021 <= Zdigits2 m + e <= 900 ->
  exists m' e',
    binary_round_aux 53 1024 sx m e l = S754_finite sx m' e' /\
    Zdigits2 m + e <= Zdigits2 (Z.pos m') + e' <= Zdigits2 m + e + 1 /\
    Zdigits2 (Z.pos m') <= 53.
Proof.
  intros Hm HD. unfold binary_round_aux.
  destruct (shr_fexp_spec m e l Hm ltac:(lia)) as (mrs1 & E1 & M1).
  rewrite E1.
  pose proof (digits_bounds m Hm) as Bm. pose proof (digits_pos m Hm) as Pm.
  set (d := Zdigits2 m) in *. set (k1 := Z.max 0 (d - 53)) in *.
  set (d1 := d - k1).
  assert (B1 : 2 ^ (d1 - 1) <= shr_m mrs1 < 2 ^ d1).
  { rewrite M1. unfold d1. replace (d - k1 - 1) with (d - 1 - k1) by lia.
    apply div_pow2_bounds; lia. }
  assert (P1 : 0 < d1 <= 53) by lia.
  pose proof (round_nearest_even_bounds (shr_m mrs1) (loc_of_shr_record mrs1)) as R.
  set (m2 := round_nearest_even (shr_m mrs1) (loc_of_shr_record mrs1)) in *.
  assert (0 < 2 ^ (d1 - 1)) by (apply Z.pow_pos_nonneg; lia).
  assert (Hm2 : 0 < m2) by lia.
  destruct (Z_lt_le_dec m2 (2 ^ d1)) as [C|C].
  - (* no carry *)
    assert (D2 : Zdigits2 m2 = d1) by (apply digits_unique; lia).
    destruct (shr_fexp_spec m2 (e + k1) loc_Exact Hm2 ltac:(lia)) as (mrs2 & E2 & M2).
    rewrite E2, M2, D2. replace (Z.max 0 (d1 - 53)) with 0 by lia.
    rewrite Z.pow_0_r, Z.div_1_r, Z.add_0_r.
    destruct m2 as [|p2|p2]; try lia.
    exists p2, (e + k1).
    replace (e + k1 <=? 1024 - 53) with true by (symmetry; apply Z.leb_le; lia).
    split; [reflexivity|]. rewrite D2. lia.
  - (* carry: the rounded mantissa is a power of two *)
    assert (E : m2 = 2 ^ d1) by lia.
    assert (D2 : Zdigits2 m2 = d1 + 1).
    { apply digits_unique; [lia|]. replace (d1 + 1 - 1) with d1 by lia.
      rewrite E. split; [lia|]. apply Z.pow_lt_mono_r; lia. }
    destruct (shr_fexp_spec m2 (e + k1) loc_Exact Hm2 ltac:(lia)) as (mrs2 & E2 & M2).
    rewrite E2, M2, D2.
    set (k2 := Z.max 0 (d1 + 1 - 53)).
    assert (K2 : 0 <= k2 <= 1) by lia.
    assert (B3 : 2 ^ (d1 + 1 - 1 - k2) <= m2 / 2 ^ k2 < 2 ^ (d1 + 1 - k2)).
    { apply div_pow2_bounds; [lia|]. replace (d1 + 1 - 1) with d1 by lia.
      rewrite E. split; [lia|]. apply Z.pow_lt_mono_r; lia. }
    assert (0 < 2 ^ (d1 + 1 - 1 - k2)) by (apply Z.pow_pos_nonneg; lia).
    assert (D3 : Zdigits2 (m2 / 2 ^ k2) = d1 + 1 - k2).
    { apply digits_unique; [lia|].
      replace (d1 + 1 - k2 - 1) with (d1 + 1 - 1 - k2) by lia. exact B3. }
    destruct (m2 / 2 ^ k2) as [|p3|p3] eqn:M3; try lia.
    exists p3, (e + k1 + k2).
    replace (e + k1 + k2 <=? 1024 - 53) with true by (symmetry; apply Z.leb_le; lia).
    split; [reflexivity|]. rewrite D3. lia.
Qed.

Lemma iter_xO_digits d : forall m,
  digits2_pos (Pos.iter xO m d) = (digits2_pos m + d)%positive.
Proof.
  induction d as [|d IH] using Pos.peano_ind; intros m.
  - simpl. lia.
  - rewrite Pos.iter_succ. simpl. rewrite IH. lia.
Qed.

Lemma shl_align_mag mx ex ex' :
  Zdigits2 (Z.pos (fst (shl_align mx ex ex'))) + snd (shl_align mx ex ex')
  = Zdigits2 (Z.pos mx) + ex.
Proof.
  unfold shl_align. destruct (ex' - ex) as [|d|d] eqn:K; simpl; try reflexivity.
  rewrite iter_xO_digits. lia.
Qed.

(** The conversion of a non-zero integer below [2^64]. *)
Lemma of_Z_mag z :
  z <> 0 -> Z.abs z < 2 ^ 64 ->
  finite (F64.of_Z z) /\
  Zdigits2 z <= mag (F64.of_Z z) <= Zdigits2 z + 1.
Proof.
  intros NZ B. unfold F64.of_Z, binary_normalize, binary_round.
  assert (G : forall sx p, Z.pos p < 2 ^ 64 ->
            finite (let '(mz, ez) := shl_align p 0 (fexp F64.prec F64.emax (Z.pos (digits2_pos p) + 0))
                    in binary_round_aux F64.prec F64.emax sx (Z.pos mz) ez loc_Exact) /\
            Zdigits2 (Z.pos p)
            <= mag (let '(mz, ez) := shl_align p 0 (fexp F64.prec F64.emax (Z.pos (digits2_pos p) + 0))
                    in binary_round_aux F64.prec F64.emax sx (Z.pos mz) ez loc_Exact)
            <= Zdigits2 (Z.pos p) + 1).
  { intros sx p Hp.
    pose proof (shl_align_mag p 0 (fexp F64.prec F64.emax (Z.pos (digits2_pos p) + 0))) as A.
    destruct (shl_align p 0 _) as [mz ez]. simpl fst in A. simpl snd in A.
    pose proof (digits_pos (Z.pos p) ltac:(lia)).
    assert (Zdigits2 (Z.pos p) <= 64).
    { destruct (Z_le_gt_dec (Zdigits2 (Z.pos p)) 64); [assumption|].
      pose proof (digits_bounds (Z.pos p) ltac:(lia)) as [L _].
      assert (2 ^ 64 <= 2 ^ (Zdigits2 (Z.pos p) - 1)) by (apply Z.pow_le_mono_r; lia).
      lia. }
    assert (R1 : 0 < Z.pos mz) by lia.
    assert (R2 : -1021 <= Zdigits2 (Z.pos mz) + ez <= 900).
    { revert A H H0. generalize (Zdigits2 (Z.pos mz)) (Zdigits2 (Z.pos p)). lia. }
    destruct (round_aux_mag sx (Z.pos mz) ez loc_Exact R1 R2)
      as (m' & e' & E & M & F).
    unfold F64.prec, F64.emax. rewrite E. unfold finite, mag. lia. }
  destruct z as [|p|p]; [congruence| |].
  - apply G. exact B.
  - apply (G true p). exact B.
Qed.

Lemma of_Z_sign z :
  z <> 0 -> Z.abs z < 2 ^ 64 ->
  exists m e, F64.of_Z z = S754_finite (z <? 0) m e.
Proof.
  intros NZ B. pose proof (of_Z_mag z NZ B) as [F _].
  unfold F64.of_Z, binary_normalize, binary_round, binary_round_aux in *.
  destruct z as [|p|p]; [congruence| |].
  - destruct (shl_align _ _ _) as [mz ez]. destruct (shr_fexp _ _ _ _ _) as [a1 b1].
    destruct (shr_fexp _ _ _ _ _) as [a2 b2]. destruct (shr_m a2); try contradiction.
    destruct (_ <=? _); [eauto|contradiction].
  - destruct (shl_align _ _ _) as [mz ez]. destruct (shr_fexp _ _ _ _ _) as [a1 b1].
    destruct (shr_fexp _ _ _ _ _) as [a2 b2]. destruct (shr_m a2); try contradiction.
    destruct (_ <=? _); [eauto|contradiction].
Qed.

Lemma digits_le m k : 0 < m -> m < 2 ^ k -> Zdigits2 m <= k.
Proof.
  intros Hm H. rewrite Zdigits2_log2 by exact Hm.
  apply Z.log2_lt_pow2 in H; [lia|exact Hm].
Qed.

Lemma digits_ge m k : 0 < m -> 2 ^ (k - 1) <= m -> k <= Zdigits2 m.
Proof.
  intros Hm H. rewrite Zdigits2_log2 by exact Hm.
  apply Z.log2_le_pow2 in H; [lia|exact Hm].
Qed.

Lemma digits_mul_pow2 m s : 0 < m -> 0 <= s -> Zdigits2 (m * 2 ^ s) = Zdigits2 m + s.
Proof.
  intros Hm Hs. assert (0 < 2 ^ s) by (apply Z.pow_pos_nonneg; lia).
  rewrite !Zdigits2_log2 by nia. rewrite Z.log2_mul_pow2 by lia. lia.
Qed.

Lemma mul_mag x y :
  finite x -> finite y ->
  -400 <= mag x <= 400 -> -400 <= mag y <= 400 ->
  finite (F64.mul x y) /\
  mag x + mag y - 1 <= mag (F64.mul x y) <= mag x + mag y + 1.
Proof.
  destruct x as [| | |sx mx ex], y as [| | |sy my ey]; try contradiction.
  intros Fx Fy Bx By. cbn [finite mag] in *.
  unfold F64.mul, SFmul.
  assert (Dm : Zdigits2 (Z.pos mx) + Zdigits2 (Z.pos my) - 1
               <= Zdigits2 (Z.pos (mx * my))
               <= Zdigits2 (Z.pos mx) + Zdigits2 (Z.pos my)).
  { rewrite !Zdigits2_log2 by lia. rewrite Pos2Z.inj_mul.
    pose proof (Z.log2_mul_below (Z.pos mx) (Z.pos my) ltac:(lia) ltac:(lia)).
    pose proof (Z.log2_mul_above (Z.pos mx) (Z.pos my) ltac:(lia) ltac:(lia)).
    lia. }
  destruct (round_aux_mag (xorb sx sy) (Z.pos (mx * my)) (ex + ey) loc_Exact)
    as (m' & e' & E & M & F); [lia|lia|].
  unfold F64.prec, F64.emax. rewrite E. cbn [finite mag]. lia.
Qed.

Lemma div_mag x y :
  finite x -> finite y ->
  -400 <= mag x <= 400 -> -400 <= mag y <= 400 ->
  finite (F64.div x y) /\
  mag x - mag y <= mag (F64.div x y) <= mag x - mag y + 2.
Proof.
  destruct x as [| | |sx mx ex], y as [| | |sy my ey]; try contradiction.
  intros Fx Fy Bx By. cbn [finite mag] in *.
  unfold F64.div, SFdiv, SFdiv_core_binary, F64.prec, F64.emax.
  set (d1 := Zdigits2 (Z.pos mx)) in *. set (d2 := Zdigits2 (Z.pos my)) in *.
  rewrite fexp_normal by lia.
  set (e' := Z.min (d1 + ex - (d2 + ey) - 53) (ex - ey)).
  set (s := ex - ey - e').
  assert (Hs : 0 <= s /\ d2 - d1 + 53 <= s) by (unfold s, e'; lia).
  set (m' := match s with Z.pos _ => Z.shiftl (Z.pos mx) s | 0 => Z.pos mx | Z.neg _ => 0 end).
  assert (Em : m' = Z.pos mx * 2 ^ s).
  { unfold m'. destruct s as [|p|p] eqn:S; [lia| |lia].
    apply Z.shiftl_mul_pow2. lia. }
  pose proof (digits_pos (Z.pos mx) ltac:(lia)) as P1. fold d1 in P1.
  pose proof (digits_pos (Z.pos my) ltac:(lia)) as P2. fold d2 in P2.
  assert (0 < 2 ^ s) by (apply Z.pow_pos_nonneg; lia).
  assert (Hm' : 0 < m') by nia.
  assert (Dm' : Zdigits2 m' = d1 + s) by (rewrite Em; apply digits_mul_pow2; lia).
  pose proof (digits_bounds m' Hm') as Bm'. rewrite Dm' in Bm'.
  pose proof (digits_bounds (Z.pos my) ltac:(lia)) as Bmy. fold d2 in Bmy.
  set (k := d1 + s - d2) in *.
  assert (Q : 2 ^ (k - 1) <= m' / Z.pos my < 2 ^ (k + 1)).
  { assert (0 < 2 ^ (k - 1)) by (apply Z.pow_pos_nonneg; lia).
    assert (0 < 2 ^ (d2 - 1)) by (apply Z.pow_pos_nonneg; lia).
    split.
    - apply Z.div_le_lower_bound; [lia|].
      assert (2 ^ d2 * 2 ^ (k - 1) = 2 ^ (d1 + s - 1)).
      { rewrite <- Z.pow_add_r by lia. f_equal. lia. }
      nia.
    - apply Z.div_lt_upper_bound; [lia|].
      assert (2 ^ (d2 - 1) * 2 ^ (k + 1) = 2 ^ (d1 + s)).
      { rewrite <- Z.pow_add_r by lia. f_equal. lia. }
      assert (0 < 2 ^ (k + 1)) by (apply Z.pow_pos_nonneg; lia).
      nia. }
  unfold Z.div in Q. destruct (Z.div_eucl m' (Z.pos my)) as [q r].
  simpl fst in Q.
  assert (0 < 2 ^ (k - 1)) by (apply Z.pow_pos_nonneg; lia).
  assert (Hq : 0 < q) by lia.
  assert (Dq : k <= Zdigits2 q <= k + 1).
  { split; [apply digits_ge; lia|apply digits_le; lia]. }
  destruct (round_aux_mag (xorb sx sy) q e' (new_location (Z.pos my) r))
    as (m'' & e'' & E & M & F); [lia|unfold k, s in *; lia|].
  rewrite E. cbn [finite mag]. unfold k, s in *. lia.
Qed.

Lemma to_int_finite_bound s m e k :
  0 <= k <= 63 -> Zdigits2 (Z.pos m) + e <= k ->
  Z.abs (F64.to_int (S754_finite s m e)) < 2 ^ k.
Proof.
  intros Hk D. unfold F64.to_int.
  set (u := if 0 <=? e then Z.shiftl (Z.pos m) e else Z.shiftr (Z.pos m) (- e)).
  pose proof (digits_bounds (Z.pos m) ltac:(lia)) as [_ U].
  pose proof (digits_pos (Z.pos m) ltac:(lia)) as P.
  assert (Bu : 0 <= u < 2 ^ k).
  { unfold u. destruct (Z.leb_spec 0 e) as [L|L].
    - rewrite Z.shiftl_mul_pow2 by lia.
      assert (0 < 2 ^ e) by (apply Z.pow_pos_nonneg; lia).
      assert (2 ^ Zdigits2 (Z.pos m) * 2 ^ e <= 2 ^ k).
      { rewrite <- Z.pow_add_r by lia. apply Z.pow_le_mono_r; lia. }
      nia.
    - rewrite Z.shiftr_div_pow2 by lia.
      assert (0 < 2 ^ (- e)) by (apply Z.pow_pos_nonneg; lia).
      split; [apply Z.div_pos; lia|].
      apply Z.div_lt_upper_bound; [lia|].
      rewrite <- Z.pow_add_r by lia.
      assert (2 ^ Zdigits2 (Z.pos m) <= 2 ^ (- e + k)) by (apply Z.pow_le_mono_r; lia).
      lia. }
  assert (2 ^ k <= 2 ^ 63) by (apply Z.pow_le_mono_r; lia).
  assert (I : is_intb (cond_Zopp s u) = true).
  { apply is_intb_spec. unfold is_int, cond_Zopp. destruct s; lia. }
  rewrite I. unfold cond_Zopp. destruct s; lia.
Qed.

Lemma binary_normalize_nonzero z s :
  z <> 0 -> binary_normalize F64.prec F64.emax z 0 s = F64.of_Z z.
Proof. destruct z; [congruence|reflexivity|reflexivity]. Qed.

(** [int(math.Trunc(p))] stays within one binade of [p]. *)
Lemma Trunc_to_int_bound p k :
  finite p -> 0 <= k <= 62 -> mag p <= k ->
  Z.abs (F64.to_int (F64.Trunc p)) < 2 ^ (k + 1).
Proof.
  destruct p as [| | |s m e]; try contradiction. intros _ Hk D. cbn [mag] in D.
  assert (2 ^ k < 2 ^ (k + 1)) by (apply Z.pow_lt_mono_r; lia).
  unfold F64.Trunc. destruct (Z.leb_spec 0 e) as [L|L].
  - pose proof (to_int_finite_bound s m e k ltac:(lia) D). lia.
  - rewrite Z.shiftr_div_pow2 by lia.
    pose proof (digits_bounds (Z.pos m) ltac:(lia)) as [_ U].
    assert (0 < 2 ^ (- e)) by (apply Z.pow_pos_nonneg; lia).
    assert (Q : 0 <= Z.pos m / 2 ^ (- e) < 2 ^ k).
    { split; [apply Z.div_pos; lia|].
      apply Z.div_lt_upper_bound; [lia|].
      rewrite <- Z.pow_add_r by lia.
      assert (2 ^ Zdigits2 (Z.pos m) <= 2 ^ (- e + k)) by (apply Z.pow_le_mono_r; lia).
      lia. }
    set (q := Z.pos m / 2 ^ (- e)) in *.
    destruct (Z.eq_dec q 0) as [->|NZ].
    + destruct s; simpl; lia.
    + assert (NZ' : cond_Zopp s q <> 0) by (unfold cond_Zopp; destruct s; lia).
      rewrite (binary_normalize_nonzero _ s NZ').
      assert (2 ^ k <= 2 ^ 64) by (apply Z.pow_le_mono_r; lia).
      assert (A : Z.abs (cond_Zopp s q) = q) by (unfold cond_Zopp; destruct s; lia).
      destruct (of_Z_mag (cond_Zopp s q) NZ' ltac:(lia)) as [F M].
      assert (Dq : Zdigits2 (cond_Zopp s q) <= k).
      { replace (Zdigits2 (cond_Zopp s q)) with (Zdigits2 q).
        - apply digits_le; lia.
        - unfold cond_Zopp. destruct s, q; reflexivity. }
      destruct (F64.of_Z (cond_Zopp s q)) as [| | |s' m' e']; try contradiction.
      cbn [mag] in M. apply to_int_finite_bound; lia.
Qed.

Lemma div_zero_l y s : finite y -> F64.div (S754_zero s) y = S754_zero (xorb s match y with S754_finite sy _ _ => sy | _ => false end).
Proof. destruct y; try contradiction. reflexivity. Qed.

(** The truncated share of one party. *)
Lemma truncated_share_bound w s A :
  0 <= w <= s -> 0 < s < 2 ^ 64 -> Z.abs A < 2 ^ 56 ->
  Z.abs (F64.to_int (F64.Trunc
           (F64.mul (F64.div (F64.of_Z w) (F64.of_Z s)) (F64.of_Z A))))
  <= 128 * Z.abs A.
Proof.
  intros Hw Hs HA.
  destruct (of_Z_mag s ltac:(lia) ltac:(lia)) as [Fs Ms].
  destruct (Z.eq_dec A 0) as [->|NA].
  { change (F64.of_Z 0) with (S754_zero false).
    destruct (F64.div (F64.of_Z w) (F64.of_Z s)) as [| | |sr mr er] eqn:R.
    - simpl. lia.
    - exfalso. destruct (Z.eq_dec w 0) as [->|NW].
      + destruct (F64.of_Z s); try contradiction. discriminate.
      + destruct (of_Z_mag w NW ltac:(lia)) as [Fw Mw].
        pose proof (digits_pos s ltac:(lia)). pose proof (digits_le s 64 ltac:(lia) ltac:(lia)).
        pose proof (digits_pos w ltac:(lia)). pose proof (digits_le w 64 ltac:(lia) ltac:(lia)).
        destruct (div_mag _ _ Fw Fs ltac:(lia) ltac:(lia)) as [Fr _].
        rewrite R in Fr. contradiction.
    - exfalso. destruct (Z.eq_dec w 0) as [->|NW].
      + destruct (F64.of_Z s); try contradiction. discriminate.
      + destruct (of_Z_mag w NW ltac:(lia)) as [Fw Mw].
        pose proof (digits_pos s ltac:(lia)). pose proof (digits_le s 64 ltac:(lia) ltac:(lia)).
        pose proof (digits_pos w ltac:(lia)). pose proof (digits_le w 64 ltac:(lia) ltac:(lia)).
        destruct (div_mag _ _ Fw Fs ltac:(lia) ltac:(lia)) as [Fr _].
        rewrite R in Fr. contradiction.
    - simpl. lia. }
  assert (HA64 : Z.abs A < 2 ^ 64) by lia.
  destruct (of_Z_mag A NA HA64) as [FA MA].
  destruct (Z.eq_dec w 0) as [->|NW].
  { change (F64.of_Z 0) with (S754_zero false).
    destruct (F64.of_Z s) as [| | |ss ms es]; try contradiction.
    destruct (F64.of_Z A) as [| | |sa ma ea]; try contradiction.
    simpl. lia. }
  destruct (of_Z_mag w NW ltac:(lia)) as [Fw Mw].
  pose proof (digits_pos s ltac:(lia)) as Ps.
  pose proof (digits_le s 64 ltac:(lia) ltac:(lia)) as Ls.
  pose proof (digits_pos w ltac:(lia)) as Pw.
  assert (Lws : Zdigits2 w <= Zdigits2 s).
  { rewrite !Zdigits2_log2 by lia. pose proof (Z.log2_le_mono w s ltac:(lia)). lia. }
  assert (PA : 0 < Zdigits2 A /\ Zdigits2 A <= 56 /\ 2 ^ (Zdigits2 A - 1) <= Z.abs A).
  { replace (Zdigits2 A) with (Zdigits2 (Z.abs A)) by (destruct A; reflexivity).
    pose proof (digits_pos (Z.abs A) ltac:(lia)).
    pose proof (digits_le (Z.abs A) 56 ltac:(lia) HA).
    pose proof (digits_bounds (Z.abs A) ltac:(lia)). lia. }
  destruct PA as (PA & LA & BA).
  destruct (div_mag _ _ Fw Fs ltac:(lia) ltac:(lia)) as [Fr Mr].
  destruct (mul_mag _ _ Fr FA ltac:(lia) ltac:(lia)) as [Fp Mp].
  pose proof (Trunc_to_int_bound _ (Zdigits2 A + 5) Fp ltac:(lia) ltac:(lia)) as T.
  replace (Zdigits2 A + 5 + 1) with (7 + (Zdigits2 A - 1)) in T by lia.
  rewrite Z.pow_add_r in T by lia. change (2 ^ 7) with 128 in T. lia.
Qed.

End Magnitude.

(** *** Allocation of bounded amounts *)

Lemma Zsum_entry_le ws : Forall is_uint ws -> Forall (fun w => 0 <= w <= Zsum ws) ws.
Proof.
  induction 1 as [|w ws Hw U IH]; constructor.
  - pose proof (Zsum_nonneg ws U). unfold Zsum, is_uint in *. simpl. lia.
  - eapply Forall_impl; [exact IH|]. intros v Hv. unfold Zsum, is_uint in *. simpl. lia.
Qed.

(** After the fallback every weight lies between zero and [sum]. *)
Lemma fallback_weights ws :
  ws <> [] -> Forall is_uint ws -> Zsum ws < 2 ^ 64 ->
  Z.of_nat (length ws) < 2 ^ 64 ->
  0 < snd (fallback ws) < 2 ^ 64 /\
  Forall (fun w => 0 <= w <= snd (fallback ws)) (fst (fallback ws)).
Proof.
  intros NE U B L. unfold fallback.
  pose proof (Zsum_nonneg ws U) as P.
  assert (S : uint_sum ws = Zsum ws).
  { rewrite uint_sum_Zsum. apply wrap_uint_small. unfold is_uint. lia. }
  destruct (Z.eqb_spec (uint_sum ws) 0) as [E|E]; simpl.
  - rewrite wrap_uint_small by (unfold is_uint; lia).
    assert (0 < Z.of_nat (length ws)) by (destruct ws; [congruence|simpl; lia]).
    split; [lia|]. apply Forall_forall. intros w Hw.
    apply elem_of_replicate in Hw as [-> _]. lia.
  - rewrite S in *. split; [lia|]. now apply Zsum_entry_le.
Qed.

Lemma initial_allocations_bound x ws :
  bounded_input x ws ->
  Forall (fun v => Z.abs v <= 128 * Z.abs (a x)) (initial_allocations x ws).
Proof.
  intros (NE & U & B & H).
  assert (N1 : 0 < Z.of_nat (length ws)) by (destruct ws; [congruence|simpl; lia]).
  assert (HA : Z.abs (a x) < 2 ^ 56) by nia.
  assert (L : Z.of_nat (length ws) < 2 ^ 64) by nia.
  destruct (fallback_weights ws NE U B L) as [Hs Hw].
  unfold initial_allocations, truncated, ratios_of. rewrite List.map_map.
  apply Forall_map. eapply Forall_impl; [exact Hw|].
  intros w Hw'. simpl. now apply truncated_share_bound.
Qed.

Lemma Zsum_abs_bound l C :
  Forall (fun v => Z.abs v <= C) l -> Z.abs (Zsum l) <= Z.of_nat (length l) * C.
Proof.
  unfold Zsum. induction 1 as [|v l Hv H IH]; simpl foldr; simpl length; [simpl; lia|].
  rewrite Nat2Z.inj_succ. lia.
Qed.

(** On bounded inputs the remainder is the exact difference, and small. *)
Lemma remainder_bound x ws :
  bounded_input x ws -> is_int (a x) ->
  initial_remainder x ws = a x - Zsum (initial_allocations x ws) /\
  Z.abs (initial_remainder x ws)
  <= (128 * Z.of_nat (length ws) + 1) * Z.abs (a x) /\
  Z.abs (initial_remainder x ws) * Z.of_nat (length ws) < 2 ^ 63.
Proof.
  intros BI Hx. pose proof (initial_allocations_bound x ws BI) as A.
  apply Zsum_abs_bound in A. rewrite initial_allocations_length in A.
  destruct BI as (NE & U & B & H).
  assert (N1 : 0 < Z.of_nat (length ws)) by (destruct ws; [congruence|simpl; lia]).
  unfold initial_remainder. rewrite remainder_Zsum by exact Hx.
  set (S := Zsum (initial_allocations x ws)) in *.
  set (n := Z.of_nat (length ws)) in *.
  assert (D : Z.abs (a x - S) <= (128 * n + 1) * Z.abs (a x)) by lia.
  assert (D' : (128 * n + 1) * Z.abs (a x) * n < 2 ^ 63) by nia.
  rewrite wrap_int_small by (unfold is_int; nia).
  split; [reflexivity|]. split; [exact D|]. nia.
Qed.

Lemma units_for_le ws units j : (units_for ws units j <= units)%nat.
Proof.
  unfold units_for. destruct (_ && _); [|lia].
  set (m := length (eligible ws)).
  destruct (Nat.ltb_spec (rank ws j) (units mod m)) as [L|L].
  - destruct m as [|[|m]].
    + simpl in *. lia.
    + rewrite Nat.mod_1_r in L. lia.
    + pose proof (Nat.div_mod_eq units (S (S m))). nia.
  - destruct m as [|m]; [simpl; lia|].
    pose proof (Nat.div_mod_eq units (S m)). nia.
Qed.

(** On bounded inputs [Share] returns, and what it returns adds up, over
    the integers, to the atoms of [x]. *)
Lemma Share_exact x ws :
  bounded_input x ws -> is_int (a x) ->
  exists fuel res,
    (forall fuel', (fuel <= fuel')%nat -> fst (Share fuel' x ws) = Returned res) /\
    length res = length ws /\
    Forall (fun y => c y = c x) res /\
    Zsum (map a res) = a x.
Proof.
  intros BI Hx. destruct (remainder_bound x ws BI Hx) as (R0 & R1 & R2).
  pose proof (initial_allocations_bound x ws BI) as A.
  destruct BI as (NE & U & B & H).
  assert (N1 : 0 < Z.of_nat (length ws)) by (destruct ws; [congruence|simpl; lia]).
  exists (Z.abs_nat (initial_remainder x ws) * length ws)%nat. eexists.
  split; [intros fuel' L; now apply Share_completes|].
  pose proof (Share_completes x ws _ NE Hx R2 (le_n _)) as [_ S].
  destruct (Share_returned _ x ws _ Hx S) as (L & C & W).
  split; [exact L|]. split; [exact C|].
  rewrite <- W. symmetry. apply wrap_int_small.
  rewrite map_map in *. simpl in *. rewrite map_id in *.
  set (n := Z.of_nat (length ws)) in *.
  assert (F : Forall (fun v => Z.abs v <= (128 * n + 129) * Z.abs (a x))
                (spec_distribute (fst (fallback ws)) (initial_allocations x ws)
                   (initial_remainder x ws))).
  { apply Forall_lookup. intros j r Hr.
    rewrite spec_distribute_lookup in Hr;
      [|now apply fallback_eligible|apply initial_allocations_ints].
    destruct (initial_allocations x ws !! j) as [v|] eqn:V; [|discriminate].
    injection Hr as <-.
    rewrite Forall_lookup in A. specialize (A j v V). simpl in A.
    pose proof (units_for_le (fst (fallback ws)) (Z.abs_nat (initial_remainder x ws)) j) as Uj.
    apply Nat2Z.inj_le in Uj. rewrite Zabs2Nat.id_abs in Uj.
    set (u := Z.of_nat (units_for _ _ j)) in *.
    assert (Z.abs (v + (if initial_remainder x ws <? 0 then -1 else 1) * u)
            <= (128 * n + 129) * Z.abs (a x)).
    { destruct (initial_remainder x ws <? 0); lia. }
    rewrite wrap_int_small; [assumption|]. unfold is_int. nia. }
  apply Zsum_abs_bound in F.
  rewrite length_map in L. rewrite L in F. fold n in F.
  unfold is_int. nia.
Qed.

(** *** What the loop returns, whenever it returns *)

Section WalkReturned.

Variable ws : list Z.
Variable d : Z.
Hypothesis N_pos : (0 < length ws)%nat.

(** With two or more weights the loop cannot go on from the counter
    [-2^63 + 1]: the index is negative. *)
Lemma distribute_stuck fuel rem allocs res :
  (2 <= length ws)%nat ->
  Z.rem (- 2 ^ 63) (Z.of_nat (length ws)) = 0 ->
  distribute fuel ws (Z.of_nat (length ws)) d (- 2 ^ 63 + 1) rem allocs = Returned res ->
  rem = 0 /\ res = allocs.
Proof.
  intros N2 R0 H. destruct (Z.eq_dec rem 0) as [->|NZ].
  - rewrite distribute_zero in H. now injection H as <-.
  - exfalso. destruct fuel as [|fuel].
    + simpl in H. rewrite (proj2 (Z.eqb_neq rem 0) NZ) in H. discriminate.
    + rewrite distribute_S, (proj2 (Z.eqb_neq rem 0) NZ) in H.
      destruct (Z.eqb_spec (Z.of_nat (length ws)) 0); [lia|].
      set (nn := Z.of_nat (length ws)) in *.
      assert (Hn : 0 < nn) by lia. assert (Hi : - 2 ^ 63 + 1 <= 0) by lia.
      assert (R : Z.rem (- 2 ^ 63 + 1) nn < 0).
      { pose proof (Z.rem_bound_pos_neg (- 2 ^ 63 + 1) nn Hn Hi) as B.
        destruct (Z.eq_dec (Z.rem (- 2 ^ 63 + 1) nn) 0) as [Q|Q]; [|lia].
        pose proof (Z.quot_rem' (- 2 ^ 63) nn) as E1.
        pose proof (Z.quot_rem' (- 2 ^ 63 + 1) nn) as E2.
        rewrite R0 in E1. rewrite Q in E2.
        assert (K : nn * ((- 2 ^ 63 + 1) ÷ nn - (- 2 ^ 63) ÷ nn) = 1) by lia.
        assert (2 <= nn) by lia.
        destruct (Z_le_gt_dec ((- 2 ^ 63 + 1) ÷ nn - (- 2 ^ 63) ÷ nn) 0); nia. }
      rewrite (proj2 (Z.ltb_lt _ _) R) in H. discriminate.
Qed.

(** The index the body computes at step [t], when it is not negative. *)
Lemma index_at_step t :
  (length ws = 1%nat \/ Z.of_nat t <= 2 ^ 63) ->
  0 <= Z.rem (wrap_int (Z.of_nat t)) (Z.of_nat (length ws)) ->
  Z.to_nat (Z.rem (wrap_int (Z.of_nat t)) (Z.of_nat (length ws)))
  = (t mod length ws)%nat.
Proof.
  intros C P. destruct (Nat.eq_dec (length ws) 1%nat) as [E|E].
  - rewrite E. rewrite Z.rem_1_r, Nat.mod_1_r. reflexivity.
  - destruct C as [C|C]; [contradiction|].
    destruct (Z.eq_dec (Z.of_nat t) (2 ^ 63)) as [T|T].
    + rewrite T in *. change (wrap_int (2 ^ 63)) with (- 2 ^ 63) in *.
      pose proof (Z.rem_bound_pos_neg (- 2 ^ 63) (Z.of_nat (length ws))
                    ltac:(lia) ltac:(lia)) as B.
      assert (R0 : Z.rem (- 2 ^ 63) (Z.of_nat (length ws)) = 0) by lia.
      rewrite R0. simpl. symmetry. apply Nat2Z.inj.
      rewrite Nat2Z.inj_mod, T. simpl Z.of_nat.
      pose proof (Z.rem_opp_l' (2 ^ 63) (Z.of_nat (length ws))) as O.
      change (- 2 ^ 63) with (- (2 ^ 63)) in R0. rewrite O in R0.
      rewrite <- Z.rem_mod_nonneg by lia. lia.
    + rewrite wrap_int_small by (unfold is_int; lia).
      rewrite Z.rem_mod_nonneg by lia.
      now rewrite <- Nat2Z.inj_mod, Nat2Z.id.
Qed.

Lemma distribute_walk_returned fuel : forall t rem allocs len res,
  length allocs = length ws ->
  is_int rem -> (0 < rem -> d = 1) -> (rem < 0 -> d = -1) ->
  (length ws = 1%nat \/ Z.of_nat t <= 2 ^ 63) ->
  (Z.abs_nat rem <= length (visited ws t len))%nat ->
  distribute fuel ws (Z.of_nat (length ws)) d (wrap_int (Z.of_nat t)) rem allocs
    = Returned res ->
  res = fold_left (give d) (take (Z.abs_nat rem) (visited ws t len)) allocs.
Proof.
  induction fuel as [|fuel IH]; intros t rem allocs len res LA IR Dp Dn C Bv H.
  - simpl in H. destruct (Z.eqb_spec rem 0) as [->|]; [|discriminate].
    now injection H as <-.
  - destruct (Z.eq_dec rem 0) as [->|NZ].
    { rewrite distribute_zero in H. now injection H as <-. }
    rewrite distribute_S, (proj2 (Z.eqb_neq rem 0) NZ) in H.
    destruct (Z.eqb_spec (Z.of_nat (length ws)) 0); [lia|].
    destruct (Z.ltb_spec (Z.rem (wrap_int (Z.of_nat t)) (Z.of_nat (length ws))) 0)
      as [L|L]; [discriminate|].
    rewrite (index_at_step t C L) in H.
    pose proof (Nat.mod_upper_bound t (length ws) ltac:(lia)) as Hj.
    destruct (lookup_lt_is_Some_2 ws (t mod length ws)%nat Hj) as [w Hw].
    destruct (lookup_lt_is_Some_2 allocs (t mod length ws)%nat ltac:(lia)) as [al Hal].
    rewrite Hw in H.
    rewrite wrap_int_add_l in H.
    replace (Z.of_nat t + 1) with (Z.of_nat (S t)) in H by lia.
    destruct len as [|len]; [simpl in Bv; lia|].
    rewrite visited_cons in Bv |- *.
    assert (E : eligibleb ws (t mod length ws) = negb (w =? 0)).
    { unfold eligibleb. f_equal. f_equal.
      apply nth_lookup_Some with (d := 0) in Hw. exact Hw. }
    rewrite E in Bv |- *.
    destruct (rem_step d rem IR NZ Dp Dn) as (Wr & Ar & Dp' & Dn').
    (* the next counter: either still in range, or the loop is stuck *)
    assert (Next : forall rem' allocs' len',
      length allocs' = length ws -> is_int rem' ->
      (0 < rem' -> d = 1) -> (rem' < 0 -> d = -1) ->
      (Z.abs_nat rem' <= length (visited ws (S t) len'))%nat ->
      distribute fuel ws (Z.of_nat (length ws)) d (wrap_int (Z.of_nat (S t))) rem' allocs'
        = Returned res ->
      res = fold_left (give d) (take (Z.abs_nat rem') (visited ws (S t) len')) allocs').
    { intros rem' allocs' len' LA' IR' Dp2 Dn2 Bv' H'.
      destruct (Nat.eq_dec (length ws) 1%nat) as [E1|E1].
      - apply IH; auto.
      - destruct C as [C|C]; [contradiction|].
        destruct (Z.eq_dec (Z.of_nat t) (2 ^ 63)) as [T|T].
        + replace (wrap_int (Z.of_nat (S t))) with (- 2 ^ 63 + 1) in H'.
          2:{ rewrite Nat2Z.inj_succ, T. reflexivity. }
          apply distribute_stuck in H' as [-> ->].
          * reflexivity.
          * lia.
          * rewrite T in L. change (wrap_int (2 ^ 63)) with (- 2 ^ 63) in L.
            pose proof (Z.rem_bound_pos_neg (- 2 ^ 63) (Z.of_nat (length ws))
                          ltac:(lia) ltac:(lia)). lia.
        + apply IH; auto. right. lia. }
    destruct (Z.eqb_spec w 0) as [W0|NW]; cbn [negb] in *.
    + now apply Next.
    + rewrite Hal, Wr in H.
      destruct (Z.abs_nat rem) as [|r] eqn:AR; [lia|].
      simpl in Bv. simpl take. simpl fold_left.
      unfold give at 2. rewrite Hal.
      rewrite <- (Nat.pred_succ r), <- Ar.
      apply Next; auto.
      * now rewrite length_insert.
      * rewrite <- Wr. apply wrap_int_range.
      * rewrite Ar. simpl. lia.
Qed.

End WalkReturned.

(** What [Share] returns is what the walk leaves. *)
Lemma Share_returned_walk fuel x ws res :
  ws <> [] -> is_int (a x) ->
  fst (Share fuel x ws) = Returned res ->
  res = map (mkMoney (c x))
          (spec_distribute (fst (fallback ws)) (initial_allocations x ws)
             (initial_remainder x ws)).
Proof.
  intros NE Hx. rewrite Share_unfold.
  destruct (final_allocations fuel x ws) as [al|p|] eqn:D; simpl; try discriminate.
  destruct (negb _); simpl; [discriminate|]. intros [= <-]. f_equal.
  unfold final_allocations in D. unfold spec_distribute.
  destruct (sign_unit (initial_remainder x ws)) as [Dp Dn].
  destruct (fallback_nonzero ws NE) as (j & w & Hj & Hw).
  pose proof (fallback_length ws) as FL.
  assert (P : (0 < length (fst (fallback ws)))%nat).
  { apply lookup_lt_Some in Hj. lia. }
  rewrite <- FL in D.
  apply (distribute_walk_returned (fst (fallback ws)) _ P fuel 0%nat
           (initial_remainder x ws) (initial_allocations x ws)); auto.
  - rewrite initial_allocations_length. now symmetry.
  - now apply initial_remainder_int.
  - right. simpl. lia.
  - now apply (visited_enough _ P j w).
Qed.

(** ** The claims on the allocator *)

(** C6: the conservation check of [Share] never fails.  Whatever the
    amount and the weightings, and however long the second loop runs,
    the total the check computes from the final allocations equals the
    atoms of [x], so the [panic] of [Share] is never reached. *)
Theorem conservation_check_never_fails (fuel : nat) (x : Money) (ws : list Z) :
  is_int (a x) ->
  (forall al, final_allocations fuel x ws = Returned al -> int_sum al = a x) /\
  fst (Share fuel x ws) <> Panicked BadAllocation.
Proof.
  intros Hx.
  split; [intros al; now apply final_allocations_sum|].
  rewrite Share_unfold.
  destruct (final_allocations fuel x ws) as [al|p|] eqn:D; simpl.
  - rewrite (final_allocations_sum fuel x ws al Hx D), Z.eqb_refl. simpl. discriminate.
  - intros [= ->]. now apply distribute_no_bad_allocation in D.
  - discriminate.
Qed.

Lemma conservation_check_never_fails_witness :
  (forall al, final_allocations 2 (mkMoney "GBP" 105) [3; 7] = Returned al ->
              int_sum al = 105) /\
  fst (Share 2 (mkMoney "GBP" 105) [3; 7]) <> Panicked BadAllocation.
Proof.
  apply (conservation_check_never_fails 2 (mkMoney "GBP" 105) [3; 7]).
  unfold is_int. simpl. lia.
Defined.



(** C5: the remainder left by the truncated allocation is handed out one
    unit at a time, [d = +1] for a positive and [-1] for a negative
    remainder, along the walk over the indices [0, 1, 2, ...] modulo
    [N], zero weights skipped, until nothing is left.  Whenever [Share]
    returns, it returns the allocations [spec_distribute] describes, so
    that of [R] units every index of non-zero weight has received
    [R / m] ([m] the number of such indices) and the first [R mod m] of
    them one more.  It does return when the walk takes fewer than
    [2^63] steps, the range of the loop counter, as on every bounded
    input.  In particular 1.05 by [3, 7] gives 0.32 and 0.73, and 0.05
    by [1, 1] gives 0.03 and 0.02. *)
Theorem Share_distributes_remainder :
  (forall (x : Money) (ws : list Z) (fuel : nat) (res : list Money),
     ws <> [] -> is_int (a x) ->
     fst (Share fuel x ws) = Returned res ->
     res = map (mkMoney (c x))
             (spec_distribute (fst (fallback ws))
                (initial_allocations x ws) (initial_remainder x ws)) /\
     (forall j v,
        initial_allocations x ws !! j = Some v ->
        res !! j
        = Some (mkMoney (c x)
                  (wrap_int
                     (v + (if initial_remainder x ws <? 0 then -1 else 1)
                          * Z.of_nat (units_for (fst (fallback ws))
                                        (Z.abs_nat (initial_remainder x ws)) j)))))) /\
  (forall (x : Money) (ws : list Z),
     ws <> [] -> is_int (a x) ->
     Z.abs (initial_remainder x ws) * Z.of_nat (length ws) < 2 ^ 63 ->
     exists fuel res, forall fuel', (fuel <= fuel')%nat ->
       fst (Share fuel' x ws) = Returned res) /\
  (forall (x : Money) (ws : list Z),
     bounded_input x ws -> is_int (a x) ->
     Z.abs (initial_remainder x ws) * Z.of_nat (length ws) < 2 ^ 63) /\
  (forall fuel, (1 <= fuel)%nat ->
     share_amounts fuel "GBP" "1.05" [3; 7] = Some ["0.32"; "0.73"]%string) /\
  (forall fuel, (1 <= fuel)%nat ->
     share_amounts fuel "GBP" "0.05" [1; 1] = Some ["0.03"; "0.02"]%string).
Proof.
  split; [|split; [|split; [|split]]].
  - intros x ws fuel res NE Hx R.
    apply Share_returned_walk in R; [|assumption|assumption]. subst res.
    split; [reflexivity|].
    intros j v Hv. rewrite list_lookup_fmap, spec_distribute_lookup.
    + now rewrite Hv.
    + now apply fallback_eligible.
    + apply initial_allocations_ints.
  - intros x ws NE Hx B.
    exists (Z.abs_nat (initial_remainder x ws) * length ws)%nat. eexists.
    intros fuel' L. now apply Share_completes.
  - intros x ws BI Hx. now apply remainder_bound.
  - intros [|[|fuel]] L; [lia|reflexivity|reflexivity].
  - intros [|[|fuel]] L; [lia|reflexivity|reflexivity].
Qed.

Lemma Share_distributes_remainder_witness :
  exists fuel res, forall fuel', (fuel <= fuel')%nat ->
    fst (Share fuel' (mkMoney "GBP" 105) [3; 7]) = Returned res /\
    res = [mkMoney "GBP" 32; mkMoney "GBP" 73].
Proof.
  destruct Share_distributes_remainder as (P & H & B & _).
  assert (Hx : is_int (a (mkMoney "GBP" 105))) by (unfold is_int; simpl; lia).
  assert (NE : [3; 7] <> @nil Z) by discriminate.
  destruct (H (mkMoney "GBP" 105) [3; 7] NE Hx) as (fuel & res & R).
  - apply B; [|exact Hx].
    unfold bounded_input. split; [discriminate|].
    split; [repeat apply List.Forall_cons; try apply List.Forall_nil; unfold is_uint; lia|].
    split; reflexivity.
  - exists fuel, res. intros fuel' L. split; [now apply R|].
    apply (P (mkMoney "GBP" 105) [3; 7] fuel res NE Hx). now apply R.
Defined.

Lemma Share_weightings fuel x ws : snd (Share fuel x ws) = fst (fallback ws).
Proof.
  rewrite Share_unfold. destruct (final_allocations fuel x ws) as [al|p|];
    [destruct (negb _)| |]; reflexivity.
Qed.

(** The fallback on weightings whose sum does not overflow: taken exactly
    when every weight is zero. *)
Lemma fallback_without_overflow ws :
  Forall is_uint ws -> Zsum ws < 2 ^ 64 ->
  (Forall (fun w => w = 0) ws /\ fst (fallback ws) = replicate (length ws) 1) \/
  (Exists (fun w => w <> 0) ws /\ fst (fallback ws) = ws).
Proof.
  intros U B. pose proof (uint_sum_zero_iff ws U B) as Z0. unfold fallback.
  destruct (Z.eqb_spec (uint_sum ws) 0) as [E|E]; simpl.
  - left. split; [now apply Z0|reflexivity].
  - right. split; [|reflexivity].
    apply not_Forall_Exists; [intros w; apply _|]. intros A. now apply E, Z0.
Qed.

(** C8, as the code has it: [Share] writes to the caller's weightings
    exactly in the fallback.  When the 64-bit sum of the weights is zero,
    as it is when every weight is zero, each entry of the caller's
    sequence is overwritten with 1 and stays so after the call; when the
    sum is not zero, as it is when some weight is not zero and the sum
    does not overflow, the sequence holds after the call the values it
    held before. *)
Theorem Share_weightings_after (fuel : nat) (x : Money) (ws : list Z) :
  (uint_sum ws = 0 -> snd (Share fuel x ws) = replicate (length ws) 1) /\
  (uint_sum ws <> 0 -> snd (Share fuel x ws) = ws) /\
  (Forall (fun w => w = 0) ws -> snd (Share fuel x ws) = replicate (length ws) 1) /\
  (Forall is_uint ws -> Zsum ws < 2 ^ 64 -> Exists (fun w => w <> 0) ws ->
   snd (Share fuel x ws) = ws).
Proof.
  rewrite Share_weightings. unfold fallback.
  destruct (Z.eqb_spec (uint_sum ws) 0) as [E|E]; simpl; repeat split; try tauto.
  - intros U B X.
    destruct (fallback_without_overflow ws U B) as [[A _]|[_ F]].
    + apply Exists_exists in X as (w & Hin & Hw).
      rewrite Forall_forall in A. now destruct (Hw (A w Hin)).
    + unfold fallback in F. now rewrite (proj2 (Z.eqb_eq _ _) E) in F.
  - intros A. rewrite uint_sum_Zsum, (Zsum_zeros ws A) in E. now destruct E.
Qed.

Lemma Share_weightings_after_witness :
  snd (Share 2 (mkMoney "GBP" 100) [0; 1; 0]) = [0; 1; 0] /\
  snd (Share 2 (mkMoney "GBP" 30000) [0; 0; 0]) = [1; 1; 1].
Proof.
  split.
  - apply (Share_weightings_after 2 (mkMoney "GBP" 100) [0; 1; 0]).
    + repeat constructor; unfold is_int, is_uint; lia.
    + reflexivity.
    + apply Exists_cons_tl, Exists_cons_hd. discriminate.
  - apply (Share_weightings_after 2 (mkMoney "GBP" 30000) [0; 0; 0]).
    repeat constructor.
Defined.

(** The all-zero weightings of the tests: after the call the caller's
    slice holds ones. *)
Lemma Share_mutates_counterexample :
  fst (Share 0 (mkMoney "GBP" 30000) [0; 0; 0])
    = Returned [mkMoney "GBP" 10000; mkMoney "GBP" 10000; mkMoney "GBP" 10000] /\
  snd (Share 0 (mkMoney "GBP" 30000) [0; 0; 0]) = [1; 1; 1] /\
  snd (Share 0 (mkMoney "GBP" 30000) [0; 0; 0]) <> [0; 0; 0].
Proof. repeat split. discriminate. Qed.

(** C4 at weightings whose sum overflows: [2^64 - 1] and [1] add up to
    zero in [uint], so [Share] takes the fallback although no weight is
    zero, replaces both weights by 1 and splits 1.00 into halves. *)
Theorem fallback_on_overflow (fuel : nat) :
  Forall is_uint [2 ^ 64 - 1; 1] /\
  Forall (fun w => w <> 0) [2 ^ 64 - 1; 1] /\
  uint_sum [2 ^ 64 - 1; 1] = 0 /\
  Share fuel (mkMoney "GBP" 100) [2 ^ 64 - 1; 1]
  = (Returned [mkMoney "GBP" 50; mkMoney "GBP" 50], [1; 1]).
Proof.
  split; [repeat constructor; unfold is_uint; lia|].
  split; [repeat constructor; discriminate|].
  split; [reflexivity|].
  destruct fuel; reflexivity.
Qed.

(** C1 at weightings whose sum overflows: four weights of
    [2^62 + 2^38] add up to [2^40] in [uint]; of the [2^40] atoms of
    10995116277.76 each party receives [2^62 + 2^38], and the check
    passes because the total wraps around to [2^40]. *)
Theorem Share_overflow_makes_atoms (fuel : nat) :
  strToInt "GBP" "10995116277.76" = Ok (2 ^ 40) /\
  Forall is_uint [2 ^ 62 + 2 ^ 38; 2 ^ 62 + 2 ^ 38; 2 ^ 62 + 2 ^ 38; 2 ^ 62 + 2 ^ 38] /\
  fst (Share fuel (mkMoney "GBP" (2 ^ 40))
         [2 ^ 62 + 2 ^ 38; 2 ^ 62 + 2 ^ 38; 2 ^ 62 + 2 ^ 38; 2 ^ 62 + 2 ^ 38])
  = Returned [mkMoney "GBP" (2 ^ 62 + 2 ^ 38); mkMoney "GBP" (2 ^ 62 + 2 ^ 38);
              mkMoney "GBP" (2 ^ 62 + 2 ^ 38); mkMoney "GBP" (2 ^ 62 + 2 ^ 38)] /\
  Zsum (map a [mkMoney "GBP" (2 ^ 62 + 2 ^ 38); mkMoney "GBP" (2 ^ 62 + 2 ^ 38);
               mkMoney "GBP" (2 ^ 62 + 2 ^ 38); mkMoney "GBP" (2 ^ 62 + 2 ^ 38)])
  = 2 ^ 64 + 2 ^ 40.
Proof.
  split; [reflexivity|].
  split; [repeat constructor; unfold is_uint; lia|].
  split; [destruct fuel; vm_compute; reflexivity|reflexivity].
Qed.

(** C2 at 0.90 by [3, 7]: the binary64 product of the ratio 7/10 and 90
    is just below 63, so the truncated allocation of the second party is
    62 where the exact quotient is 63, and [Share] returns 0.28 and 0.62
    although 0.27 and 0.63 divide the amount exactly. *)
Theorem truncated_not_exact :
  strToInt "GBP" "0.90" = Ok 90 /\
  fallback [3; 7] = ([3; 7], 10) /\
  initial_allocations (mkMoney "GBP" 90) [3; 7] = [27; 62] /\
  exact_truncated (mkMoney "GBP" 90) [3; 7] 10 = [27; 63] /\
  (forall fuel, (1 <= fuel)%nat ->
     share_amounts fuel "GBP" "0.90" [3; 7] = Some ["0.28"; "0.62"]%string).
Proof.
  repeat split. intros [|[|fuel]] L; [lia|reflexivity|reflexivity].
Qed.

(** ** The tests of the package, run on the embedding *)

Lemma TestCanAllocate :
  Forall (fun '(amt, ratios, want) => share_amounts 4 "GBP" amt ratios = Some want)
    allocate_cases.
Proof.
  unfold allocate_cases.
  repeat (apply List.Forall_cons; [vm_compute; reflexivity|]). apply List.Forall_nil.
Qed.

Lemma TestCanCreate :
  Forall (fun amt => match strToInt "GBP" amt with
                     | Ok v => Amount (mkMoney "GBP" v) = amt
                     | Err _ => False
                     end)
    create_cases.
Proof.
  unfold create_cases.
  repeat (apply List.Forall_cons; [vm_compute; reflexivity|]).
  apply List.Forall_nil.
Qed.

Lemma TestCanRejectBadAmount :
  Forall (fun amt => strToInt "GBP" amt = Err AmountMalformed) bad_amounts.
Proof. unfold bad_amounts. repeat constructor. Qed.

(* ================================================================= *)
(** * Further properties *)

(** ** Arithmetic: how the operations compose *)

Lemma wrap_int_mul_l x y : wrap_int (wrap_int x * y) = wrap_int (x * y).
Proof.
  apply wrap_int_congr.
  rewrite <- Zmult_mod_idemp_l, wrap_int_eqm, Zmult_mod_idemp_l. reflexivity.
Qed.

Lemma wrap_int_mul_r x y : wrap_int (x * wrap_int y) = wrap_int (x * y).
Proof. rewrite Z.mul_comm, wrap_int_mul_l. f_equal. lia. Qed.

Lemma wrap_int_sub_r x y : wrap_int (x - wrap_int y) = wrap_int (x - y).
Proof.
  apply wrap_int_congr.
  rewrite <- Zminus_mod_idemp_r, wrap_int_eqm, Zminus_mod_idemp_r. reflexivity.
Qed.

Lemma Money_eta x : mkMoney (c x) (a x) = x.
Proof. now destruct x. Qed.

Lemma Add_inv x y z :
  Add x y = Ok z -> c x = c y /\ z = mkMoney (c x) (wrap_int (a x + a y)).
Proof.
  unfold Add. intros H. destruct (String.eqb_spec (c x) (c y)) as [E|E].
  - rewrite addSub_same in H by exact E. split; [exact E|congruence].
  - apply addSub_mismatch with (add := true) in E. congruence.
Qed.

Lemma Sub_inv x y z :
  Sub x y = Ok z -> c x = c y /\ z = mkMoney (c x) (wrap_int (a x - a y)).
Proof.
  unfold Sub. intros H. destruct (String.eqb_spec (c x) (c y)) as [E|E].
  - rewrite addSub_same in H by exact E. split; [exact E|congruence].
  - apply addSub_mismatch with (add := false) in E. congruence.
Qed.

(** X1: [Sub] undoes [Add] and [Add] undoes [Sub], also when the
    intermediate amount has left the range of [int] and wrapped around. *)
Theorem Sub_undoes_Add (x y z : Money) :
  is_int (a x) ->
  (Add x y = Ok z -> Sub z y = Ok x) /\
  (Sub x y = Ok z -> Add z y = Ok x).
Proof.
  intros Hx. split; intros H.
  - apply Add_inv in H as [E ->]. unfold Sub.
    rewrite addSub_same by exact E. cbn [c a].
    rewrite wrap_int_sub_l. replace (a x + a y - a y) with (a x) by lia.
    rewrite wrap_int_small by exact Hx. now rewrite Money_eta.
  - apply Sub_inv in H as [E ->]. unfold Add.
    rewrite addSub_same by exact E. cbn [c a].
    rewrite wrap_int_add_l. replace (a x - a y + a y) with (a x) by lia.
    rewrite wrap_int_small by exact Hx. now rewrite Money_eta.
Qed.

Lemma Sub_undoes_Add_witness :
  Sub (mkMoney "GBP" (- 2 ^ 63)) (mkMoney "GBP" 1) = Ok (mkMoney "GBP" (2 ^ 63 - 1)).
Proof.
  apply (Sub_undoes_Add (mkMoney "GBP" (2 ^ 63 - 1)) (mkMoney "GBP" 1)
           (mkMoney "GBP" (- 2 ^ 63))).
  - unfold is_int. simpl. lia.
  - reflexivity.
Defined.

(** X2: [Add] on one currency is commutative and associative, whatever the
    amounts: the 64-bit sums wrap around consistently. *)
Theorem Add_commutes_associates (x y z : Money) :
  c x = c y -> c y = c z ->
  Add x y = Add y x /\
  exists xy yz, Add x y = Ok xy /\ Add y z = Ok yz /\ Add xy z = Add x yz.
Proof.
  intros E1 E2. unfold Add.
  rewrite (addSub_same x y true E1), (addSub_same y x true (eq_sym E1)).
  rewrite (addSub_same y z true E2).
  split; [rewrite E1; do 3 f_equal; lia|].
  eexists. eexists. split; [reflexivity|]. split; [reflexivity|].
  rewrite !addSub_same by (cbn [c]; congruence). cbn [c a].
  rewrite wrap_int_add_l, wrap_int_add_r. do 3 f_equal. lia.
Qed.

Lemma Add_commutes_associates_witness :
  Add (mkMoney "GBP" 12345) (mkMoney "GBP" 23456)
  = Add (mkMoney "GBP" 23456) (mkMoney "GBP" 12345).
Proof.
  apply (Add_commutes_associates (mkMoney "GBP" 12345) (mkMoney "GBP" 23456)
           (mkMoney "GBP" 0)); reflexivity.
Defined.

(** X3: [Mul] never fails and keeps the currency; multiplying twice is
    multiplying by the 64-bit product of the factors, and the factor 1
    changes nothing. *)
Theorem Mul_composes (x : Money) (f g : Z) :
  is_int (a x) ->
  (exists y, Mul x f = Ok y /\ c y = c x /\
             Mul y g = Mul x (wrap_int (f * g))) /\
  Mul x 1 = Ok x /\
  Mul x 0 = Ok (mkMoney (c x) 0).
Proof.
  intros Hx. unfold Mul. split; [|split].
  - eexists. split; [reflexivity|]. split; [reflexivity|]. cbn [c a].
    rewrite wrap_int_mul_l, wrap_int_mul_r. do 3 f_equal. lia.
  - rewrite Z.mul_1_r, wrap_int_small by exact Hx. now rewrite Money_eta.
  - now rewrite Z.mul_0_r.
Qed.

Lemma Mul_composes_witness :
  exists y, Mul (mkMoney "GBP" 12345) 2 = Ok y /\ c y = "GBP"%string /\
            Mul y 5 = Mul (mkMoney "GBP" 12345) (wrap_int (2 * 5)).
Proof.
  apply (Mul_composes (mkMoney "GBP" 12345) 2 5). unfold is_int. simpl. lia.
Defined.

(** X4: [Mul] distributes over [Add] and [Sub], whatever the amounts and
    the factor. *)
Theorem Mul_distributes (x y s : Money) (f : Z) :
  (Add x y = Ok s ->
   exists x' y' s', Mul x f = Ok x' /\ Mul y f = Ok y' /\ Mul s f = Ok s' /\
                    Add x' y' = Ok s') /\
  (Sub x y = Ok s ->
   exists x' y' s', Mul x f = Ok x' /\ Mul y f = Ok y' /\ Mul s f = Ok s' /\
                    Sub x' y' = Ok s').
Proof.
  split; intros H.
  - apply Add_inv in H as [E ->]. unfold Mul, Add.
    do 3 eexists. repeat (split; [reflexivity|]).
    rewrite addSub_same by exact E. cbn [c a].
    rewrite wrap_int_mul_l, wrap_int_add_l, wrap_int_add_r. do 3 f_equal. lia.
  - apply Sub_inv in H as [E ->]. unfold Mul, Sub.
    do 3 eexists. repeat (split; [reflexivity|]).
    rewrite addSub_same by exact E. cbn [c a].
    rewrite wrap_int_mul_l, wrap_int_sub_l, wrap_int_sub_r. do 3 f_equal. lia.
Qed.

Lemma Mul_distributes_witness :
  exists x' y' s', Mul (mkMoney "GBP" 12345) 3 = Ok x' /\
                   Mul (mkMoney "GBP" 23456) 3 = Ok y' /\
                   Mul (mkMoney "GBP" 35801) 3 = Ok s' /\
                   Add x' y' = Ok s'.
Proof.
  apply (Mul_distributes (mkMoney "GBP" 12345) (mkMoney "GBP" 23456)
           (mkMoney "GBP" 35801) 3).
  reflexivity.
Defined.

(** X5: [Mul] by -1 negates every amount but the smallest [int], which it
    leaves as it is; applied twice it gives the amount back. *)
Theorem Mul_negates (x : Money) :
  is_int (a x) ->
  (a x <> min_int -> Mul x (-1) = Ok (mkMoney (c x) (- a x))) /\
  (a x = min_int -> Mul x (-1) = Ok x) /\
  (forall y, Mul x (-1) = Ok y -> Mul y (-1) = Ok x).
Proof.
  intros Hx. unfold Mul. split; [|split].
  - intros NM. rewrite wrap_int_small; [do 2 f_equal; lia|].
    unfold is_int, min_int in *. lia.
  - intros M. rewrite M.
    replace (wrap_int (min_int * -1)) with min_int by reflexivity.
    rewrite <- M. now rewrite Money_eta.
  - intros y [= <-]. cbn [c a]. rewrite wrap_int_mul_l.
    replace (a x * -1 * -1) with (a x) by lia.
    rewrite wrap_int_small by exact Hx. now rewrite Money_eta.
Qed.

Lemma Mul_negates_witness :
  Mul (mkMoney "GBP" 12345) (-1) = Ok (mkMoney "GBP" (- 12345)).
Proof.
  apply (Mul_negates (mkMoney "GBP" 12345)).
  - unfold is_int. simpl. lia.
  - unfold min_int. simpl. lia.
Defined.

(** X6: [Cmp] orders the amounts of one currency: the result is -1, 0 or 1,
    swapping the arguments negates it, it is 0 exactly on equal values,
    and "less than" is transitive. *)
Theorem Cmp_total_order (x y z : Money) :
  c x = c y -> c y = c z ->
  (exists r, Cmp x y = Ok r /\ Cmp y x = Ok (- r) /\ (r = -1 \/ r = 0 \/ r = 1)) /\
  (Cmp x y = Ok 0 <-> x = y) /\
  (Cmp x y = Ok (-1) -> Cmp y z = Ok (-1) -> Cmp x z = Ok (-1)).
Proof.
  intros E1 E2.
  rewrite (Cmp_same x y E1), (Cmp_same y x (eq_sym E1)), (Cmp_same y z E2),
    (Cmp_same x z (eq_trans E1 E2)).
  split; [|split].
  - eexists. split; [reflexivity|].
    rewrite (Z.compare_antisym (a x) (a y)).
    destruct (a x ?= a y); simpl; auto.
  - destruct (Z.compare_spec (a x) (a y)) as [Q|Q|Q].
    + split; [|reflexivity]. intros _.
      rewrite <- (Money_eta x), <- (Money_eta y). congruence.
    + split; [discriminate|]. intros ->. lia.
    + split; [discriminate|]. intros ->. lia.
  - destruct (Z.compare_spec (a x) (a y)); try discriminate.
    destruct (Z.compare_spec (a y) (a z)); try discriminate.
    destruct (Z.compare_spec (a x) (a z)); try reflexivity; lia.
Qed.

Lemma Cmp_total_order_witness :
  Cmp (mkMoney "GBP" (-4011)) (mkMoney "GBP" 4567) = Ok (-1).
Proof.
  destruct (Cmp_total_order (mkMoney "GBP" (-4011)) (mkMoney "GBP" (-3033))
              (mkMoney "GBP" 4567) eq_refl eq_refl) as (_ & _ & T).
  apply T; reflexivity.
Defined.

(** X7: [Cmp] is the sign of the exact difference of the atoms, also where
    [Sub] overflows; when the difference fits [int], it is the sign of
    what [Sub] returns. *)
Theorem Cmp_sign_of_difference (x y : Money) :
  c x = c y ->
  Cmp x y = Ok (Z.sgn (a x - a y)) /\
  (is_int (a x - a y) ->
   exists d, Sub x y = Ok d /\ Cmp x y = Ok (Z.sgn (a d))).
Proof.
  intros E. rewrite (Cmp_same x y E).
  assert (S : match a x ?= a y with Lt => -1 | Eq => 0 | Gt => 1 end
              = Z.sgn (a x - a y)).
  { destruct (Z.compare_spec (a x) (a y)) as [Q|Q|Q].
    - rewrite Q, Z.sub_diag. reflexivity.
    - symmetry. apply Z.sgn_neg. lia.
    - symmetry. apply Z.sgn_pos. lia. }
  split; [now rewrite S|].
  intros I. unfold Sub. rewrite addSub_same by exact E.
  eexists. split; [reflexivity|]. cbn [a].
  now rewrite wrap_int_small, S by exact I.
Qed.

Lemma Cmp_sign_of_difference_witness :
  Cmp (mkMoney "GBP" (2 ^ 63 - 1)) (mkMoney "GBP" (-1)) = Ok 1.
Proof.
  apply (Cmp_sign_of_difference (mkMoney "GBP" (2 ^ 63 - 1)) (mkMoney "GBP" (-1))).
  reflexivity.
Defined.

(** ** More on the parser *)

Lemma digits_number_nonneg p : in_grammar p -> 0 <= digits_number p.
Proof.
  intros G. destruct (in_grammar_digits p G) as [_ D].
  now apply digits_value_nonneg.
Qed.

(** What an accepted text looks like, and what it is read as. *)
Lemma strToInt_inv cur amt v :
  strToInt cur amt = Ok v ->
  exists p, in_grammar p /\ amt = string_of_list_ascii (render p) /\
            digits_number p <= max_int /\
            v = (if negative p then -1 else 1) * digits_number p.
Proof.
  intros Hv.
  destruct (FindStringSubmatch_inv (list_ascii_of_string amt)) as (p & G & E).
  { intros E. unfold strToInt in Hv. rewrite E in Hv. discriminate. }
  assert (R : amt = string_of_list_ascii (render p)).
  { rewrite <- E. symmetry. apply string_of_list_ascii_of_string. }
  exists p. split; [exact G|]. split; [exact R|].
  rewrite R, strToInt_render in Hv by exact G.
  destruct (Z.leb_spec (digits_number p) max_int); [|discriminate].
  split; [assumption|congruence].
Qed.

Lemma strToInt_accepts cur p :
  in_grammar p -> digits_number p <= max_int ->
  strToInt cur (string_of_list_ascii (render p))
  = Ok ((if negative p then -1 else 1) * digits_number p).
Proof.
  intros G L. rewrite strToInt_render by exact G.
  destruct (Z.leb_spec (digits_number p) max_int); [reflexivity|lia].
Qed.

Lemma strToInt_rejects cur p :
  in_grammar p -> max_int < digits_number p ->
  strToInt cur (string_of_list_ascii (render p)) = Err AmountMalformed.
Proof.
  intros G L. rewrite strToInt_render by exact G.
  destruct (Z.leb_spec (digits_number p) max_int); [lia|reflexivity].
Qed.

(** X8: the parsed atoms lie between [-(2^63 - 1)] and [2^63 - 1]: the
    smallest [int] is no result of [strToInt], its text is rejected. *)
Theorem strToInt_range (cur amt : string) (v : Z) :
  strToInt cur amt = Ok v ->
  - max_int <= v <= max_int /\ v <> min_int /\
  strToInt cur "-92233720368547758.08" = Err AmountMalformed.
Proof.
  intros H. apply strToInt_inv in H as (p & G & _ & L & ->).
  pose proof (digits_number_nonneg p G).
  unfold max_int, min_int in *.
  split; [destruct (negative p); lia|].
  split; [destruct (negative p); lia|reflexivity].
Qed.

Lemma strToInt_range_witness :
  - max_int <= - max_int <= max_int /\ - max_int <> min_int /\
  strToInt "GBP" "-92233720368547758.08" = Err AmountMalformed.
Proof.
  apply (strToInt_range "GBP" "-92233720368547758.07" (- max_int)).
  reflexivity.
Defined.

(** X9: the point is optional and carries no meaning: a text without
    fractional part is read as a count of atoms, so that the digits with
    and without the point before the last two give the same amount. *)
Theorem strToInt_point_optional (cur : string) (neg : bool)
    (ip : list ascii) (d1 d2 : ascii) :
  in_grammar (mkParts neg ip (Some (d1, d2))) ->
  in_grammar (mkParts neg (ip ++ [d1; d2]) None) /\
  strToInt cur (string_of_list_ascii (render (mkParts neg (ip ++ [d1; d2]) None)))
  = strToInt cur (string_of_list_ascii (render (mkParts neg ip (Some (d1, d2))))) /\
  (digits_value ip <= max_int ->
   strToInt cur (string_of_list_ascii (render (mkParts neg ip None)))
   = Ok ((if neg then -1 else 1) * digits_value ip)).
Proof.
  intros (N & D & F). cbn [int_part frac_part frac_digits] in *.
  assert (G1 : in_grammar (mkParts neg (ip ++ [d1; d2]) None)).
  { repeat split; cbn [int_part frac_part frac_digits].
    - intros E. apply app_eq_nil in E as [E _]. congruence.
    - apply Forall_app. split; assumption.
    - constructor. }
  assert (G2 : in_grammar (mkParts neg ip None)).
  { repeat split; cbn [int_part frac_part frac_digits]; [assumption..|constructor]. }
  split; [exact G1|]. split.
  - rewrite !strToInt_render by (try exact G1; repeat split; assumption).
    unfold digits_number. cbn [int_part frac_part frac_digits negative].
    now rewrite app_nil_r.
  - intros L. rewrite strToInt_accepts by
      (try exact G2; unfold digits_number; cbn [int_part frac_part frac_digits];
       now rewrite app_nil_r).
    unfold digits_number. cbn [int_part frac_part frac_digits negative].
    now rewrite app_nil_r.
Qed.

Lemma strToInt_point_optional_witness :
  strToInt "GBP" "12345" = strToInt "GBP" "123.45" /\
  strToInt "GBP" "123" = Ok 123.
Proof.
  destruct (strToInt_point_optional "GBP" false (list_ascii_of_string "123")
              "4"%char "5"%char) as (_ & E & V).
  - repeat split; [discriminate|repeat constructor|repeat constructor].
  - split; [exact E|]. apply V. vm_compute. discriminate.
Defined.

(** X10: a leading [-] negates: a text of the grammar is accepted with the
    sign exactly when it is accepted without, and the two results are
    opposite. *)
Theorem strToInt_sign (cur : string) (ip : list ascii)
    (fp : option (ascii * ascii)) (v : Z) :
  in_grammar (mkParts false ip fp) ->
  (strToInt cur (string_of_list_ascii (render (mkParts false ip fp))) = Ok v <->
   strToInt cur (string_of_list_ascii (render (mkParts true ip fp))) = Ok (- v)).
Proof.
  intros G.
  assert (G' : in_grammar (mkParts true ip fp)) by exact G.
  rewrite !strToInt_render by assumption.
  change (digits_number (mkParts true ip fp)) with (digits_number (mkParts false ip fp)).
  cbn [negative].
  destruct (_ <=? _); [|split; discriminate].
  split; intros [= E]; f_equal; lia.
Qed.

Lemma strToInt_sign_witness :
  strToInt "GBP" "-10.11" = Ok (- 1011).
Proof.
  apply (strToInt_sign "GBP" (list_ascii_of_string "10") (Some ("1"%char, "1"%char)) 1011).
  - repeat split; [discriminate|repeat constructor|repeat constructor].
  - reflexivity.
Defined.

(** ** New *)

(** X11: [New] looks at the currency first: an unknown code is a
    [CurrencyMalformed] error whatever the amount; with a known code the
    error is [AmountMalformed], raised exactly on the texts [strToInt]
    rejects; no other error comes out of [New]. *)
Theorem New_errors (ParseISO : string -> option string) (cur amt : string) :
  (New ParseISO cur amt = Err CurrencyMalformed <-> ParseISO cur = None) /\
  (New ParseISO cur amt = Err AmountMalformed <->
   ParseISO cur <> None /\
   forall p, in_grammar p -> amt = string_of_list_ascii (render p) ->
             max_int < digits_number p) /\
  New ParseISO cur amt <> Err CurrencyMismatch.
Proof.
  unfold New. destruct (ParseISO cur) as [u|].
  - destruct (strToInt u amt) as [v|e] eqn:E.
    + split; [split; discriminate|]. split; [|discriminate].
      split; [discriminate|]. intros [_ H]. exfalso.
      apply strToInt_inv in E as (p & G & R & L & _).
      specialize (H p G R). lia.
    + apply strToInt_error in E as E'. subst e.
      split; [split; discriminate|]. split; [|discriminate].
      split; [|reflexivity]. intros _. split; [discriminate|].
      intros p G R.
      destruct (Z_le_gt_dec (digits_number p) max_int) as [L|L]; [|lia].
      rewrite R, strToInt_accepts in E by assumption. discriminate.
  - split; [split; reflexivity|]. split; [|discriminate].
    split; [discriminate|]. intros [H _]. congruence.
Qed.

(** X12: a canonical amount in a known currency makes a [Money] that gives
    back the unit's code and the text of the amount. *)
Theorem New_Currency_Amount (ParseISO : string -> option string)
    (cur u : string) (p : amount_parts) :
  ParseISO cur = Some u -> canonical p -> digits_number p <= max_int ->
  exists x, New ParseISO cur (string_of_list_ascii (render p)) = Ok x /\
            Currency x = u /\
            Amount x = string_of_list_ascii (render p).
Proof.
  intros P (G & F & Z0 & NZ) L. unfold New. rewrite P.
  rewrite strToInt_accepts by assumption.
  eexists. split; [reflexivity|]. split; [reflexivity|].
  destruct G as (N & D & FD).
  unfold digits_number in *. rewrite digits_value_app in *.
  unfold render, sign_text, frac_text, frac_digits in *.
  destruct (frac_part p) as [[d1 d2]|]; [|congruence].
  apply Forall_inv in FD as F1. apply Forall_inv_tail, Forall_inv in FD as F2.
  change (10 ^ Z.of_nat (length [d1; d2])) with 100 in *.
  now apply Amount_parts.
Qed.

Lemma New_errors_witness :
  New (fun s => if String.eqb s "GBP" then Some s else None) "FOO" "123.45"
  = Err CurrencyMalformed.
Proof.
  apply (New_errors (fun s => if String.eqb s "GBP" then Some s else None)
           "FOO" "123.45").
  reflexivity.
Defined.

Lemma New_Currency_Amount_witness :
  exists x, New (fun s => if String.eqb s "GBP" then Some s else None)
              "GBP" "-123.45" = Ok x /\
            Currency x = "GBP"%string /\ Amount x = "-123.45"%string.
Proof.
  apply (New_Currency_Amount (fun s => if String.eqb s "GBP" then Some s else None)
           "GBP" "GBP"
           (mkParts true (list_ascii_of_string "123") (Some ("4"%char, "5"%char)))).
  - reflexivity.
  - split; [repeat split; [discriminate|repeat constructor|repeat constructor]|].
    split; [discriminate|].
    split; [right; discriminate|].
    intros _. vm_compute. discriminate.
  - vm_compute. discriminate.
Defined.

(** ** More on the formatter *)

Lemma Sprintf_02d_small r :
  0 <= r < 100 -> Sprintf_02d r = [digit_chr (r / 10); digit_chr (r mod 10)].
Proof.
  intros H. unfold Sprintf_02d. destruct (Z.ltb_spec r 0); [lia|].
  destruct (Z_lt_ge_dec r 10) as [L|L].
  - rewrite utoa_small, Z.div_small, Z.mod_small by lia. reflexivity.
  - rewrite utoa_step by lia.
    assert (1 <= r / 10) by (apply Z.div_le_lower_bound; lia).
    assert (r / 10 < 10) by (apply Z.div_lt_upper_bound; lia).
    rewrite utoa_small by lia. reflexivity.
Qed.

(** [utoa] prints no superfluous leading zero. *)
Lemma utoa_canonical n :
  0 <= n -> utoa n = ["0"%char] \/ hd "0"%char (utoa n) <> "0"%char.
Proof.
  revert n. apply (Zlt_0_ind (fun n =>
    utoa n = ["0"%char] \/ hd "0"%char (utoa n) <> "0"%char)).
  intros n IH Hn.
  destruct (Z_lt_ge_dec n 10) as [L|L].
  - rewrite utoa_small by lia. destruct (Z.eq_dec n 0) as [->|NZ]; [now left|].
    right. simpl. intros E. apply digit_val_zero in E.
    rewrite digit_val_chr in E; lia.
  - rewrite utoa_step by lia. right.
    assert (Q : 1 <= n / 10) by (apply Z.div_le_lower_bound; lia).
    destruct (utoa_value (n / 10) ltac:(lia)) as (N & _ & V).
    destruct (IH (n / 10)) as [E|E].
    { split; [lia|apply Z.div_lt; lia]. }
    + rewrite E in V. change (digits_value ["0"%char]) with 0 in V. lia.
    + destruct (utoa (n / 10)); [congruence|exact E].
Qed.

(** The text [Amount] prints for atoms other than the smallest [int]. *)
Lemma Amount_render cur v :
  is_int v -> v <> min_int ->
  let p := mkParts (v <? 0) (utoa (Z.abs v / 100))
             (Some (digit_chr (Z.abs v mod 100 / 10),
                    digit_chr (Z.abs v mod 100 mod 10))) in
  Amount (mkMoney cur v) = string_of_list_ascii (render p) /\
  canonical p /\ digits_number p = Z.abs v.
Proof.
  intros Hv NM p.
  set (n := Z.abs v) in *.
  assert (Hn : 0 <= n <= max_int) by (unfold n, is_int, min_int, max_int in *; lia).
  pose proof (Z.mod_pos_bound n 100 ltac:(lia)) as Hr.
  assert (Hq : 0 <= n / 100) by (apply Z.div_pos; lia).
  set (r := n mod 100) in *.
  pose proof (Z.mod_pos_bound r 10 ltac:(lia)) as Hr0.
  assert (Hr1 : 0 <= r / 10 < 10).
  { split; [apply Z.div_pos; lia|apply Z.div_lt_upper_bound; lia]. }
  destruct (utoa_value (n / 100) Hq) as (UN & UD & UV).
  assert (DN : digits_number p = n).
  { unfold digits_number, p. cbn [int_part frac_part frac_digits].
    rewrite digits_value_app, UV.
    change (digits_value [digit_chr (r / 10); digit_chr (r mod 10)])
      with ((0 * 10 + digit_val (digit_chr (r / 10))) * 10
            + digit_val (digit_chr (r mod 10))).
    rewrite !digit_val_chr by lia.
    change (10 ^ Z.of_nat (length [digit_chr (r / 10); digit_chr (r mod 10)]))
      with 100.
    pose proof (Z.div_mod n 100 ltac:(lia)). pose proof (Z.div_mod r 10 ltac:(lia)).
    fold r in H. lia. }
  split; [|split; [|exact DN]].
  - unfold Amount. cbn [a]. f_equal.
    assert (A' : (if v <? 0 then wrap_int (v * -1) else v) = n).
    { destruct (Z.ltb_spec v 0).
      - rewrite wrap_int_small; [unfold n; lia|].
        unfold is_int, min_int in *. lia.
      - unfold n. lia. }
    rewrite A', Z.quot_div_nonneg, Z.rem_mod_nonneg by lia. fold r.
    rewrite Itoa_nonneg, Sprintf_02d_small by lia.
    unfold render, sign_text, frac_text, p. cbn [negative int_part frac_part].
    reflexivity.
  - split; [|split; [discriminate|split]].
    + repeat split; cbn [int_part frac_part frac_digits p].
      * exact UN.
      * exact UD.
      * repeat constructor; apply is_digit_chr; lia.
    + cbn [int_part p]. now apply utoa_canonical.
    + cbn [negative p]. intros Hneg. apply Z.ltb_lt in Hneg. rewrite DN.
      unfold n. lia.
Qed.

(** X13: parsing what [Amount] prints gives the atoms back, for every amount
    but the smallest [int]: there [Amount] prints a text with two signs,
    which the parser rejects. *)
Theorem strToInt_Amount (cur : string) (x : Money) :
  is_int (a x) ->
  (a x <> min_int -> strToInt cur (Amount x) = Ok (a x)) /\
  (a x = min_int ->
   Amount x = "--92233720368547758.-8"%string /\
   strToInt cur (Amount x) = Err AmountMalformed).
Proof.
  intros Hx. destruct x as [cx v]. cbn [a] in *. split.
  - intros NM. destruct (Amount_render cx v Hx NM) as (E & (G & _) & DN).
    rewrite E, strToInt_accepts by (try exact G; rewrite DN;
      unfold is_int, min_int, max_int in *; lia).
    rewrite DN. cbn [negative]. f_equal.
    destruct (Z.ltb_spec v 0); lia.
  - intros ->. split; reflexivity.
Qed.

Lemma strToInt_Amount_witness :
  strToInt "GBP" (Amount (mkMoney "GBP" (- 12345))) = Ok (- 12345).
Proof.
  apply (strToInt_Amount "GBP" (mkMoney "GBP" (- 12345))).
  - unfold is_int. simpl. lia.
  - unfold min_int. simpl. lia.
Defined.

(** X14: [Amount] prints canonical texts: an optional [-] on negative atoms
    only, an integer part without superfluous leading zero, a point and
    exactly two digits, spelling the absolute value of the atoms. *)
Theorem Amount_canonical (x : Money) :
  is_int (a x) -> a x <> min_int ->
  exists p, Amount x = string_of_list_ascii (render p) /\ canonical p /\
            negative p = (a x <? 0) /\ digits_number p = Z.abs (a x).
Proof.
  intros Hx NM. destruct x as [cx v]. cbn [a] in *.
  destruct (Amount_render cx v Hx NM) as (E & K & DN).
  eexists. split; [exact E|]. split; [exact K|]. split; [reflexivity|exact DN].
Qed.

Lemma Amount_canonical_witness :
  exists p, Amount (mkMoney "GBP" (- 5)) = string_of_list_ascii (render p) /\
            canonical p /\
            negative p = (-5 <? 0) /\ digits_number p = Z.abs (- 5).
Proof.
  apply (Amount_canonical (mkMoney "GBP" (- 5))).
  - unfold is_int. simpl. lia.
  - unfold min_int. simpl. lia.
Defined.

(** X15: different atoms never print as the same text. *)
Theorem Amount_injective (x y : Money) :
  is_int (a x) -> is_int (a y) -> Amount x = Amount y -> a x = a y.
Proof.
  intros Hx Hy E.
  assert (P : forall z, is_int (a z) ->
            (a z <> min_int -> strToInt "" (Amount z) = Ok (a z)) /\
            (a z = min_int -> strToInt "" (Amount z) = Err AmountMalformed)).
  { intros [cz v] Hz. cbn [a] in *. split.
    - intros NM. destruct (Amount_render cz v Hz NM) as (R & (G & _) & DN).
      rewrite R, strToInt_accepts by (try exact G; rewrite DN;
        unfold is_int, min_int, max_int in *; lia).
      rewrite DN. cbn [negative]. f_equal. destruct (Z.ltb_spec v 0); lia.
    - intros ->. reflexivity. }
  destruct (P x Hx) as [X1 X2], (P y Hy) as [Y1 Y2].
  destruct (Z.eq_dec (a x) min_int) as [Mx|Mx], (Z.eq_dec (a y) min_int) as [My|My].
  - congruence.
  - specialize (X2 Mx). specialize (Y1 My). rewrite E in X2. congruence.
  - specialize (X1 Mx). specialize (Y2 My). rewrite E in X1. congruence.
  - specialize (X1 Mx). specialize (Y1 My). rewrite E in X1. congruence.
Qed.

Lemma Amount_injective_witness : a (mkMoney "GBP" 750) = a (mkMoney "EUR" 750).
Proof.
  apply (Amount_injective (mkMoney "GBP" 750) (mkMoney "EUR" 750)).
  - unfold is_int. simpl. lia.
  - unfold is_int. simpl. lia.
  - reflexivity.
Defined.

(** ** More on the allocator *)

(** *** Shape of the result *)

(** X16: whenever [Share] returns, it returns one [Money] per weighting, each
    in the currency of [x], and the atoms handed out add up to the atoms
    of [x] modulo [2^64]. *)
Theorem Share_one_per_party (fuel : nat) (x : Money) (ws : list Z)
    (res : list Money) :
  is_int (a x) ->
  fst (Share fuel x ws) = Returned res ->
  length res = length ws /\
  Forall (fun y => Currency y = Currency x) res /\
  (Zsum (map a res)) mod 2 ^ 64 = (a x) mod 2 ^ 64.
Proof.
  intros Hx R. destruct (Share_returned fuel x ws res Hx R) as (L & C & S).
  split; [exact L|]. split; [exact C|].
  rewrite <- S. symmetry. apply wrap_int_eqm.
Qed.

Lemma Share_one_per_party_witness :
  length [mkMoney "GBP" 32; mkMoney "GBP" 73] = length [3; 7] /\
  Forall (fun y => Currency y = "GBP"%string) [mkMoney "GBP" 32; mkMoney "GBP" 73] /\
  (Zsum (map a [mkMoney "GBP" 32; mkMoney "GBP" 73])) mod 2 ^ 64 = 105 mod 2 ^ 64.
Proof.
  apply (Share_one_per_party 2 (mkMoney "GBP" 105) [3; 7]).
  - unfold is_int. simpl. lia.
  - reflexivity.
Defined.

(** *** No party *)

(** X17: with no weighting at all [Share] returns the empty slice for the
    zero amount, and panics on any other amount: the index [i % n] of
    the second loop divides by zero. *)
Theorem Share_no_party (fuel : nat) (x : Money) :
  (a x = 0 -> Share fuel x [] = (Returned [], [])) /\
  (a x <> 0 -> Share (S fuel) x [] = (Panicked IntegerDivideByZero, [])).
Proof.
  rewrite !Share_unfold.
  unfold final_allocations, initial_remainder, initial_allocations.
  change (fst (fallback [])) with (@nil Z).
  change (snd (fallback [])) with 0.
  change (remainder x (truncated x (ratios_of [] 0))) with (a x).
  split.
  - intros ->. now rewrite distribute_zero.
  - intros NZ. rewrite distribute_S.
    destruct (Z.eqb_spec (a x) 0); [contradiction|reflexivity].
Qed.

Lemma Share_no_party_witness :
  Share 1 (mkMoney "GBP" 100) [] = (Panicked IntegerDivideByZero, []).
Proof.
  apply (Share_no_party 0 (mkMoney "GBP" 100)). discriminate.
Defined.

(** *** A single party *)

Lemma distribute_single_no_panic w d fuel : forall i rem v p,
  distribute fuel [w] 1 d i rem [v] <> Panicked p.
Proof.
  induction fuel as [|fuel IH]; intros i rem v p.
  - simpl. destruct (rem =? 0); discriminate.
  - rewrite distribute_S. destruct (rem =? 0); [discriminate|].
    change (1 =? 0) with false. cbv iota. rewrite Z.rem_1_r.
    change (0 <? 0) with false. cbv iota.
    change ([w] !! Z.to_nat 0) with (Some w).
    change ([v] !! Z.to_nat 0) with (Some v). cbv iota.
    destruct (w =? 0); apply IH.
Qed.

Lemma singleton_length {A} (l : list A) : length l = 1%nat -> exists v, l = [v].
Proof. destruct l as [|v [|? ?]]; try discriminate. eauto. Qed.

(** X18: a single party receives the whole amount, whatever its weight and
    for every amount [int] holds, also those [float64] cannot represent. *)
Theorem Share_single_party (x : Money) (w : Z) :
  is_int (a x) ->
  exists fuel, forall fuel', (fuel <= fuel')%nat ->
    fst (Share fuel' x [w]) = Returned [x].
Proof.
  intros Hx. destruct (final_allocations_ends x [w] Hx) as [fuel E].
  exists fuel. intros fuel' L. rewrite (Share_outcome_mono fuel fuel' x [w] L E).
  assert (V : exists v, initial_allocations x [w] = [v]).
  { apply singleton_length. now rewrite initial_allocations_length. }
  destruct V as [v V].
  destruct (final_allocations fuel x [w]) as [al|q|] eqn:D; [| |contradiction].
  - assert (R : fst (Share fuel x [w]) = Returned (map (mkMoney (c x)) al)).
    { rewrite Share_unfold, D.
      now rewrite (final_allocations_sum fuel x [w] al Hx D), Z.eqb_refl. }
    rewrite R.
    destruct (Share_returned fuel x [w] _ Hx R) as (Len & _ & S).
    apply Share_returned_walk in R as W; [|discriminate|exact Hx].
    rewrite length_map in Len. destruct (singleton_length al Len) as [y ->].
    assert (Y : [mkMoney (c x) y] !! 0%nat
                = Some (mkMoney (c x)
                          (wrap_int (v + (if initial_remainder x [w] <? 0 then -1 else 1)
                                         * Z.of_nat (units_for (fst (fallback [w]))
                                               (Z.abs_nat (initial_remainder x [w])) 0))))).
    { change [mkMoney (c x) y] with (map (mkMoney (c x)) [y]).
      rewrite W at 1. rewrite list_lookup_fmap, spec_distribute_lookup.
      - now rewrite V.
      - now apply fallback_eligible.
      - apply initial_allocations_ints. }
    injection Y as Y.
    assert (I : is_int y) by (rewrite Y; apply wrap_int_range).
    unfold Zsum in S. simpl in S. rewrite Z.add_0_r, wrap_int_small in S by exact I.
    simpl. rewrite S. now rewrite Money_eta.
  - exfalso. unfold final_allocations in D.
    assert (F : exists w', fst (fallback [w]) = [w']).
    { apply singleton_length. now rewrite fallback_length. }
    destruct F as [w' F]. rewrite F, V in D.
    now apply distribute_single_no_panic in D.
Qed.

Lemma Share_single_party_witness :
  exists fuel, forall fuel', (fuel <= fuel')%nat ->
    fst (Share fuel' (mkMoney "GBP" (2 ^ 63 - 1)) [0]) = Returned [mkMoney "GBP" (2 ^ 63 - 1)].
Proof.
  apply (Share_single_party (mkMoney "GBP" (2 ^ 63 - 1)) 0).
  unfold is_int. simpl. lia.
Defined.

(** *** Zero weights and zero amounts *)

Lemma of_Z_zero_or_finite z : Z.abs z < 2 ^ 64 -> zero_or_finite (F64.of_Z z).
Proof.
  intros B. destruct (Z.eq_dec z 0) as [->|NZ]; [exact I|].
  destruct (of_Z_mag z NZ B) as [F _].
  destruct (F64.of_Z z); try contradiction. exact F.
Qed.

Lemma uint_digits z : 0 < z < 2 ^ 64 -> 0 < Zdigits2 z <= 64.
Proof.
  intros H. split; [apply digits_pos; lia|apply digits_le; lia].
Qed.

(** The ratio of a weight to a non-zero sum is a number. *)
Lemma ratio_zero_or_finite w s :
  is_uint w -> 0 < s < 2 ^ 64 ->
  zero_or_finite (F64.div (F64.of_Z w) (F64.of_Z s)).
Proof.
  intros Hw Hs. destruct (of_Z_mag s ltac:(lia) ltac:(lia)) as [Fs Ms].
  pose proof (uint_digits s Hs).
  destruct (Z.eq_dec w 0) as [->|NW].
  - change (F64.of_Z 0) with (S754_zero false). now rewrite div_zero_l.
  - unfold is_uint in Hw.
    destruct (of_Z_mag w NW ltac:(lia)) as [Fw Mw].
    pose proof (uint_digits w ltac:(lia)).
    destruct (div_mag _ _ Fw Fs ltac:(lia) ltac:(lia)) as [Fr _].
    destruct (F64.div _ _); try contradiction. exact Fr.
Qed.

(** The truncated share is zero when the ratio or the amount is. *)
Lemma truncated_zero r f :
  zero_or_finite r -> zero_or_finite f ->
  (exists s, r = S754_zero s) \/ (exists s, f = S754_zero s) ->
  F64.to_int (F64.Trunc (F64.mul r f)) = 0.
Proof.
  intros Hr Hf [[s ->]|[s ->]].
  - destruct f; try contradiction; reflexivity.
  - destruct r; try contradiction; reflexivity.
Qed.

Lemma initial_allocations_lookup x ws j w :
  fst (fallback ws) !! j = Some w ->
  initial_allocations x ws !! j
  = Some (F64.to_int (F64.Trunc
            (F64.mul (F64.div (F64.of_Z w) (F64.of_Z (snd (fallback ws))))
                     (F64.of_Z (a x))))).
Proof.
  intros H. unfold initial_allocations, truncated, ratios_of.
  rewrite List.map_map. change (@List.map) with (@fmap list _) at 1.
  now rewrite list_lookup_fmap, H.
Qed.

Lemma int_abs z : is_int z -> Z.abs z < 2 ^ 64.
Proof. unfold is_int. lia. Qed.

Lemma fallback_not_taken ws :
  uint_sum ws <> 0 -> fallback ws = (ws, uint_sum ws) /\ 0 < uint_sum ws < 2 ^ 64.
Proof.
  intros NZ. unfold fallback.
  destruct (Z.eqb_spec (uint_sum ws) 0); [contradiction|].
  split; [reflexivity|].
  pose proof (wrap_uint_range (Zsum ws)) as R. rewrite <- uint_sum_Zsum in R.
  unfold is_uint in R. lia.
Qed.

(** X19: a party of weight zero among weights whose 64-bit sum is not zero
    receives nothing, neither a share nor a unit of the remainder. *)
Theorem zero_weight_gets_nothing (fuel : nat) (x : Money) (ws : list Z)
    (j : nat) (res : list Money) :
  is_int (a x) -> uint_sum ws <> 0 -> ws !! j = Some 0 ->
  fst (Share fuel x ws) = Returned res ->
  res !! j = Some (mkMoney (c x) 0).
Proof.
  intros Hx NZ Hj R.
  destruct (fallback_not_taken ws NZ) as [F S].
  assert (NE : ws <> []) by (intros ->; discriminate).
  apply Share_returned_walk in R; [|exact NE|exact Hx]. subst res.
  assert (Hj' : fst (fallback ws) !! j = Some 0) by now rewrite F.
  rewrite list_lookup_fmap, spec_distribute_lookup;
    [|now apply fallback_eligible|apply initial_allocations_ints].
  rewrite (initial_allocations_lookup x ws j 0 Hj'), F. cbn [snd fst].
  rewrite truncated_zero.
  - unfold units_for, eligibleb.
    rewrite (nth_lookup_Some _ _ 0 _ Hj). simpl.
    now rewrite Z.mul_0_r.
  - apply ratio_zero_or_finite; [unfold is_uint; lia|exact S].
  - apply of_Z_zero_or_finite. now apply int_abs.
  - left. change (F64.of_Z 0) with (S754_zero false).
    destruct (of_Z_mag (uint_sum ws) ltac:(lia) ltac:(lia)) as [Fs _].
    rewrite div_zero_l by exact Fs. eauto.
Qed.

Lemma zero_weight_gets_nothing_witness :
  [mkMoney "GBP" 3660; mkMoney "GBP" 0; mkMoney "GBP" 26340] !! 1%nat
  = Some (mkMoney "GBP" 0).
Proof.
  apply (zero_weight_gets_nothing 2 (mkMoney "GBP" 30000) [122; 0; 878] 1).
  - unfold is_int. simpl. lia.
  - vm_compute. discriminate.
  - reflexivity.
  - vm_compute. reflexivity.
Defined.

Lemma fallback_sum_pos ws :
  ws <> [] -> Z.of_nat (length ws) < 2 ^ 64 -> 0 < snd (fallback ws) < 2 ^ 64.
Proof.
  intros NE L. unfold fallback.
  destruct (Z.eqb_spec (uint_sum ws) 0) as [E|E]; cbn [snd].
  - rewrite wrap_uint_small by (unfold is_uint; lia).
    destruct ws; [congruence|simpl length in *; lia].
  - now apply fallback_not_taken.
Qed.

Lemma fallback_uints ws : Forall is_uint ws -> Forall is_uint (fst (fallback ws)).
Proof.
  intros U. unfold fallback. destruct (_ =? 0); cbn [fst]; [|exact U].
  apply Forall_forall. intros w Hw. apply elem_of_replicate in Hw as [-> _].
  unfold is_uint. lia.
Qed.

Lemma Zsum_replicate_zero n : Zsum (replicate n 0) = 0.
Proof. unfold Zsum. induction n; simpl; lia. Qed.

(** X20: the zero amount is shared as zeros, without a step of the second
    loop, whatever the weights. *)
Theorem Share_zero_amount (fuel : nat) (x : Money) (ws : list Z) :
  a x = 0 -> ws <> [] -> Forall is_uint ws -> Z.of_nat (length ws) < 2 ^ 64 ->
  fst (Share fuel x ws) = Returned (replicate (length ws) (mkMoney (c x) 0)).
Proof.
  intros A0 NE U L.
  pose proof (fallback_sum_pos ws NE L) as S.
  pose proof (fallback_uints ws U) as U'.
  assert (IA : initial_allocations x ws = replicate (length ws) 0).
  { apply list_eq. intros j.
    destruct (fst (fallback ws) !! j) as [w|] eqn:Hj.
    - rewrite (initial_allocations_lookup x ws j w Hj), A0.
      rewrite truncated_zero.
      + symmetry. f_equal. apply lookup_replicate_2.
        apply lookup_lt_Some in Hj. now rewrite fallback_length in Hj.
      + apply ratio_zero_or_finite; [|exact S].
        rewrite Forall_lookup in U'. exact (U' j w Hj).
      + exact I.
      + right. now exists false.
    - apply lookup_ge_None in Hj. rewrite fallback_length in Hj.
      rewrite (proj2 (lookup_ge_None _ _)) by (now rewrite initial_allocations_length).
      symmetry. apply lookup_ge_None. now rewrite length_replicate. }
  assert (IR : initial_remainder x ws = 0).
  { unfold initial_remainder.
    rewrite remainder_Zsum by (rewrite A0; unfold is_int; lia).
    now rewrite IA, A0, Zsum_replicate_zero. }
  rewrite Share_unfold. unfold final_allocations.
  rewrite IR, distribute_zero, IA, int_sum_Zsum, Zsum_replicate_zero, A0.
  simpl. f_equal. apply fmap_replicate.
Qed.

Lemma Share_zero_amount_witness :
  fst (Share 0 (mkMoney "GBP" 0) [2 ^ 64 - 1; 1])
  = Returned (replicate (length [2 ^ 64 - 1; 1]) (mkMoney "GBP" 0)).
Proof.
  apply (Share_zero_amount 0 (mkMoney "GBP" 0) [2 ^ 64 - 1; 1]).
  - reflexivity.
  - discriminate.
  - repeat apply List.Forall_cons; try apply List.Forall_nil; unfold is_uint; lia.
  - simpl. lia.
Defined.

(** *** Bounded inputs *)

(** On bounded inputs no final allocation leaves [int]. *)
Lemma final_allocations_bound x ws :
  bounded_input x ws -> is_int (a x) ->
  Forall (fun v => Z.abs v
                   <= (128 * Z.of_nat (length ws) + 129) * Z.abs (a x))
    (spec_distribute (fst (fallback ws)) (initial_allocations x ws)
       (initial_remainder x ws)).
Proof.
  intros BI Hx. destruct (remainder_bound x ws BI Hx) as (R0 & R1 & R2).
  pose proof (initial_allocations_bound x ws BI) as A.
  destruct BI as (NE & U & B & H).
  assert (N1 : 0 < Z.of_nat (length ws)) by (destruct ws; [congruence|simpl; lia]).
  set (n := Z.of_nat (length ws)) in *.
  apply Forall_lookup. intros j r Hr.
  rewrite spec_distribute_lookup in Hr;
    [|now apply fallback_eligible|apply initial_allocations_ints].
  destruct (initial_allocations x ws !! j) as [v|] eqn:V; [|discriminate].
  injection Hr as <-.
  rewrite Forall_lookup in A. specialize (A j v V). simpl in A.
  pose proof (units_for_le (fst (fallback ws)) (Z.abs_nat (initial_remainder x ws)) j) as Uj.
  apply Nat2Z.inj_le in Uj. rewrite Zabs2Nat.id_abs in Uj.
  set (u := Z.of_nat (units_for _ _ j)) in *.
  assert (Z.abs (v + (if initial_remainder x ws <? 0 then -1 else 1) * u)
          <= (128 * n + 129) * Z.abs (a x)).
  { destruct (initial_remainder x ws <? 0); lia. }
  rewrite wrap_int_small; [assumption|]. unfold is_int. nia.
Qed.

(** X21: on bounded inputs (weights that add up to less than [2^64], an
    amount with [N (128 N + 129) max(1, |atoms|) < 2^63]) [Share]
    returns one [Money] per weighting, in the currency of [x]; no share
    exceeds [(128 N + 129) |atoms|] in absolute value, so nothing wraps
    around, and the atoms add up to the atoms of [x] exactly, over the
    integers. *)
Theorem Share_conserves_bounded (x : Money) (ws : list Z) :
  bounded_input x ws -> is_int (a x) ->
  exists fuel res,
    (forall fuel', (fuel <= fuel')%nat -> fst (Share fuel' x ws) = Returned res) /\
    length res = length ws /\
    Forall (fun y => Currency y = Currency x /\
                     Z.abs (a y)
                     <= (128 * Z.of_nat (length ws) + 129) * Z.abs (a x)) res /\
    Zsum (map a res) = a x.
Proof.
  intros BI Hx. destruct (remainder_bound x ws BI Hx) as (_ & _ & R2).
  pose proof (final_allocations_bound x ws BI Hx) as F.
  assert (NE : ws <> []) by apply BI.
  exists (Z.abs_nat (initial_remainder x ws) * length ws)%nat. eexists.
  split; [intros fuel' L; now apply Share_completes|].
  pose proof (Share_completes x ws _ NE Hx R2 (le_n _)) as [_ S].
  destruct (Share_returned _ x ws _ Hx S) as (L & C & W).
  split; [exact L|]. split.
  - change (@List.map) with (@fmap list _). apply Forall_fmap.
    eapply Forall_impl; [exact F|]. intros v Hv. split; [reflexivity|exact Hv].
  - rewrite <- W. symmetry. apply wrap_int_small.
    rewrite map_map in *. simpl in *. rewrite map_id in *.
    apply Zsum_abs_bound in F. rewrite length_map in L. rewrite L in F.
    destruct BI as (_ & _ & _ & H).
    assert (N1 : 0 < Z.of_nat (length ws)) by (destruct ws; [congruence|simpl; lia]).
    unfold is_int. nia.
Qed.

Lemma Share_conserves_bounded_witness :
  exists fuel res,
    (forall fuel', (fuel <= fuel')%nat ->
       fst (Share fuel' (mkMoney "GBP" 105) [3; 7]) = Returned res) /\
    length res = length [3; 7] /\
    Forall (fun y => Currency y = "GBP"%string /\
                     Z.abs (a y) <= (128 * Z.of_nat (length [3; 7]) + 129) * Z.abs 105)
      res /\
    Zsum (map a res) = 105.
Proof.
  apply (Share_conserves_bounded (mkMoney "GBP" 105) [3; 7]).
  - unfold bounded_input. split; [discriminate|].
    split; [repeat apply List.Forall_cons; try apply List.Forall_nil; unfold is_uint; lia|].
    split; reflexivity.
  - unfold is_int. simpl. lia.
Defined.

(** *** The slice after a call *)

Lemma uint_sum_ones n : uint_sum (replicate n 1) = wrap_uint (Z.of_nat n).
Proof.
  rewrite uint_sum_Zsum. f_equal. unfold Zsum.
  induction n as [|n IH]; [reflexivity|].
  simpl replicate. simpl foldr. rewrite IH. lia.
Qed.

Lemma fallback_idem ws : fallback (fst (fallback ws)) = fallback ws.
Proof.
  destruct (Z.eqb_spec (uint_sum ws) 0) as [E|E].
  - assert (F : fallback ws
                = (replicate (length ws) 1, wrap_uint (Z.of_nat (length ws)))).
    { unfold fallback. now rewrite E. }
    rewrite F. cbn [fst]. unfold fallback.
    rewrite uint_sum_ones, length_replicate. now destruct (_ =? 0).
  - destruct (fallback_not_taken ws E) as [F _]. now rewrite F.
Qed.

Lemma Share_fallback fuel x ws : Share fuel x (fst (fallback ws)) = Share fuel x ws.
Proof.
  unfold Share. now rewrite fallback_idem, fallback_length.
Qed.

(** X22: a slice that went through [Share] can be used again: what an
    earlier call wrote to it changes neither the shares nor the slice of
    a later call.  In particular all-zero weightings give the shares of
    all-one weightings. *)
Theorem Share_again (fuel fuel' : nat) (x y : Money) (ws : list Z) (n : nat) :
  Share fuel x (snd (Share fuel' y ws)) = Share fuel x ws /\
  fst (Share fuel x (replicate n 0)) = fst (Share fuel x (replicate n 1)).
Proof.
  split.
  - rewrite Share_weightings. apply Share_fallback.
  - rewrite <- (Share_fallback fuel x (replicate n 0)).
    do 3 f_equal. unfold fallback.
    assert (Z0 : uint_sum (replicate n 0) = 0).
    { rewrite uint_sum_Zsum, Zsum_replicate_zero. reflexivity. }
    rewrite Z0. cbn [fst Z.eqb]. now rewrite length_replicate.
Qed.

(** *** Spare units, evenly and from first to last *)

Lemma rank_mono ws j k : (j <= k)%nat -> (rank ws j <= rank ws k)%nat.
Proof.
  intros L. unfold rank.
  replace k with (j + (k - j))%nat by lia.
  rewrite seq_app, List.filter_app, length_app. lia.
Qed.

Lemma eligibleb_lookup ws j w :
  ws !! j = Some w -> eligibleb ws j = negb (w =? 0).
Proof. intros H. unfold eligibleb. now rewrite (nth_lookup_Some _ _ 0 _ H). Qed.

Lemma units_for_eligible ws units j w :
  ws !! j = Some w -> w <> 0 ->
  units_for ws units j
  = (units / length (eligible ws)
     + (if (rank ws j <? units mod length (eligible ws))%nat then 1 else 0))%nat.
Proof.
  intros H NZ. unfold units_for. rewrite (eligibleb_lookup ws j w H).
  apply lookup_lt_Some in H. apply Nat.ltb_lt in H. rewrite H.
  destruct (Z.eqb_spec w 0); [contradiction|reflexivity].
Qed.

Lemma units_for_zero ws units j :
  ws !! j = Some 0 -> units_for ws units j = 0%nat.
Proof.
  intros H. unfold units_for. now rewrite (eligibleb_lookup ws j 0 H).
Qed.

(** X23: spare units go to the parties evenly, from first to last, as
    the comment on [Share] says.  Whenever [Share] returns, party
    [j] holds its truncated allocation plus [u j] units [d]; a party of
    weight zero has [u j = 0], and of two parties of non-zero weight the
    earlier one has as many units as the later one, or one more. *)
Theorem spare_units_first_to_last (fuel : nat) (x : Money) (ws : list Z)
    (res : list Money) :
  ws <> [] -> is_int (a x) ->
  fst (Share fuel x ws) = Returned res ->
  exists u : nat -> nat,
    (forall j v, initial_allocations x ws !! j = Some v ->
       res !! j
       = Some (mkMoney (c x)
                 (wrap_int (v + (if initial_remainder x ws <? 0 then -1 else 1)
                                * Z.of_nat (u j))))) /\
    (forall j, fst (fallback ws) !! j = Some 0 -> u j = 0%nat) /\
    (forall j k wj wk, (j < k)%nat ->
       fst (fallback ws) !! j = Some wj -> wj <> 0 ->
       fst (fallback ws) !! k = Some wk -> wk <> 0 ->
       (u k <= u j <= u k + 1)%nat).
Proof.
  intros NE Hx R.
  apply Share_returned_walk in R; [|exact NE|exact Hx]. subst res.
  exists (units_for (fst (fallback ws)) (Z.abs_nat (initial_remainder x ws))).
  split; [|split].
  - intros j v Hv. rewrite list_lookup_fmap, spec_distribute_lookup.
    + now rewrite Hv.
    + now apply fallback_eligible.
    + apply initial_allocations_ints.
  - intros j Hj. now apply units_for_zero.
  - intros j k wj wk L Hj Nj Hk Nk.
    rewrite (units_for_eligible _ _ j wj Hj Nj), (units_for_eligible _ _ k wk Hk Nk).
    pose proof (rank_mono (fst (fallback ws)) j k ltac:(lia)) as M.
    set (q := (Z.abs_nat (initial_remainder x ws)
               mod length (eligible (fst (fallback ws))))%nat) in *.
    destruct (Nat.ltb_spec (rank (fst (fallback ws)) j) q),
             (Nat.ltb_spec (rank (fst (fallback ws)) k) q); lia.
Qed.

Lemma spare_units_first_to_last_witness :
  exists u : nat -> nat,
    (forall j v, initial_allocations (mkMoney "GBP" 5) [1; 1; 1] !! j = Some v ->
       [mkMoney "GBP" 2; mkMoney "GBP" 2; mkMoney "GBP" 1] !! j
       = Some (mkMoney "GBP"
                 (wrap_int (v + (if initial_remainder (mkMoney "GBP" 5) [1; 1; 1] <? 0
                                 then -1 else 1) * Z.of_nat (u j))))) /\
    (forall j, fst (fallback [1; 1; 1]) !! j = Some 0 -> u j = 0%nat) /\
    (forall j k wj wk, (j < k)%nat ->
       fst (fallback [1; 1; 1]) !! j = Some wj -> wj <> 0 ->
       fst (fallback [1; 1; 1]) !! k = Some wk -> wk <> 0 ->
       (u k <= u j <= u k + 1)%nat).
Proof.
  apply (spare_units_first_to_last 3 (mkMoney "GBP" 5) [1; 1; 1]).
  - discriminate.
  - unfold is_int. simpl. lia.
  - vm_compute. reflexivity.
Defined.

(** *** Adding the shares up *)

Lemma add_all_allocations cur (al : list Z) : forall acc,
  fold_left (fun acc y => match acc with Ok s => Add s y | Err e => Err e end)
    (map (mkMoney cur) al) (Ok (mkMoney cur acc))
  = Ok (mkMoney cur (fold_left (fun total v => wrap_int (total + v)) al acc)).
Proof.
  induction al as [|v al IH]; intros acc; [reflexivity|].
  cbn [map fold_left]. unfold Add at 2.
  rewrite addSub_same by reflexivity. cbn [c a]. apply IH.
Qed.

Lemma Share_returned_allocations fuel x ws res :
  is_int (a x) -> fst (Share fuel x ws) = Returned res ->
  exists al, final_allocations fuel x ws = Returned al /\
             res = map (mkMoney (c x)) al /\ int_sum al = a x.
Proof.
  intros Hx. rewrite Share_unfold.
  destruct (final_allocations fuel x ws) as [al|p|] eqn:D; simpl; try discriminate.
  destruct (negb _); simpl; [discriminate|]. intros [= <-].
  exists al. split; [reflexivity|]. split; [reflexivity|].
  now apply (final_allocations_sum fuel x ws).
Qed.

(** X24: adding the shares up with [Add], from the zero amount of the
    currency, gives [x] back: no step fails on a currency mismatch, and
    the total is the amount shared, whatever the weights. *)
Theorem Share_adds_up (fuel : nat) (x : Money) (ws : list Z) (res : list Money) :
  is_int (a x) ->
  fst (Share fuel x ws) = Returned res ->
  add_all (mkMoney (c x) 0) res = Ok x.
Proof.
  intros Hx R.
  destruct (Share_returned_allocations fuel x ws res Hx R) as (al & _ & -> & S).
  unfold add_all. rewrite add_all_allocations.
  unfold int_sum in S. rewrite S. now destruct x.
Qed.

Lemma Share_adds_up_witness :
  add_all (mkMoney "GBP" 0) [mkMoney "GBP" 32; mkMoney "GBP" 73]
  = Ok (mkMoney "GBP" 105).
Proof.
  apply (Share_adds_up 2 (mkMoney "GBP" 105) [3; 7]).
  - unfold is_int. simpl. lia.
  - reflexivity.
Defined.

(** *** Sharing a negated amount *)

Lemma round_aux_opp s m e l :
  binary_round_aux F64.prec F64.emax (negb s) m e l
  = SFopp (binary_round_aux F64.prec F64.emax s m e l).
Proof.
  unfold binary_round_aux.
  destruct (shr_fexp _ _ m e l) as [mrs' e'].
  destruct (shr_fexp _ _ _ e' loc_Exact) as [mrs'' e''].
  destruct (shr_m mrs''); [reflexivity| |reflexivity].
  destruct (_ <=? _); reflexivity.
Qed.

Lemma binary_round_opp s m e :
  binary_round F64.prec F64.emax (negb s) m e
  = SFopp (binary_round F64.prec F64.emax s m e).
Proof.
  unfold binary_round. destruct (shl_align _ _ _) as [mz ez]. apply round_aux_opp.
Qed.

Lemma SFopp_involutive f : SFopp (SFopp f) = f.
Proof. destruct f; cbn [SFopp]; now rewrite ?negb_involutive. Qed.

Lemma binary_round_opp_true m e :
  binary_round F64.prec F64.emax false m e
  = SFopp (binary_round F64.prec F64.emax true m e).
Proof.
  change true with (negb false). now rewrite binary_round_opp, SFopp_involutive.
Qed.

Lemma round_aux_opp_true m e l :
  binary_round_aux F64.prec F64.emax false m e l
  = SFopp (binary_round_aux F64.prec F64.emax true m e l).
Proof.
  change true with (negb false). now rewrite round_aux_opp, SFopp_involutive.
Qed.

Lemma of_Z_opp z : z <> 0 -> F64.of_Z (- z) = SFopp (F64.of_Z z).
Proof.
  intros NZ. unfold F64.of_Z, binary_normalize.
  destruct z as [|p|p]; [congruence| |]; cbn [Z.opp].
  - apply (binary_round_opp false).
  - apply binary_round_opp_true.
Qed.

Lemma mul_opp_r r f : F64.mul r (SFopp f) = SFopp (F64.mul r f).
Proof.
  unfold F64.mul.
  destruct r as [sr|sr| |sr mr er], f as [sf|sf| |sf mf ef]; cbn [SFopp SFmul];
    try reflexivity; try (destruct sr, sf; reflexivity).
  destruct sr, sf; cbn [xorb negb];
    first [apply (round_aux_opp false)|apply round_aux_opp_true].
Qed.

Lemma Trunc_opp f : F64.Trunc (SFopp f) = SFopp (F64.Trunc f).
Proof.
  destruct f as [s|s| |s m e]; try reflexivity.
  cbn [SFopp F64.Trunc]. destruct (0 <=? e); [reflexivity|].
  generalize (Z.shiftr (Z.pos m) (- e)). intros q. unfold binary_normalize.
  destruct s, q as [|p|p]; cbn [cond_Zopp negb Z.opp]; try reflexivity;
    first [apply (binary_round_opp false)|apply binary_round_opp_true].
Qed.

Lemma wrap_int_opp z : wrap_int (- wrap_int z) = wrap_int (- z).
Proof.
  apply wrap_int_congr.
  rewrite <- (Z.sub_0_l (wrap_int z)), <- (Z.sub_0_l z).
  rewrite <- Zminus_mod_idemp_r, wrap_int_eqm, Zminus_mod_idemp_r. reflexivity.
Qed.

Lemma to_int_opp f : F64.to_int (SFopp f) = wrap_int (- F64.to_int f).
Proof.
  destruct f as [s|s| |s m e]; try reflexivity.
  cbn [SFopp F64.to_int].
  set (u := if 0 <=? e then Z.shiftl (Z.pos m) e else Z.shiftr (Z.pos m) (- e)).
  assert (E : cond_Zopp (negb s) u = - cond_Zopp s u) by (destruct s; simpl; lia).
  rewrite E. generalize (cond_Zopp s u). intros v.
  destruct (is_intb v) eqn:B1, (is_intb (- v)) eqn:B2.
  - symmetry. apply wrap_int_small. now apply is_intb_spec.
  - apply is_intb_spec in B1.
    assert (v = min_int).
    { destruct (Z.eq_dec v min_int); [assumption|].
      assert (is_intb (- v) = true); [|congruence].
      apply is_intb_spec. unfold is_int, min_int in *. lia. }
    subst v. reflexivity.
  - apply is_intb_spec in B2.
    assert (- v = min_int).
    { destruct (Z.eq_dec (- v) min_int); [assumption|].
      assert (is_intb v = true); [|congruence].
      apply is_intb_spec. unfold is_int, min_int in *. lia. }
    rewrite H. reflexivity.
  - reflexivity.
Qed.

(** The truncated allocations of the opposite amount. *)
Lemma truncated_opp x rs :
  is_int (a x) -> a x <> min_int ->
  truncated (mkMoney (c x) (- a x)) rs
  = map (fun v => wrap_int (- v)) (truncated x rs).
Proof.
  intros Hx NM. unfold truncated. cbn [a]. rewrite List.map_map.
  apply List.map_ext. intros r.
  destruct (Z.eq_dec (a x) 0) as [E|E].
  - rewrite E. change (F64.of_Z (- 0)) with (S754_zero false).
    change (F64.of_Z 0) with (S754_zero false).
    destruct r as [s|s| |s m e]; reflexivity.
  - now rewrite of_Z_opp, mul_opp_r, Trunc_opp, to_int_opp.
Qed.

Lemma give_opp d al j :
  give (- d) (map (fun v => wrap_int (- v)) al) j
  = map (fun v => wrap_int (- v)) (give d al j).
Proof.
  unfold give. change (@List.map) with (@fmap list _).
  rewrite list_lookup_fmap. destruct (al !! j) as [v|]; [|reflexivity].
  cbn [fmap option_fmap option_map]. rewrite list_fmap_insert. f_equal.
  rewrite wrap_int_add_l, wrap_int_opp. f_equal. lia.
Qed.

Lemma fold_give_opp d (l : list nat) : forall al,
  fold_left (give (- d)) l (map (fun v => wrap_int (- v)) al)
  = map (fun v => wrap_int (- v)) (fold_left (give d) l al).
Proof.
  induction l as [|j l IH]; intros al; [reflexivity|].
  cbn [fold_left]. now rewrite give_opp, IH.
Qed.

Lemma abs_nat_opp z : Z.abs_nat (- z) = Z.abs_nat z.
Proof. destruct z; reflexivity. Qed.

Lemma spec_distribute_opp ws al rem :
  spec_distribute ws (map (fun v => wrap_int (- v)) al) (- rem)
  = map (fun v => wrap_int (- v)) (spec_distribute ws al rem).
Proof.
  unfold spec_distribute. rewrite abs_nat_opp.
  destruct (Z.eq_dec rem 0) as [->|NZ]; [reflexivity|].
  replace (if - rem <? 0 then -1 else 1) with (- (if rem <? 0 then -1 else 1)).
  - apply fold_give_opp.
  - destruct (Z.ltb_spec rem 0), (Z.ltb_spec (- rem) 0); lia.
Qed.

Lemma bounded_input_opp x ws :
  bounded_input x ws -> bounded_input (mkMoney (c x) (- a x)) ws.
Proof.
  unfold bounded_input. cbn [a]. now rewrite Z.abs_opp.
Qed.

Lemma bounded_amount x ws :
  bounded_input x ws -> Z.abs (a x) < 2 ^ 56.
Proof.
  intros (NE & _ & _ & H).
  assert (0 < Z.of_nat (length ws)) by (destruct ws; [congruence|simpl; lia]).
  nia.
Qed.

(** X25: [Share] commutes with negation: on bounded inputs the shares of the
    opposite amount are the opposite shares, party by party. *)
Theorem Share_negation (x : Money) (ws : list Z) :
  bounded_input x ws -> is_int (a x) ->
  exists fuel res x',
    Mul x (-1) = Ok x' /\
    forall fuel', (fuel <= fuel')%nat ->
      fst (Share fuel' x ws) = Returned res /\
      exists res', fst (Share fuel' x' ws) = Returned res' /\
                   Forall2 (fun y y' => Mul y (-1) = Ok y') res res'.
Proof.
  intros BI Hx.
  pose proof (bounded_amount x ws BI) as BA.
  assert (NM : a x <> min_int) by (unfold min_int; lia).
  assert (Hx' : is_int (- a x)) by (unfold is_int, min_int in *; lia).
  pose proof (bounded_input_opp x ws BI) as BI'.
  set (x' := mkMoney (c x) (- a x)) in *.
  destruct (remainder_bound x ws BI Hx) as (R0 & _ & R2).
  destruct (remainder_bound x' ws BI' Hx') as (R0' & _ & R2').
  pose proof (initial_allocations_bound x ws BI) as A.
  assert (IA : initial_allocations x' ws
               = map (fun v => wrap_int (- v)) (initial_allocations x ws)).
  { unfold initial_allocations. now apply truncated_opp. }
  assert (IAo : map (fun v => wrap_int (- v)) (initial_allocations x ws)
                = map Z.opp (initial_allocations x ws)).
  { apply Forall_fmap_ext_1. eapply Forall_impl; [exact A|].
    intros v Hv. simpl in Hv. apply wrap_int_small. unfold is_int. lia. }
  assert (ZO : forall l, Zsum (map Z.opp l) = - Zsum l).
  { unfold Zsum. induction l as [|v l IH]; simpl; lia. }
  assert (IR : initial_remainder x' ws = - initial_remainder x ws).
  { rewrite R0', R0, IA, IAo, ZO. unfold x'. cbn [a]. lia. }
  exists (Z.abs_nat (initial_remainder x ws) * length ws)%nat.
  eexists. exists x'. split.
  { unfold Mul, x'. do 2 f_equal. replace (a x * -1) with (- a x) by lia.
    now apply wrap_int_small. }
  intros fuel' L.
  destruct BI as (NE & _).
  destruct (Share_completes x ws fuel' NE Hx R2 L) as [_ S]. split; [exact S|].
  eexists. split.
  - apply Share_completes; try assumption.
    now rewrite IR, abs_nat_opp.
  - rewrite IR, IA, spec_distribute_opp, Forall2_fmap.
    change (@List.map) with (@fmap list _). rewrite Forall2_fmap_r.
    apply Forall_Forall2_diag, Forall_forall. intros v _.
    unfold Mul. cbn [c a]. do 3 f_equal. lia.
Qed.

Lemma Share_negation_witness :
  exists fuel res x',
    Mul (mkMoney "GBP" 105) (-1) = Ok x' /\
    forall fuel', (fuel <= fuel')%nat ->
      fst (Share fuel' (mkMoney "GBP" 105) [3; 7]) = Returned res /\
      exists res', fst (Share fuel' x' [3; 7]) = Returned res' /\
                   Forall2 (fun y y' => Mul y (-1) = Ok y') res res'.
Proof.
  apply (Share_negation (mkMoney "GBP" 105) [3; 7]).
  - unfold bounded_input. split; [discriminate|].
    split; [repeat apply List.Forall_cons; try apply List.Forall_nil; unfold is_uint; lia|].
    split; reflexivity.
  - unfold is_int. simpl. lia.
Defined.

(* ================================================================= *)
(** * Accuracy of the shares *)

(** ** Rounding *)

(** No bit is shifted out of a mantissa of at most 53 digits. *)
Lemma shr_fexp_short m e l :
  0 < m -> -1021 <= Zdigits2 m + e -> Zdigits2 m <= 53 ->
  shr_fexp 53 1024 m e l = (shr_record_of_loc m l, e).
Proof.
  intros Hm HD HS. unfold shr_fexp. rewrite fexp_normal by exact HD.
  replace (Zdigits2 m + e - 53 - e) with (Zdigits2 m - 53) by lia.
  unfold shr. destruct (Zdigits2 m - 53) as [|p|p] eqn:K; try reflexivity. lia.
Qed.

Lemma loc_of_shr_record_of_loc m l :
  loc_of_shr_record (shr_record_of_loc m l) = l.
Proof. destruct l as [|[]]; reflexivity. Qed.

(** The value [binary_round_aux] returns: with [k] the number of digits
    beyond 53, the mantissa [m / 2^k] or its successor, at the exponent
    [e + k]; nothing changes when the input is exact and short. *)
Lemma round_aux_val sx m e l :
  0 < m -> -1021 <= Zdigits2 m + e <= 900 ->
  exists m' e',
    binary_round_aux 53 1024 sx m e l = S754_finite sx m' e' /\
    Zdigits2 (Z.pos m') <= 53 /\
    Zdigits2 m + e <= Zdigits2 (Z.pos m') + e' <= Zdigits2 m + e + 1 /\
    e + Z.max 0 (Zdigits2 m - 53) <= e' /\
    (Z.pos m' * 2 ^ (e' - e - Z.max 0 (Zdigits2 m - 53))
       = m / 2 ^ Z.max 0 (Zdigits2 m - 53) \/
     Z.pos m' * 2 ^ (e' - e - Z.max 0 (Zdigits2 m - 53))
       = m / 2 ^ Z.max 0 (Zdigits2 m - 53) + 1) /\
    (l = loc_Exact -> Zdigits2 m <= 53 -> e' = e /\ Z.pos m' = m).
Proof.
  intros Hm HD. unfold binary_round_aux.
  destruct (shr_fexp_spec m e l Hm ltac:(lia)) as (mrs1 & E1 & M1).
  rewrite E1.
  pose proof (digits_bounds m Hm) as Bm. pose proof (digits_pos m Hm) as Pm.
  set (d := Zdigits2 m) in *. set (k1 := Z.max 0 (d - 53)) in *.
  set (d1 := d - k1).
  assert (B1 : 2 ^ (d1 - 1) <= shr_m mrs1 < 2 ^ d1).
  { rewrite M1. unfold d1. replace (d - k1 - 1) with (d - 1 - k1) by lia.
    apply div_pow2_bounds; lia. }
  assert (P1 : 0 < d1 <= 53) by lia.
  pose proof (round_nearest_even_bounds (shr_m mrs1) (loc_of_shr_record mrs1)) as R.
  assert (X : l = loc_Exact -> d <= 53 ->
              round_nearest_even (shr_m mrs1) (loc_of_shr_record mrs1) = m).
  { intros -> S. fold d in S.
    rewrite (shr_fexp_short m e loc_Exact Hm ltac:(lia) S) in E1.
    injection E1 as <- _. reflexivity. }
  set (m2 := round_nearest_even (shr_m mrs1) (loc_of_shr_record mrs1)) in *.
  assert (0 < 2 ^ (d1 - 1)) by (apply Z.pow_pos_nonneg; lia).
  assert (Hm2 : 0 < m2) by lia.
  destruct (Z_lt_le_dec m2 (2 ^ d1)) as [C|C].
  - (* no carry *)
    assert (D2 : Zdigits2 m2 = d1) by (apply digits_unique; lia).
    destruct (shr_fexp_spec m2 (e + k1) loc_Exact Hm2 ltac:(lia)) as (mrs2 & E2 & M2).
    rewrite E2, M2, D2. replace (Z.max 0 (d1 - 53)) with 0 by lia.
    rewrite Z.pow_0_r, Z.div_1_r, Z.add_0_r.
    destruct m2 as [|p2|p2] eqn:Q; try lia.
    exists p2, (e + k1).
    replace (e + k1 <=? 1024 - 53) with true by (symmetry; apply Z.leb_le; lia).
    split; [reflexivity|]. rewrite D2.
    split; [lia|]. split; [lia|]. split; [lia|].
    replace (e + k1 - e - k1) with 0 by lia. rewrite Z.pow_0_r, Z.mul_1_r.
    rewrite <- M1. split; [lia|].
    intros L S. specialize (X L S). split; [lia|exact X].
  - (* carry: the rounded mantissa is a power of two *)
    assert (E : m2 = 2 ^ d1) by lia.
    assert (D2 : Zdigits2 m2 = d1 + 1).
    { apply digits_unique; [lia|]. replace (d1 + 1 - 1) with d1 by lia.
      rewrite E. split; [lia|]. apply Z.pow_lt_mono_r; lia. }
    destruct (shr_fexp_spec m2 (e + k1) loc_Exact Hm2 ltac:(lia)) as (mrs2 & E2 & M2).
    rewrite E2, M2, D2.
    set (k2 := Z.max 0 (d1 + 1 - 53)).
    assert (K2 : 0 <= k2 <= 1) by lia.
    assert (B3 : 2 ^ (d1 + 1 - 1 - k2) <= m2 / 2 ^ k2 < 2 ^ (d1 + 1 - k2)).
    { apply div_pow2_bounds; [lia|]. replace (d1 + 1 - 1) with d1 by lia.
      rewrite E. split; [lia|]. apply Z.pow_lt_mono_r; lia. }
    assert (0 < 2 ^ (d1 + 1 - 1 - k2)) by (apply Z.pow_pos_nonneg; lia).
    assert (D3 : Zdigits2 (m2 / 2 ^ k2) = d1 + 1 - k2).
    { apply digits_unique; [lia|].
      replace (d1 + 1 - k2 - 1) with (d1 + 1 - 1 - k2) by lia. exact B3. }
    assert (X2 : m2 / 2 ^ k2 * 2 ^ k2 = m2).
    { rewrite E. replace d1 with (d1 - k2 + k2) at 1 by lia.
      rewrite Z.pow_add_r by lia.
      rewrite Z.div_mul by (apply Z.pow_nonzero; lia).
      rewrite <- Z.pow_add_r by lia. f_equal. lia. }
    destruct (m2 / 2 ^ k2) as [|p3|p3] eqn:M3; try lia.
    exists p3, (e + k1 + k2).
    replace (e + k1 + k2 <=? 1024 - 53) with true by (symmetry; apply Z.leb_le; lia).
    split; [reflexivity|]. rewrite D3.
    split; [lia|]. split; [lia|]. split; [lia|].
    replace (e + k1 + k2 - e - k1) with k2 by lia. rewrite X2, <- M1.
    split; [lia|].
    intros L S. specialize (X L S). exfalso. 
    assert (k1 = 0) by lia. 
    assert (m < 2 ^ d1) by (unfold d1; replace (d - k1) with d by lia; lia).
    lia.
Qed.

(** ** Values *)

Lemma pow2_pos e : (0 < pow2 e)%Q.
Proof. unfold pow2. now apply Qpower_0_lt. Qed.

Lemma pow2_add x y : (pow2 (x + y) == pow2 x * pow2 y)%Q.
Proof. unfold pow2. now apply Qpower_plus. Qed.

Lemma pow2_inject n : 0 <= n -> (pow2 n == inject_Z (2 ^ n))%Q.
Proof. intros H. unfold pow2. now rewrite Zpower_Qpower. Qed.

Lemma pow2_0 : (pow2 0 == 1)%Q.
Proof. reflexivity. Qed.

(** An integer mantissa shifted to a larger exponent. *)
Lemma pow2_shift m e j :
  0 <= j -> (inject_Z m * pow2 (e + j) == inject_Z (m * 2 ^ j) * pow2 e)%Q.
Proof.
  intros H. rewrite pow2_add, inject_Z_mult, (pow2_inject j H). ring.
Qed.

Lemma inject_Z_le x y : x <= y -> (inject_Z x <= inject_Z y)%Q.
Proof. now rewrite <- Zle_Qle. Qed.

Lemma inject_Z_lt x y : x < y -> (inject_Z x < inject_Z y)%Q.
Proof. now rewrite <- Zlt_Qlt. Qed.

(** Rounding to nearest moves a value [V], known between [m × 2^e] and
    [(m + 1) × 2^e], by at most [2^-52 V], provided [m] has 53 digits or
    more, or is the exact value. *)
Lemma round_aux_Q sx m e l (V : Q) :
  0 < m -> -1021 <= Zdigits2 m + e <= 900 ->
  (inject_Z m * pow2 e <= V)%Q -> (V <= (inject_Z m + 1) * pow2 e)%Q ->
  (l = loc_Exact /\ (V == inject_Z m * pow2 e)%Q) \/ 53 <= Zdigits2 m ->
  exists m' e',
    binary_round_aux 53 1024 sx m e l = S754_finite sx m' e' /\
    Zdigits2 (Z.pos m') <= 53 /\
    Zdigits2 m + e <= Zdigits2 (Z.pos m') + e' <= Zdigits2 m + e + 1 /\
    ((1 - eps) * V <= inject_Z (Z.pos m') * pow2 e')%Q /\
    (inject_Z (Z.pos m') * pow2 e' <= (1 + eps) * V)%Q /\
    (l = loc_Exact -> Zdigits2 m <= 53 ->
     (inject_Z (Z.pos m') * pow2 e' == inject_Z m * pow2 e)%Q).
Proof.
  intros Hm HD VL VU C.
  destruct (round_aux_val sx m e l Hm HD) as (m' & e' & E & D' & M & K & T & X).
  exists m', e'. split; [exact E|]. split; [exact D'|]. split; [exact M|].
  assert (XQ : l = loc_Exact -> Zdigits2 m <= 53 ->
               (inject_Z (Z.pos m') * pow2 e' == inject_Z m * pow2 e)%Q).
  { intros L S. destruct (X L S) as [-> ->]. reflexivity. }
  assert (EP : (0 < eps)%Q) by reflexivity.
  pose proof (pow2_pos e) as Pe.
  assert (V0 : (0 < V)%Q).
  { assert (0 < inject_Z m)%Q by (now apply (inject_Z_lt 0 m)). nra. }
  destruct (Z_lt_le_dec (Zdigits2 m) 53) as [S|S].
  - (* short and exact *)
    destruct C as [[L EV]|C]; [|lia].
    specialize (XQ L ltac:(lia)). rewrite XQ, <- EV.
    split; [|split; [|intros; reflexivity]]; nra.
  - set (k := Z.max 0 (Zdigits2 m - 53)) in *.
    assert (Hk : 0 <= k) by lia.
    assert (P2 : 0 < 2 ^ k) by (apply Z.pow_pos_nonneg; lia).
    set (m1 := m / 2 ^ k) in *.
    pose proof (digits_bounds m Hm) as Bm.
    assert (B1 : 2 ^ 52 <= m1).
    { unfold m1. apply Z.div_le_lower_bound; [lia|].
      rewrite <- Z.pow_add_r by lia.
      apply Z.le_trans with (2 ^ (Zdigits2 m - 1)); [|lia].
      apply Z.pow_le_mono_r; lia. }
    assert (Fl : m1 * 2 ^ k <= m < (m1 + 1) * 2 ^ k).
    { unfold m1. pose proof (Z.div_mod m (2 ^ k) ltac:(lia)).
      pose proof (Z.mod_pos_bound m (2 ^ k) P2). lia. }
    set (j := e' - e - k) in *.
    assert (Hj : 0 <= j) by lia.
    assert (R : (inject_Z (Z.pos m') * pow2 e'
                 == inject_Z (Z.pos m' * 2 ^ j) * pow2 (e + k))%Q).
    { replace e' with (e + k + j) by (unfold j; lia). now apply pow2_shift. }
    pose proof (pow2_pos (e + k)) as Pu.
    set (ulp := pow2 (e + k)) in *.
    assert (Lo : (inject_Z m1 * ulp <= V)%Q).
    { apply Qle_trans with (inject_Z m * pow2 e)%Q; [|exact VL].
      unfold ulp. rewrite pow2_shift by exact Hk.
      apply Qmult_le_compat_r; [apply inject_Z_le; lia|now apply Qlt_le_weak]. }
    assert (Hi : (V <= (inject_Z m1 + 1) * ulp)%Q).
    { apply Qle_trans with ((inject_Z m + 1) * pow2 e)%Q; [exact VU|].
      change 1%Q with (inject_Z 1). rewrite <- !inject_Z_plus.
      unfold ulp. rewrite pow2_shift by exact Hk.
      apply Qmult_le_compat_r; [apply inject_Z_le; lia|now apply Qlt_le_weak]. }
    assert (Big : (inject_Z (2 ^ 52) <= inject_Z m1)%Q) by (now apply inject_Z_le).
    change (inject_Z (2 ^ 52)) with (4503599627370496 # 1)%Q in Big.
    assert (Tq : (inject_Z (Z.pos m' * 2 ^ j) == inject_Z m1)%Q \/
                 (inject_Z (Z.pos m' * 2 ^ j) == inject_Z m1 + 1)%Q).
    { destruct T as [T|T]; rewrite T; [now left|right].
      now rewrite inject_Z_plus. }
    unfold eps.
    split; [|split; [|exact XQ]]; rewrite R;
      destruct Tq as [Tq|Tq]; rewrite Tq; nra.
Qed.

(** ** The operations of [Share], with their errors *)

Lemma iter_xO_val d : forall m, Z.pos (Pos.iter xO m d) = Z.pos m * 2 ^ Z.pos d.
Proof.
  induction d as [|d IH] using Pos.peano_ind; intros m.
  - simpl. lia.
  - rewrite Pos.iter_succ, Pos2Z.inj_xO, IH, Pos2Z.inj_succ, Z.pow_succ_r by lia.
    lia.
Qed.

Lemma shl_align_val mx ex ex' :
  (inject_Z (Z.pos (fst (shl_align mx ex ex'))) * pow2 (snd (shl_align mx ex ex'))
   == inject_Z (Z.pos mx) * pow2 ex)%Q.
Proof.
  unfold shl_align. destruct (ex' - ex) as [|d|d] eqn:K; cbn [fst snd];
    try reflexivity.
  rewrite iter_xO_val. replace ex with (ex' + Z.pos d) by lia.
  rewrite pow2_shift by lia. reflexivity.
Qed.

Lemma Zdigits2_abs z : Zdigits2 (Z.abs z) = Zdigits2 z.
Proof. destruct z; reflexivity. Qed.

(** [float64(z)]: within [2^-52 |z|] of [z], and exact below [2^53]. *)
Lemma of_Z_Q z :
  z <> 0 -> Z.abs z < 2 ^ 64 ->
  exists m e,
    F64.of_Z z = S754_finite (z <? 0) m e /\
    Zdigits2 (Z.pos m) <= 53 /\
    Zdigits2 z <= Zdigits2 (Z.pos m) + e <= Zdigits2 z + 1 /\
    ((1 - eps) * inject_Z (Z.abs z) <= inject_Z (Z.pos m) * pow2 e)%Q /\
    (inject_Z (Z.pos m) * pow2 e <= (1 + eps) * inject_Z (Z.abs z))%Q /\
    (Z.abs z < 2 ^ 53 -> (inject_Z (Z.pos m) * pow2 e == inject_Z (Z.abs z))%Q).
Proof.
  intros NZ B.
  assert (G : forall sx p, Z.pos p < 2 ^ 64 ->
            exists m e,
              binary_round 53 1024 sx p 0 = S754_finite sx m e /\
              Zdigits2 (Z.pos m) <= 53 /\
              Zdigits2 (Z.pos p) <= Zdigits2 (Z.pos m) + e <= Zdigits2 (Z.pos p) + 1 /\
              ((1 - eps) * inject_Z (Z.pos p) <= inject_Z (Z.pos m) * pow2 e)%Q /\
              (inject_Z (Z.pos m) * pow2 e <= (1 + eps) * inject_Z (Z.pos p))%Q /\
              (Z.pos p < 2 ^ 53 ->
               (inject_Z (Z.pos m) * pow2 e == inject_Z (Z.pos p))%Q)).
  { intros sx p Hp. unfold binary_round.
    pose proof (shl_align_mag p 0 (fexp 53 1024 (Z.pos (digits2_pos p) + 0))) as A.
    pose proof (shl_align_val p 0 (fexp 53 1024 (Z.pos (digits2_pos p) + 0))) as Vq.
    assert (Dz : Zdigits2 (Z.pos p) <= 53 ->
                 Zdigits2 (Z.pos (fst (shl_align p 0 (fexp 53 1024 (Z.pos (digits2_pos p) + 0))))) <= 53).
    { intros S. unfold shl_align.
      change (Z.pos (digits2_pos p)) with (Zdigits2 (Z.pos p)).
      rewrite fexp_normal by (pose proof (digits_pos (Z.pos p)); lia).
      destruct (Zdigits2 (Z.pos p) + 0 - 53 - 0) as [|d|d] eqn:K; cbn [fst];
        try exact S.
      change (Zdigits2 (Z.pos (Pos.iter xO p d)))
        with (Z.pos (digits2_pos (Pos.iter xO p d))).
      rewrite iter_xO_digits.
      change (Z.pos (digits2_pos p + d)) with (Zdigits2 (Z.pos p) + Z.pos d). lia. }
    destruct (shl_align p 0 _) as [mz ez]. cbn [fst snd] in A, Vq, Dz.
    rewrite pow2_0, Qmult_1_r in Vq.
    pose proof (digits_pos (Z.pos p) ltac:(lia)).
    assert (Zdigits2 (Z.pos p) <= 64) by (apply digits_le; lia).
    assert (R2 : -1021 <= Zdigits2 (Z.pos mz) + ez <= 900) by lia.
    destruct (round_aux_Q sx (Z.pos mz) ez loc_Exact (inject_Z (Z.pos p)))
      as (m' & e' & E & D' & M & Lo & Hi & X); try lia.
    - rewrite Vq. apply Qle_refl.
    - rewrite <- Vq. pose proof (pow2_pos ez). nra.
    - left. split; [reflexivity|now rewrite Vq].
    - exists m', e'. split; [exact E|]. split; [exact D'|]. split; [lia|].
      split; [exact Lo|]. split; [exact Hi|].
      intros S. rewrite X, Vq; [reflexivity|reflexivity|].
      apply Dz, digits_le; lia. }
  unfold F64.of_Z, binary_normalize, F64.prec, F64.emax.
  destruct z as [|p|p]; [congruence| |].
  - apply (G false p). exact B.
  - apply (G true p). exact B.
Qed.

Lemma Fabs_finite s m e : Fabs (S754_finite s m e) = (inject_Z (Z.pos m) * pow2 e)%Q.
Proof. reflexivity. Qed.

Lemma Fabs_pos f : finite f -> (0 < Fabs f)%Q.
Proof.
  destruct f as [| | |s m e]; try contradiction. intros _. rewrite Fabs_finite.
  pose proof (pow2_pos e). assert (0 < inject_Z (Z.pos m))%Q by reflexivity. nra.
Qed.

(** The product: within [2^-52] of the exact product. *)
Lemma mul_Q x y :
  finite x -> finite y ->
  -400 <= mag x <= 400 -> -400 <= mag y <= 400 ->
  finite (F64.mul x y) /\
  mag x + mag y - 1 <= mag (F64.mul x y) <= mag x + mag y + 1 /\
  ((1 - eps) * (Fabs x * Fabs y) <= Fabs (F64.mul x y))%Q /\
  (Fabs (F64.mul x y) <= (1 + eps) * (Fabs x * Fabs y))%Q /\
  sign_of (F64.mul x y) = xorb (sign_of x) (sign_of y).
Proof.
  destruct x as [| | |sx mx ex], y as [| | |sy my ey]; try contradiction.
  intros Fx Fy Bx By. cbn [finite mag sign_of] in *.
  unfold F64.mul, SFmul, F64.prec, F64.emax.
  assert (Dm : Zdigits2 (Z.pos mx) + Zdigits2 (Z.pos my) - 1
               <= Zdigits2 (Z.pos (mx * my))
               <= Zdigits2 (Z.pos mx) + Zdigits2 (Z.pos my)).
  { rewrite !Zdigits2_log2 by lia. rewrite Pos2Z.inj_mul.
    pose proof (Z.log2_mul_below (Z.pos mx) (Z.pos my) ltac:(lia) ltac:(lia)).
    pose proof (Z.log2_mul_above (Z.pos mx) (Z.pos my) ltac:(lia) ltac:(lia)).
    lia. }
  assert (V : (inject_Z (Z.pos (mx * my)) * pow2 (ex + ey)
               == inject_Z (Z.pos mx) * pow2 ex * (inject_Z (Z.pos my) * pow2 ey))%Q).
  { rewrite Pos2Z.inj_mul, inject_Z_mult, pow2_add. ring. }
  destruct (round_aux_Q (xorb sx sy) (Z.pos (mx * my)) (ex + ey) loc_Exact
              (inject_Z (Z.pos mx) * pow2 ex * (inject_Z (Z.pos my) * pow2 ey)))
    as (m' & e' & E & D' & M & Lo & Hi & _); try lia.
  - rewrite V. apply Qle_refl.
  - rewrite <- V. pose proof (pow2_pos (ex + ey)). nra.
  - left. split; [reflexivity|now rewrite V].
  - rewrite E. cbn [finite mag Fabs sign_of]. split; [exact D'|]. split; [lia|].
    split; [exact Lo|]. split; [exact Hi|]. reflexivity.
Qed.

(** The quotient [r] of [x] by [y]: [r × |y|] is within [2^-52 |x|] of
    [|x|]. *)
Lemma div_Q x y :
  finite x -> finite y ->
  -400 <= mag x <= 400 -> -400 <= mag y <= 400 ->
  finite (F64.div x y) /\
  mag x - mag y <= mag (F64.div x y) <= mag x - mag y + 2 /\
  ((1 - eps) * Fabs x <= Fabs (F64.div x y) * Fabs y)%Q /\
  (Fabs (F64.div x y) * Fabs y <= (1 + eps) * Fabs x)%Q /\
  sign_of (F64.div x y) = xorb (sign_of x) (sign_of y).
Proof.
  intros Fx Fy. pose proof (Fabs_pos x Fx) as Px. pose proof (Fabs_pos y Fy) as Py.
  revert Px Py.
  destruct x as [| | |sx mx ex], y as [| | |sy my ey]; try contradiction.
  intros Px Py Bx By. cbn [finite mag sign_of] in *.
  unfold F64.div, SFdiv, SFdiv_core_binary, F64.prec, F64.emax.
  set (d1 := Zdigits2 (Z.pos mx)) in *. set (d2 := Zdigits2 (Z.pos my)) in *.
  rewrite fexp_normal by lia.
  set (e' := Z.min (d1 + ex - (d2 + ey) - 53) (ex - ey)).
  set (s := ex - ey - e').
  assert (Hs : 0 <= s /\ d2 - d1 + 53 <= s) by (unfold s, e'; lia).
  set (m' := match s with Z.pos _ => Z.shiftl (Z.pos mx) s | 0 => Z.pos mx | Z.neg _ => 0 end).
  assert (Em : m' = Z.pos mx * 2 ^ s).
  { unfold m'. destruct s as [|p|p] eqn:S; [lia| |lia].
    apply Z.shiftl_mul_pow2. lia. }
  pose proof (digits_pos (Z.pos mx) ltac:(lia)) as P1. fold d1 in P1.
  pose proof (digits_pos (Z.pos my) ltac:(lia)) as P2. fold d2 in P2.
  assert (0 < 2 ^ s) by (apply Z.pow_pos_nonneg; lia).
  assert (Hm' : 0 < m') by nia.
  assert (Dm' : Zdigits2 m' = d1 + s) by (rewrite Em; apply digits_mul_pow2; lia).
  pose proof (digits_bounds m' Hm') as Bm'. rewrite Dm' in Bm'.
  pose proof (digits_bounds (Z.pos my) ltac:(lia)) as Bmy. fold d2 in Bmy.
  set (k := d1 + s - d2) in *.
  assert (Q : 2 ^ (k - 1) <= m' / Z.pos my < 2 ^ (k + 1)).
  { assert (0 < 2 ^ (k - 1)) by (apply Z.pow_pos_nonneg; lia).
    assert (0 < 2 ^ (d2 - 1)) by (apply Z.pow_pos_nonneg; lia).
    split.
    - apply Z.div_le_lower_bound; [lia|].
      assert (2 ^ d2 * 2 ^ (k - 1) = 2 ^ (d1 + s - 1)).
      { rewrite <- Z.pow_add_r by lia. f_equal. lia. }
      nia.
    - apply Z.div_lt_upper_bound; [lia|].
      assert (2 ^ (d2 - 1) * 2 ^ (k + 1) = 2 ^ (d1 + s)).
      { rewrite <- Z.pow_add_r by lia. f_equal. lia. }
      assert (0 < 2 ^ (k + 1)) by (apply Z.pow_pos_nonneg; lia).
      nia. }
  pose proof (Z.div_mod m' (Z.pos my) ltac:(lia)) as DM.
  pose proof (Z.mod_pos_bound m' (Z.pos my) ltac:(lia)) as MB.
  unfold Z.div, Z.modulo in Q, DM, MB.
  destruct (Z.div_eucl m' (Z.pos my)) as [q r].
  assert (0 < 2 ^ (k - 1)) by (apply Z.pow_pos_nonneg; lia).
  assert (Hq : 0 < q) by lia.
  assert (Dq : k <= Zdigits2 q <= k + 1).
  { split; [apply digits_ge; lia|apply digits_le; lia]. }
  (* the exact quotient, in units of [2^e'] *)
  assert (Ex : (inject_Z (Z.pos mx) * pow2 ex
                == inject_Z m' * pow2 e' * pow2 ey)%Q).
  { rewrite Em. replace ex with (e' + ey + s) by (unfold s; lia).
    rewrite pow2_shift by lia. rewrite pow2_add. ring. }
  pose proof (pow2_pos e') as Pe'. pose proof (pow2_pos ey) as Pey.
  assert (Pmy : (0 < inject_Z (Z.pos my))%Q) by reflexivity.
  assert (QL : (inject_Z q * inject_Z (Z.pos my) <= inject_Z m')%Q).
  { rewrite <- inject_Z_mult. apply inject_Z_le. lia. }
  assert (QU : (inject_Z m' <= (inject_Z q + 1) * inject_Z (Z.pos my))%Q).
  { change 1%Q with (inject_Z 1). rewrite <- inject_Z_plus, <- inject_Z_mult.
    apply inject_Z_le. nia. }
  set (V := (inject_Z (Z.pos mx) * pow2 ex / (inject_Z (Z.pos my) * pow2 ey))%Q).
  assert (Pd : (0 < inject_Z (Z.pos my) * pow2 ey)%Q) by nra.
  assert (VY : (V * (inject_Z (Z.pos my) * pow2 ey) == inject_Z (Z.pos mx) * pow2 ex)%Q).
  { unfold V, Qdiv. rewrite <- Qmult_assoc, (Qmult_comm (/ _)), Qmult_inv_r.
    - apply Qmult_1_r.
    - intros Z0. rewrite Z0 in Pd. now apply Qlt_irrefl in Pd. }
  destruct (round_aux_Q (xorb sx sy) q e' (new_location (Z.pos my) r) V)
    as (m'' & e'' & E & D' & M & Lo & Hi & _); try lia.
  - unfold V. apply Qle_shift_div_l; [exact Pd|]. rewrite Ex.
    setoid_replace (inject_Z q * pow2 e' * (inject_Z (Z.pos my) * pow2 ey))%Q
      with (inject_Z q * inject_Z (Z.pos my) * (pow2 e' * pow2 ey))%Q using relation Qeq by ring.
    setoid_replace (inject_Z m' * pow2 e' * pow2 ey)%Q
      with (inject_Z m' * (pow2 e' * pow2 ey))%Q using relation Qeq by ring.
    apply Qmult_le_compat_r; [exact QL|nra].
  - unfold V. apply Qle_shift_div_r; [exact Pd|]. rewrite Ex.
    setoid_replace ((inject_Z q + 1) * pow2 e' * (inject_Z (Z.pos my) * pow2 ey))%Q
      with ((inject_Z q + 1) * inject_Z (Z.pos my) * (pow2 e' * pow2 ey))%Q using relation Qeq by ring.
    setoid_replace (inject_Z m' * pow2 e' * pow2 ey)%Q
      with (inject_Z m' * (pow2 e' * pow2 ey))%Q using relation Qeq by ring.
    apply Qmult_le_compat_r; [exact QU|nra].
  - rewrite E. cbn [finite mag Fabs sign_of]. split; [exact D'|].
    split; [unfold k, s in *; lia|].
    rewrite <- VY.
    split; [|split; [|reflexivity]]; nra.
Qed.

Lemma pow2_opp e : (pow2 e * pow2 (- e) == 1)%Q.
Proof. rewrite <- pow2_add. replace (e + - e) with 0 by lia. reflexivity. Qed.

Lemma inject_Z_inj x y : (inject_Z x == inject_Z y)%Q -> x = y.
Proof. unfold Qeq. simpl. lia. Qed.

(** The integer part of [m × 2^e]. *)
Lemma floor_val m e :
  0 <= m ->
  let t := if 0 <=? e then m * 2 ^ e else m / 2 ^ (- e) in
  0 <= t /\ (inject_Z t <= inject_Z m * pow2 e)%Q /\
  (inject_Z m * pow2 e < inject_Z t + 1)%Q.
Proof.
  intros Hm t. unfold t. destruct (Z.leb_spec 0 e) as [L|L].
  - assert (0 < 2 ^ e) by (apply Z.pow_pos_nonneg; lia).
    split; [nia|]. rewrite inject_Z_mult, (pow2_inject e L). split; lra.
  - set (k := - e) in *. assert (Hk : 0 < k) by (unfold k; lia).
    assert (P : 0 < 2 ^ k) by (apply Z.pow_pos_nonneg; lia).
    pose proof (Z.div_mod m (2 ^ k) ltac:(lia)) as DM.
    pose proof (Z.mod_pos_bound m (2 ^ k) P) as MB.
    set (q := m / 2 ^ k) in *.
    assert (Hq : 0 <= q) by (apply Z.div_pos; lia).
    split; [exact Hq|].
    pose proof (pow2_pos e) as Pe. pose proof (pow2_opp e) as O. fold k in O.
    rewrite (pow2_inject k ltac:(lia)) in O.
    assert (A1 : (inject_Z (q * 2 ^ k) <= inject_Z m)%Q) by (apply inject_Z_le; lia).
    assert (A2 : (inject_Z m < inject_Z ((q + 1) * 2 ^ k))%Q) by (apply inject_Z_lt; lia).
    rewrite inject_Z_mult in A1, A2. rewrite inject_Z_plus in A2.
    change (inject_Z 1) with 1%Q in A2.
    assert (PK : (0 < inject_Z (2 ^ k))%Q) by (now apply (inject_Z_lt 0)).
    set (K := inject_Z (2 ^ k)) in *. set (E := pow2 e) in *.
    set (M := inject_Z m) in *. set (T := inject_Z q) in *.
    assert (X1 : (T * K * E <= M * E)%Q) by (apply Qmult_le_compat_r; lra).
    assert (X2 : (M * E < (T + 1) * K * E)%Q) by (apply Qmult_lt_compat_r; lra).
    assert (X3 : (T * K * E == T)%Q).
    { rewrite <- Qmult_assoc, (Qmult_comm K), O. ring. }
    assert (X4 : ((T + 1) * K * E == T + 1)%Q).
    { rewrite <- Qmult_assoc, (Qmult_comm K), O. ring. }
    rewrite X3 in X1. rewrite X4 in X2. split; assumption.
Qed.

(** Small integers go through [float64] unchanged. *)
Lemma to_int_of_Z z : Z.abs z < 2 ^ 53 -> F64.to_int (F64.of_Z z) = z.
Proof.
  intros B. destruct (Z.eq_dec z 0) as [->|NZ]; [reflexivity|].
  destruct (of_Z_Q z NZ ltac:(lia)) as (m & e & E & D & M & _ & _ & X).
  specialize (X B). rewrite E. unfold F64.to_int.
  destruct (floor_val (Z.pos m) e ltac:(lia)) as (T0 & T1 & T2).
  set (t := if 0 <=? e then Z.pos m * 2 ^ e else Z.pos m / 2 ^ (- e)) in *.
  assert (St : (if 0 <=? e then Z.shiftl (Z.pos m) e else Z.shiftr (Z.pos m) (- e)) = t).
  { unfold t. destruct (Z.leb_spec 0 e).
    - apply Z.shiftl_mul_pow2. lia.
    - apply Z.shiftr_div_pow2. lia. }
  rewrite St. rewrite X in T1, T2.
  assert (t = Z.abs z).
  { rewrite <- Zle_Qle in T1. change 1%Q with (inject_Z 1) in T2.
    rewrite <- inject_Z_plus, <- Zlt_Qlt in T2. lia. }
  assert (V : cond_Zopp (z <? 0) t = z).
  { unfold cond_Zopp. destruct (Z.ltb_spec z 0); lia. }
  rewrite V.
  replace (is_intb z) with true; [reflexivity|].
  symmetry. apply is_intb_spec. unfold is_int. lia.
Qed.

(** [int(math.Trunc(f))] is the integer part of [f], with its sign. *)
Lemma Trunc_to_int_val s m e :
  Zdigits2 (Z.pos m) <= 53 -> Zdigits2 (Z.pos m) + e <= 62 ->
  exists t,
    F64.to_int (F64.Trunc (S754_finite s m e)) = cond_Zopp s t /\
    0 <= t /\ (inject_Z t <= inject_Z (Z.pos m) * pow2 e)%Q /\
    (inject_Z (Z.pos m) * pow2 e < inject_Z t + 1)%Q.
Proof.
  intros D M.
  destruct (floor_val (Z.pos m) e ltac:(lia)) as (T0 & T1 & T2).
  set (t := if 0 <=? e then Z.pos m * 2 ^ e else Z.pos m / 2 ^ (- e)) in *.
  exists t. split; [|split; [exact T0|split; assumption]].
  pose proof (digits_bounds (Z.pos m) ltac:(lia)) as [_ U].
  pose proof (digits_pos (Z.pos m) ltac:(lia)) as P.
  unfold F64.Trunc, t. destruct (Z.leb_spec 0 e) as [L|L].
  - unfold F64.to_int. replace (0 <=? e) with true by (symmetry; apply Z.leb_le; lia).
    rewrite Z.shiftl_mul_pow2 by lia.
    assert (0 < 2 ^ e) by (apply Z.pow_pos_nonneg; lia).
    assert (Z.pos m * 2 ^ e < 2 ^ 62).
    { apply Z.lt_le_trans with (2 ^ Zdigits2 (Z.pos m) * 2 ^ e); [nia|].
      rewrite <- Z.pow_add_r by lia. apply Z.pow_le_mono_r; lia. }
    replace (is_intb (cond_Zopp s (Z.pos m * 2 ^ e))) with true; [reflexivity|].
    symmetry. apply is_intb_spec. unfold is_int, cond_Zopp. destruct s; lia.
  - rewrite Z.shiftr_div_pow2 by lia.
    assert (0 < 2 ^ (- e)) by (apply Z.pow_pos_nonneg; lia).
    set (q := Z.pos m / 2 ^ (- e)) in *.
    assert (Hq : 0 <= q < 2 ^ 53).
    { split; [apply Z.div_pos; lia|].
      apply Z.le_lt_trans with (Z.pos m); [apply Z.div_le_upper_bound; nia|].
      apply Z.lt_le_trans with (2 ^ Zdigits2 (Z.pos m)); [lia|].
      apply Z.pow_le_mono_r; lia. }
    destruct (Z.eq_dec q 0) as [Q0|NZ].
    + rewrite Q0. destruct s; reflexivity.
    + assert (NZ' : cond_Zopp s q <> 0) by (unfold cond_Zopp; destruct s; lia).
      rewrite (binary_normalize_nonzero _ s NZ').
      apply to_int_of_Z. unfold cond_Zopp. destruct s; lia.
Qed.

(** ** The error of one truncated share *)

Lemma Qmul_mono_l (x y z : Q) : (0 <= x)%Q -> (y <= z)%Q -> (x * y <= x * z)%Q.
Proof. intros. nra. Qed.

Lemma Qmul_mono_r (x y z : Q) : (0 <= x)%Q -> (y <= z)%Q -> (y * x <= z * x)%Q.
Proof. intros. nra. Qed.

(** Four roundings, each of relative error at most [u], on the way from
    [W × A / S] to the product [P]. *)
Lemma share_error_chain (u P r fw fs fa W S A : Q) :
  (0 <= u)%Q -> (u < 1)%Q ->
  (0 <= P)%Q -> (0 <= r)%Q -> (0 <= W)%Q -> (0 <= S)%Q -> (0 <= A)%Q ->
  ((1 - u) * W <= fw)%Q -> (fw <= (1 + u) * W)%Q ->
  ((1 - u) * S <= fs)%Q -> (fs <= (1 + u) * S)%Q ->
  ((1 - u) * A <= fa)%Q -> (fa <= (1 + u) * A)%Q ->
  ((1 - u) * fw <= r * fs)%Q -> (r * fs <= (1 + u) * fw)%Q ->
  ((1 - u) * (r * fa) <= P)%Q -> (P <= (1 + u) * (r * fa))%Q ->
  (P * ((1 - u) * S) <= (1 + u) * (1 + u) * ((1 + u) * (1 + u)) * (W * A))%Q /\
  ((1 - u) * (1 - u) * ((1 - u) * (1 - u)) * (W * A) <= P * ((1 + u) * S))%Q.
Proof.
  intros U0 U1 P0 R0 W0 S0 A0 W1 W2 S1 S2 A1 A2 D1 D2 M1 M2.
  assert (Up : (0 <= 1 + u)%Q) by lra.
  assert (Um : (0 <= 1 - u)%Q) by lra.
  assert (FA0 : (0 <= fa)%Q).
  { apply Qle_trans with ((1 - u) * A)%Q; [|exact A1]. now apply Qmult_le_0_compat. }
  assert (X1 : (r * ((1 - u) * S) <= (1 + u) * ((1 + u) * W))%Q).
  { apply Qle_trans with (r * fs)%Q; [now apply Qmul_mono_l|].
    apply Qle_trans with ((1 + u) * fw)%Q; [exact D2|]. now apply Qmul_mono_l. }
  assert (X2 : ((1 - u) * ((1 - u) * W) <= r * ((1 + u) * S))%Q).
  { apply Qle_trans with ((1 - u) * fw)%Q; [now apply Qmul_mono_l|].
    apply Qle_trans with (r * fs)%Q; [exact D1|]. now apply Qmul_mono_l. }
  assert (SP : (0 <= (1 + u) * S)%Q) by (now apply Qmult_le_0_compat).
  assert (SM : (0 <= (1 - u) * S)%Q) by (now apply Qmult_le_0_compat).
  assert (WP : (0 <= (1 + u) * ((1 + u) * W))%Q) by (repeat apply Qmult_le_0_compat; assumption).
  assert (WM : (0 <= (1 - u) * ((1 - u) * W))%Q) by (repeat apply Qmult_le_0_compat; assumption).
  split.
  - apply Qle_trans with ((1 + u) * (r * fa) * ((1 - u) * S))%Q;
      [now apply Qmul_mono_r|].
    setoid_replace ((1 + u) * (r * fa) * ((1 - u) * S))%Q
      with ((1 + u) * fa * (r * ((1 - u) * S)))%Q using relation Qeq by ring.
    setoid_replace ((1 + u) * (1 + u) * ((1 + u) * (1 + u)) * (W * A))%Q
      with ((1 + u) * ((1 + u) * A) * ((1 + u) * ((1 + u) * W)))%Q
      using relation Qeq by ring.
    apply Qle_trans with ((1 + u) * fa * ((1 + u) * ((1 + u) * W)))%Q.
    + apply Qmul_mono_l; [now apply Qmult_le_0_compat|exact X1].
    + apply Qmul_mono_r; [exact WP|]. now apply Qmul_mono_l.
  - apply Qle_trans with ((1 - u) * (r * fa) * ((1 + u) * S))%Q;
      [|now apply Qmul_mono_r].
    setoid_replace ((1 - u) * (r * fa) * ((1 + u) * S))%Q
      with ((1 - u) * fa * (r * ((1 + u) * S)))%Q using relation Qeq by ring.
    setoid_replace ((1 - u) * (1 - u) * ((1 - u) * (1 - u)) * (W * A))%Q
      with ((1 - u) * ((1 - u) * A) * ((1 - u) * ((1 - u) * W)))%Q
      using relation Qeq by ring.
    apply Qle_trans with ((1 - u) * fa * ((1 - u) * ((1 - u) * W)))%Q.
    + apply Qmul_mono_r; [exact WM|]. now apply Qmul_mono_l.
    + apply Qmul_mono_l; [now apply Qmult_le_0_compat|exact X2].
Qed.

(** The two constants: four roundings stay within [2^-49]. *)
Lemma eps_upper :
  ((1 + eps) * (1 + eps) * ((1 + eps) * (1 + eps))
   <= (1 + (1 # 562949953421312)) * (1 - eps))%Q.
Proof. vm_compute. discriminate. Qed.

Lemma eps_lower :
  ((1 - (1 # 562949953421312)) * (1 + eps)
   <= (1 - eps) * (1 - eps) * ((1 - eps) * (1 - eps)))%Q.
Proof. vm_compute. discriminate. Qed.

Lemma inject_Z_sub x y : inject_Z (x - y) = (inject_Z x - inject_Z y)%Q.
Proof. unfold Z.sub, Qminus. now rewrite inject_Z_plus, inject_Z_opp. Qed.

Lemma Qmul_cancel_l (x y z : Q) : (0 < x)%Q -> (y * x <= z * x)%Q -> (y <= z)%Q.
Proof. intros H L. now apply Qmult_le_r in L. Qed.

(** The truncated share of one party, against the exact share
    [w × A / s]: not below it by one unit or more, nor above it, up to
    [A / 2^49]. *)
Lemma truncated_share_accuracy w s A :
  0 <= w <= s -> 0 < s < 2 ^ 64 -> 0 <= A < 2 ^ 49 ->
  0 <= F64.to_int (F64.Trunc (F64.mul (F64.div (F64.of_Z w) (F64.of_Z s)) (F64.of_Z A))) /\
  - (w * A)
  <= 2 ^ 49 * (w * A - F64.to_int (F64.Trunc
                        (F64.mul (F64.div (F64.of_Z w) (F64.of_Z s)) (F64.of_Z A))) * s)
  < 2 ^ 49 * s + w * A.
Proof.
  intros Hw Hs HA.
  destruct (Z.eq_dec w 0) as [W0|NW]; [|destruct (Z.eq_dec A 0) as [A0|NA]].
  - subst w. rewrite truncated_zero.
    + lia.
    + apply ratio_zero_or_finite; [unfold is_uint|]; lia.
    + apply of_Z_zero_or_finite. lia.
    + left. change (F64.of_Z 0) with (S754_zero false).
      destruct (of_Z_mag s ltac:(lia) ltac:(lia)) as [Fs _].
      rewrite div_zero_l by exact Fs. eauto.
  - subst A. rewrite truncated_zero.
    + lia.
    + apply ratio_zero_or_finite; [unfold is_uint|]; lia.
    + exact I.
    + right. now exists false.
  - destruct (of_Z_Q w NW ltac:(lia)) as (mw & ew & Ew & Dw & Mw & Lw & Uw & _).
    destruct (of_Z_Q s ltac:(lia) ltac:(lia)) as (ms & es & Es & Ds & Ms & Ls & Us & _).
    destruct (of_Z_Q A NA ltac:(lia)) as (ma & ea & Ea & Da & Ma & La & Ua & _).
    replace (w <? 0) with false in Ew by (symmetry; apply Z.ltb_ge; lia).
    replace (s <? 0) with false in Es by (symmetry; apply Z.ltb_ge; lia).
    replace (A <? 0) with false in Ea by (symmetry; apply Z.ltb_ge; lia).
    rewrite (Z.abs_eq w) in Lw, Uw by lia. rewrite (Z.abs_eq s) in Ls, Us by lia.
    rewrite (Z.abs_eq A) in La, Ua by lia.
    pose proof (uint_digits w ltac:(lia)) as Gw. pose proof (uint_digits s Hs) as Gs.
    pose proof (uint_digits A ltac:(lia)) as Ga.
    assert (GA : Zdigits2 A <= 49) by (apply digits_le; lia).
    assert (Gws : Zdigits2 w <= Zdigits2 s).
    { rewrite !Zdigits2_log2 by lia. pose proof (Z.log2_le_mono w s ltac:(lia)). lia. }
    rewrite Ew, Es, Ea.
    destruct (div_Q (S754_finite false mw ew) (S754_finite false ms es))
      as (Fr & Mr & Lr & Ur & Sr); cbn [finite mag]; try lia.
    set (r := F64.div (S754_finite false mw ew) (S754_finite false ms es)) in *.
    cbn [mag] in Mr.
    destruct (mul_Q r (S754_finite false ma ea))
      as (Fp & Mp & Lp & Up & Sp); cbn [finite mag]; try assumption; try lia.
    set (p := F64.mul r (S754_finite false ma ea)) in *.
    cbn [sign_of xorb] in Sr. rewrite Sr in Sp. cbn [sign_of xorb] in Sp.
    cbn [mag] in Mr, Mp.
    destruct p as [| | |sp mp ep]; try contradiction.
    cbn [sign_of] in Sp. subst sp. cbn [finite mag] in Fp, Mp.
    destruct (Trunc_to_int_val false mp ep Fp ltac:(lia)) as (t & Et & T0 & T1 & T2).
    rewrite Et. cbn [cond_Zopp]. split; [exact T0|].
    rewrite !Fabs_finite in *.
    set (P := (inject_Z (Z.pos mp) * pow2 ep)%Q) in *.
    set (R := Fabs r) in *.
    set (FW := (inject_Z (Z.pos mw) * pow2 ew)%Q) in *.
    set (FS := (inject_Z (Z.pos ms) * pow2 es)%Q) in *.
    set (FA := (inject_Z (Z.pos ma) * pow2 ea)%Q) in *.
    assert (R0 : (0 <= R)%Q) by (apply Qlt_le_weak, Fabs_pos, Fr).
    assert (P0 : (0 <= P)%Q).
    { apply Qle_trans with (inject_Z t); [now apply (inject_Z_le 0)|exact T1]. }
    assert (QW : (0 < inject_Z w)%Q) by (apply (inject_Z_lt 0); lia).
    assert (QS : (0 < inject_Z s)%Q) by (apply (inject_Z_lt 0); lia).
    assert (QA : (0 < inject_Z A)%Q) by (apply (inject_Z_lt 0); lia).
    assert (QT : (0 <= inject_Z t)%Q) by (now apply (inject_Z_le 0)).
    destruct (share_error_chain eps P R FW FS FA (inject_Z w) (inject_Z s) (inject_Z A))
      as [CU CL]; try assumption; try (now apply Qlt_le_weak);
      try reflexivity; try discriminate.
    pose proof eps_upper as KU. pose proof eps_lower as KL.
    assert (WA : (0 < inject_Z w * inject_Z A)%Q) by (now apply Qmult_lt_0_compat).
    set (WAq := (inject_Z w * inject_Z A)%Q) in *.
    (* the product against the exact share *)
    assert (PU : (P * inject_Z s <= (1 + (1 # 562949953421312)) * WAq)%Q).
    { apply (Qmul_cancel_l (1 - eps)); [reflexivity|].
      apply Qle_trans with (P * ((1 - eps) * inject_Z s))%Q;
        [apply Qle_lteq; right; ring|].
      apply Qle_trans with ((1 + eps) * (1 + eps) * ((1 + eps) * (1 + eps)) * WAq)%Q;
        [exact CU|].
      setoid_replace ((1 + (1 # 562949953421312)) * WAq * (1 - eps))%Q
        with ((1 + (1 # 562949953421312)) * (1 - eps) * WAq)%Q using relation Qeq by ring.
      apply Qmul_mono_r; [now apply Qlt_le_weak|exact KU]. }
    assert (PL : ((1 - (1 # 562949953421312)) * WAq <= P * inject_Z s)%Q).
    { apply (Qmul_cancel_l (1 + eps)); [reflexivity|].
      apply Qle_trans with (P * ((1 + eps) * inject_Z s))%Q;
        [|apply Qle_lteq; right; ring].
      apply Qle_trans with ((1 - eps) * (1 - eps) * ((1 - eps) * (1 - eps)) * WAq)%Q;
        [|exact CL].
      setoid_replace ((1 - (1 # 562949953421312)) * WAq * (1 + eps))%Q
        with ((1 - (1 # 562949953421312)) * (1 + eps) * WAq)%Q using relation Qeq by ring.
      apply Qmul_mono_r; [now apply Qlt_le_weak|exact KL]. }
    assert (TU : (inject_Z t * inject_Z s <= P * inject_Z s)%Q).
    { apply Qmul_mono_r; [now apply Qlt_le_weak|exact T1]. }
    assert (TL : (P * inject_Z s < (inject_Z t + 1) * inject_Z s)%Q).
    { now apply Qmult_lt_compat_r. }
    split.
    + rewrite Zle_Qle.
      rewrite inject_Z_opp, !inject_Z_mult, inject_Z_sub, !inject_Z_mult.
      change (inject_Z (2 ^ 49)) with (562949953421312 # 1)%Q. fold WAq.
      set (TS := (inject_Z t * inject_Z s)%Q) in *. lra.
    + rewrite Zlt_Qlt.
      rewrite inject_Z_plus, !inject_Z_mult, inject_Z_sub, !inject_Z_mult.
      change (inject_Z (2 ^ 49)) with (562949953421312 # 1)%Q. fold WAq.
      set (TS := (inject_Z t * inject_Z s)%Q) in *.
      assert (TL' : (P * inject_Z s < TS + inject_Z s)%Q).
      { unfold TS. eapply Qlt_le_trans; [exact TL|]. apply Qle_lteq. right. ring. }
      lra.
Qed.

(** ** All parties together *)

Lemma eligible_from (pre l : list Z) :
  length (List.filter (eligibleb (pre ++ l)) (seq (length pre) (length l)))
  = length (List.filter (fun w => negb (w =? 0)) l).
Proof.
  revert pre. induction l as [|w l IH]; intros pre; [reflexivity|].
  cbn [length seq List.filter].
  assert (E : eligibleb (pre ++ w :: l) (length pre) = negb (w =? 0)).
  { unfold eligibleb. now rewrite nth_middle. }
  rewrite E.
  specialize (IH (pre ++ [w])). rewrite <- app_assoc, length_app in IH.
  cbn [app length] in IH. rewrite Nat.add_1_r in IH.
  destruct (negb (w =? 0)); cbn [length]; now rewrite IH.
Qed.

Lemma eligible_count ws : Z.of_nat (length (eligible ws)) = nonzero_count ws.
Proof.
  unfold eligible, nonzero_count. f_equal. exact (eligible_from [] ws).
Qed.

Lemma Zsum_cons w l : Zsum (w :: l) = w + Zsum l.
Proof. reflexivity. Qed.

Lemma nonzero_count_cons w l :
  nonzero_count (w :: l) = (if w =? 0 then 0 else 1) + nonzero_count l.
Proof.
  unfold nonzero_count. cbn [List.filter].
  destruct (w =? 0); cbn [negb length]; lia.
Qed.

Lemma nonzero_count_nonneg l : 0 <= nonzero_count l.
Proof. unfold nonzero_count. lia. Qed.

(** The errors of the truncated shares, added up. *)
Lemma near_share_sum s A (ws al : list Z) :
  0 < s -> 0 <= A ->
  Forall2 (near_share s A) ws al ->
  0 <= Zsum al /\
  - (A * Zsum ws) <= 2 ^ 49 * (A * Zsum ws - s * Zsum al)
  <= nonzero_count ws * (2 ^ 49 * s - 1) + A * Zsum ws.
Proof.
  intros Hs HA F. induction F as [|w v ws al (V0 & B & Z0) F IH].
  - unfold Zsum, nonzero_count. simpl. lia.
  - rewrite !Zsum_cons, nonzero_count_cons.
    pose proof (nonzero_count_nonneg ws) as NN.
    destruct IH as (S0 & L & U). split; [lia|].
    destruct (Z.eqb_spec w 0) as [->|NZ].
    + rewrite (Z0 eq_refl). split; lia.
    + split; nia.
Qed.

Lemma Zsum_replicate_one n : Zsum (replicate n 1) = Z.of_nat n.
Proof.
  unfold Zsum. induction n as [|n IH]; [reflexivity|].
  simpl replicate. simpl foldr. rewrite IH. lia.
Qed.

(** Without overflow, [sum] is the sum of the weights [Share] uses. *)
Lemma fallback_sum ws :
  Forall is_uint ws -> Zsum ws < 2 ^ 64 -> Z.of_nat (length ws) < 2 ^ 64 ->
  snd (fallback ws) = Zsum (fst (fallback ws)).
Proof.
  intros U B L. unfold fallback. pose proof (Zsum_nonneg ws U) as P.
  destruct (Z.eqb_spec (uint_sum ws) 0) as [E|E]; cbn [fst snd].
  - rewrite Zsum_replicate_one. apply wrap_uint_small. unfold is_uint. lia.
  - rewrite uint_sum_Zsum. apply wrap_uint_small. unfold is_uint. lia.
Qed.

(** The truncated allocations of a small, non-negative amount. *)
Lemma initial_allocations_near x ws :
  small_input x ws -> 0 <= a x ->
  0 < Zsum (fst (fallback ws)) < 2 ^ 64 /\
  Forall2 (near_share (Zsum (fst (fallback ws))) (a x))
    (fst (fallback ws)) (initial_allocations x ws).
Proof.
  intros (NE & U & B & L & HA) A0.
  assert (L' : Z.of_nat (length ws) < 2 ^ 64) by lia.
  destruct (fallback_weights ws NE U B L') as [Hs Hw].
  rewrite (fallback_sum ws U B L') in Hs, Hw. split; [exact Hs|].
  unfold initial_allocations, truncated, ratios_of. rewrite List.map_map.
  rewrite (fallback_sum ws U B L').
  set (s := Zsum (fst (fallback ws))) in *.
  change (@List.map) with (@fmap list _). apply Forall2_fmap_r.
  apply Forall_Forall2_diag. eapply Forall_impl; [exact Hw|].
  intros w Hw'. cbv beta.
  destruct (truncated_share_accuracy w s (a x) Hw' Hs ltac:(lia)) as (V0 & Bd).
  split; [exact V0|]. split; [exact Bd|].
  intros ->. rewrite truncated_zero; [reflexivity| | |].
  - apply ratio_zero_or_finite; [unfold is_uint|]; lia.
  - apply of_Z_zero_or_finite. lia.
  - left. change (F64.of_Z 0) with (S754_zero false).
    destruct (of_Z_mag s ltac:(lia) ltac:(lia)) as [Fs _].
    rewrite div_zero_l by exact Fs. eauto.
Qed.

(** The remainder of a small, non-negative amount: at least zero, at
    most one unit per party of non-zero weight. *)
Lemma initial_remainder_small x ws :
  small_input x ws -> 0 <= a x ->
  initial_remainder x ws = a x - Zsum (initial_allocations x ws) /\
  0 <= initial_remainder x ws <= nonzero_count (fst (fallback ws)) /\
  0 <= Zsum (initial_allocations x ws) <= a x.
Proof.
  intros SI A0. destruct (initial_allocations_near x ws SI A0) as [Hs F].
  destruct SI as (NE & U & B & L & HA).
  destruct (near_share_sum _ _ _ _ (proj1 Hs) A0 F) as (S0 & Lo & Hi).
  set (s := Zsum (fst (fallback ws))) in *.
  set (V := Zsum (initial_allocations x ws)) in *.
  set (m := nonzero_count (fst (fallback ws))) in *.
  assert (Hm : 0 <= m) by apply nonzero_count_nonneg.
  assert (K : 2 ^ 49 * (a x * s - s * V) = 2 ^ 49 * s * (a x - V)) by ring.
  rewrite K in Lo, Hi. change (2 ^ 49) with 562949953421312 in *.
  assert (R0 : 0 <= a x - V).
  { assert (- (562949953421312 * s) < 562949953421312 * s * (a x - V)) by nia.
    nia. }
  assert (R1 : a x - V <= m).
  { assert (562949953421312 * s * (a x - V - m) <= a x * s - m) by nia.
    assert (562949953421312 * s * (a x - V - m) < 562949953421312 * s) by nia.
    nia. }
  unfold initial_remainder. fold V.
  rewrite remainder_Zsum by (unfold is_int; lia). fold V.
  rewrite wrap_int_small by (unfold is_int; lia).
  split; [reflexivity|]. split; lia.
Qed.

(** ** The final shares *)

Lemma units_for_at_most_one ws units j :
  (units <= length (eligible ws))%nat -> (units_for ws units j <= 1)%nat.
Proof.
  intros H. unfold units_for. destruct (_ && _); [|lia].
  set (m := length (eligible ws)) in *.
  destruct (Nat.eq_dec units m) as [->|NE].
  - destruct m as [|m]; [simpl; lia|].
    rewrite Nat.div_same, Nat.Div0.mod_same by lia. reflexivity.
  - rewrite Nat.div_small by lia. destruct (_ <? _)%nat; lia.
Qed.

Lemma spec_distribute_length ws al rem :
  length (spec_distribute ws al rem) = length al.
Proof.
  unfold spec_distribute.
  generalize (take (Z.abs_nat rem) (visited ws 0 (Z.abs_nat rem * length ws))).
  intros l. revert al. induction l as [|j l IH]; intros al; [reflexivity|].
  cbn [fold_left]. now rewrite IH, give_length.
Qed.

(** The shares of a small, non-negative amount. *)
Lemma final_shares_nonneg x ws :
  small_input x ws -> 0 <= a x ->
  Z.abs (initial_remainder x ws) * Z.of_nat (length ws) < 2 ^ 63 /\
  Forall2 (fun w f => fair_share (Zsum (fst (fallback ws))) (a x) w f /\
                      0 <= f <= a x + 1)
    (fst (fallback ws))
    (spec_distribute (fst (fallback ws)) (initial_allocations x ws)
       (initial_remainder x ws)).
Proof.
  intros SI A0.
  destruct (initial_allocations_near x ws SI A0) as [Hs F].
  destruct (initial_remainder_small x ws SI A0) as (RE & [R0 R1] & [V0 V1]).
  destruct SI as (NE & U & B & L & HA).
  destruct (fallback_weights ws NE U B ltac:(lia)) as [_ Hw'].
  rewrite (fallback_sum ws U B ltac:(lia)) in Hw'.
  pose proof (fallback_length ws) as FL.
  set (ws' := fst (fallback ws)) in *. set (s := Zsum ws') in *.
  set (R := initial_remainder x ws) in *.
  assert (M : nonzero_count ws' <= Z.of_nat (length ws)).
  { unfold nonzero_count. rewrite <- FL. apply inj_le, List.filter_length_le. }
  split; [nia|].
  apply Forall2_same_length_lookup_2.
  { rewrite spec_distribute_length, initial_allocations_length. exact FL. }
  intros j w f Hw Hf.
  rewrite spec_distribute_lookup in Hf;
    [|now apply fallback_eligible|apply initial_allocations_ints].
  destruct (initial_allocations x ws !! j) as [v|] eqn:Hv; [|discriminate].
  injection Hf as <-.
  rewrite Forall2_lookup in F. specialize (F j). fold ws' in F.
  rewrite Hw, Hv in F. inversion F as [? ? (Vn & Bd & Z0)|]; subst.
  rewrite Forall_lookup in Hw'. specialize (Hw' j w Hw). cbv beta in Hw'.
  replace (R <? 0) with false by (symmetry; apply Z.ltb_ge; lia).
  assert (Uj : (units_for ws' (Z.abs_nat R) j <= 1)%nat).
  { apply units_for_at_most_one. apply Nat2Z.inj_le.
    rewrite Zabs2Nat.id_abs, Z.abs_eq, eligible_count by lia. exact R1. }
  assert (Uz : w = 0 -> units_for ws' (Z.abs_nat R) j = 0%nat).
  { intros ->. now apply units_for_zero. }
  assert (Ur : Z.of_nat (units_for ws' (Z.abs_nat R) j) <= R).
  { pose proof (units_for_le ws' (Z.abs_nat R) j) as Q.
    apply Nat2Z.inj_le in Q. rewrite Zabs2Nat.id_abs in Q. lia. }
  set (u := units_for ws' (Z.abs_nat R) j) in *.
  change (2 ^ 49) with 562949953421312 in *.
  (* each truncated share is at most the amount *)
  assert (Vle : v <= a x).
  { assert (562949953421312 * s * (v - a x) <= s * a x) by nia.
    assert (562949953421312 * s * (v - a x) < 562949953421312 * s) by nia.
    nia. }
  rewrite wrap_int_small by (unfold is_int; lia).
  assert (WA : w * a x <= s * a x) by nia.
  assert (WA' : w * a x < 562949953421312 * s) by nia.
  unfold fair_share. rewrite (Z.abs_eq (a x)) by lia.
  change (2 ^ 49) with 562949953421312.
  destruct (Nat.eq_dec u 0%nat) as [E0|E1].
  - rewrite E0. change (1 * Z.of_nat 0) with 0. rewrite Z.add_0_r.
    split; [|lia]. split; [lia|]. split; [lia|]. split; [lia|]. split; [lia|exact Z0].
  - assert (E : u = 1%nat) by lia. rewrite E. change (1 * Z.of_nat 1) with 1.
    assert (NW : w <> 0) by (intros Q; specialize (Uz Q); lia).
    split; [|lia]. split; [lia|]. split; [lia|]. split; [lia|]. split; [lia|lia].
Qed.

Lemma fair_share_opp s A w f :
  fair_share s A w f -> fair_share s (- A) w (- f).
Proof.
  unfold fair_share. intros (H1 & H2 & H3 & H4 & H5).
  replace (- f * s - w * - A) with (- (f * s - w * A)) by ring.
  rewrite !Z.abs_opp. repeat split; try assumption; intros; lia.
Qed.

Lemma small_input_opp x ws :
  small_input x ws -> small_input (mkMoney (c x) (- a x)) ws.
Proof. unfold small_input. cbn [a]. now rewrite Z.abs_opp. Qed.

(** The allocations, remainder and final shares of a small negative
    amount are the opposites of those of the opposite amount. *)
Lemma final_shares_opp x ws :
  small_input x ws -> 0 <= a x ->
  initial_remainder (mkMoney (c x) (- a x)) ws = - initial_remainder x ws /\
  spec_distribute (fst (fallback ws))
    (initial_allocations (mkMoney (c x) (- a x)) ws)
    (initial_remainder (mkMoney (c x) (- a x)) ws)
  = map Z.opp (spec_distribute (fst (fallback ws)) (initial_allocations x ws)
                 (initial_remainder x ws)).
Proof.
  intros SI A0.
  destruct (initial_allocations_near x ws SI A0) as [Hs F].
  destruct (initial_remainder_small x ws SI A0) as (RE & [R0 R1] & [V0 V1]).
  destruct (final_shares_nonneg x ws SI A0) as [_ FS].
  destruct SI as (NE & U & B & L & HA).
  assert (Hx : is_int (a x)) by (unfold is_int; lia).
  assert (NM : a x <> min_int) by (unfold min_int; lia).
  assert (IA : initial_allocations (mkMoney (c x) (- a x)) ws
               = map (fun v => wrap_int (- v)) (initial_allocations x ws)).
  { unfold initial_allocations. now apply truncated_opp. }
  assert (IAo : map (fun v => wrap_int (- v)) (initial_allocations x ws)
                = map Z.opp (initial_allocations x ws)).
  { apply Forall_fmap_ext_1, Forall_lookup. intros i v Hi.
    pose proof (initial_allocations_ints x ws) as I.
    rewrite Forall_lookup in I. specialize (I i v Hi).
    destruct (Forall2_lookup_r _ _ _ _ _ F Hi) as (w & _ & Vn & _).
    apply wrap_int_small. unfold is_int in *. lia. }
  assert (ZO : forall l, Zsum (map Z.opp l) = - Zsum l).
  { unfold Zsum. induction l as [|v l IH]; simpl; lia. }
  assert (IR : initial_remainder (mkMoney (c x) (- a x)) ws = - initial_remainder x ws).
  { unfold initial_remainder at 1.
    rewrite remainder_Zsum by (cbn [a]; unfold is_int; lia).
    rewrite IA, IAo, ZO. cbn [a]. rewrite RE.
    rewrite wrap_int_small by (unfold is_int; lia). lia. }
  split; [exact IR|].
  rewrite IR, IA, spec_distribute_opp.
  apply Forall_fmap_ext_1, Forall_lookup. intros i f Hi.
  destruct (Forall2_lookup_r _ _ _ _ _ FS Hi) as (w & _ & _ & Hf).
  apply wrap_int_small. unfold is_int. lia.
Qed.

(** When the remainder is at most one unit per party of non-zero weight,
    the second loop ends within one pass over the parties. *)
Lemma Share_one_pass x ws fuel :
  ws <> [] -> is_int (a x) -> Z.of_nat (length ws) < 2 ^ 63 ->
  Z.abs (initial_remainder x ws) <= nonzero_count (fst (fallback ws)) ->
  (length ws <= fuel)%nat ->
  fst (Share fuel x ws)
  = Returned (map (mkMoney (c x))
                (spec_distribute (fst (fallback ws)) (initial_allocations x ws)
                   (initial_remainder x ws))).
Proof.
  intros NE Hx L B F.
  pose proof (fallback_length ws) as FL.
  assert (P : (0 < length (fst (fallback ws)))%nat).
  { rewrite FL. destruct ws; [congruence|simpl; lia]. }
  assert (D : exists al, final_allocations fuel x ws = Returned al).
  { unfold final_allocations.
    destruct (sign_unit (initial_remainder x ws)) as [Dp Dn].
    rewrite <- FL. change 0 with (Z.of_nat 0). eexists.
    apply (distribute_walk (fst (fallback ws)) _ P (length (fst (fallback ws)))); auto.
    - rewrite initial_allocations_length. now symmetry.
    - now apply initial_remainder_int.
    - rewrite FL. simpl. lia.
    - rewrite (visited_cycle _ P). apply Nat2Z.inj_le.
      rewrite Zabs2Nat.id_abs, eligible_count. exact B.
    - now rewrite FL. }
  destruct D as [al D].
  assert (R : fst (Share fuel x ws) = Returned (map (mkMoney (c x)) al)).
  { rewrite Share_unfold, D.
    now rewrite (final_allocations_sum fuel x ws al Hx D), Z.eqb_refl. }
  rewrite R. f_equal.
  now apply Share_returned_walk in R.
Qed.

(** X26: on small inputs (weights that add up to less than [2^64], fewer
    than [2^31] parties, an amount below [2^49] atoms in absolute value)
    [Share] returns, its second loop ending within one pass over the
    parties, and every share is proportional to its weight: the share
    [f] of the weight [w], with [s] the sum of the weights and [A] the
    atoms shared, is less than [1 + |A| / 2^49], hence less than 2
    atoms, away from the exact share [w × A / s]; it has the sign of the
    amount, and it is zero for a weight of zero. *)
Theorem Share_proportional (x : Money) (ws : list Z) :
  small_input x ws ->
  exists res,
    (forall fuel, (length ws <= fuel)%nat -> fst (Share fuel x ws) = Returned res) /\
    Forall2 (fun w y => Currency y = Currency x /\
                        fair_share (Zsum (fst (fallback ws))) (a x) w (a y))
      (fst (fallback ws)) res.
Proof.
  intros SI.
  assert (NE : ws <> []) by apply SI.
  assert (HB : Z.abs (a x) < 2 ^ 49 /\ Z.of_nat (length ws) < 2 ^ 63).
  { destruct SI as (_ & _ & _ & L & HA). lia. }
  destruct HB as [HA L].
  assert (Hx : is_int (a x)) by (unfold is_int; lia).
  eexists.
  destruct (Z_le_gt_dec 0 (a x)) as [A0|A0].
  - destruct (final_shares_nonneg x ws SI A0) as [_ FS].
    destruct (initial_remainder_small x ws SI A0) as (_ & RB & _).
    split; [intros fuel F; apply Share_one_pass; try assumption; lia|].
    change (@List.map) with (@fmap list _). apply Forall2_fmap_r.
    eapply Forall2_impl; [exact FS|].
    intros w f [H _]. split; [reflexivity|exact H].
  - pose proof (small_input_opp x ws SI) as SI'.
    set (x' := mkMoney (c x) (- a x)) in *.
    assert (A0' : 0 <= a x') by (cbn [a x']; lia).
    destruct (final_shares_nonneg x' ws SI' A0') as [_ FS].
    destruct (initial_remainder_small x' ws SI' A0') as (_ & RB & _).
    destruct (final_shares_opp x' ws SI' A0') as [IR FO].
    assert (E : mkMoney (c x') (- a x') = x).
    { destruct x as [cx ax]. unfold x'. cbn [c a]. f_equal. lia. }
    rewrite E in IR, FO.
    split.
    + intros fuel F. apply Share_one_pass; try assumption.
      rewrite IR, Z.abs_opp. lia.
    + rewrite FO.
      change (@List.map) with (@fmap list _). rewrite <- list_fmap_compose.
      apply Forall2_fmap_r. eapply Forall2_impl; [exact FS|].
      intros w f [H _]. split; [reflexivity|]. cbn [a compose].
      replace (a x) with (- a x') by (cbn [a x']; lia).
      now apply fair_share_opp.
Qed.

Lemma Share_proportional_witness :
  exists res,
    (forall fuel, (length [3; 7] <= fuel)%nat ->
       fst (Share fuel (mkMoney "GBP" 90) [3; 7]) = Returned res) /\
    Forall2 (fun w y => Currency y = "GBP"%string /\
                        fair_share (Zsum (fst (fallback [3; 7]))) 90 w (a y))
      (fst (fallback [3; 7])) res.
Proof.
  apply (Share_proportional (mkMoney "GBP" 90) [3; 7]).
  unfold small_input. split; [discriminate|].
  split; [repeat apply List.Forall_cons; try apply List.Forall_nil; unfold is_uint; lia|].
  repeat split; reflexivity.
Defined.

(** ** The truncated allocation against the exact quotient *)

Lemma initial_allocations_opp x ws :
  small_input x ws -> 0 <= a x ->
  initial_allocations (mkMoney (c x) (- a x)) ws
  = map Z.opp (initial_allocations x ws).
Proof.
  intros SI A0. destruct (initial_allocations_near x ws SI A0) as [_ F].
  destruct SI as (NE & U & B & L & HA).
  assert (E : initial_allocations (mkMoney (c x) (- a x)) ws
              = map (fun v => wrap_int (- v)) (initial_allocations x ws)).
  { unfold initial_allocations. apply truncated_opp; unfold is_int, min_int; lia. }
  rewrite E. apply Forall_fmap_ext_1, Forall_lookup. intros i v Hi.
  pose proof (initial_allocations_ints x ws) as I.
  rewrite Forall_lookup in I. specialize (I i v Hi).
  destruct (Forall2_lookup_r _ _ _ _ _ F Hi) as (w & _ & Vn & _).
  apply wrap_int_small. unfold is_int in *. lia.
Qed.

Lemma near_share_quot s A w v :
  0 < s -> 0 <= w <= s -> 0 <= A < 2 ^ 49 ->
  near_share s A w v -> Z.abs (v - Z.quot (w * A) s) <= 1.
Proof.
  intros Hs Hw HA (V0 & B & _).
  assert (WA : 0 <= w * A) by nia.
  rewrite Z.quot_div_nonneg by lia.
  pose proof (Z.div_mod (w * A) s ltac:(lia)) as DM.
  pose proof (Z.mod_pos_bound (w * A) s Hs) as MB.
  set (q := w * A / s) in *.
  change (2 ^ 49) with 562949953421312 in *.
  assert (W1 : w * A <= s * A) by nia.
  assert (W2 : w * A < 562949953421312 * s) by nia.
  assert (U1 : v * s < (q + 2) * s) by nia.
  assert (U2 : q * s < (v + 2) * s) by nia.
  assert (v < q + 2) by nia. assert (q < v + 2) by nia. lia.
Qed.

(** X27: on small inputs the truncated allocation of every party is the
    exact quotient [weights[i] × x.atoms / total], truncated toward zero,
    or one unit next to it. *)
Theorem truncated_within_one (x : Money) (ws : list Z) :
  small_input x ws ->
  Forall2 (fun e v => Z.abs (v - e) <= 1)
    (exact_truncated x (fst (fallback ws)) (Zsum (fst (fallback ws))))
    (initial_allocations x ws).
Proof.
  intros SI.
  assert (W : 0 < Zsum (fst (fallback ws))
              /\ Forall (fun w => 0 <= w <= Zsum (fst (fallback ws))) (fst (fallback ws))).
  { destruct SI as (NE & U & B & L & HA).
    destruct (fallback_weights ws NE U B ltac:(lia)) as [Hs Hw].
    rewrite (fallback_sum ws U B ltac:(lia)) in Hs, Hw. split; [lia|exact Hw]. }
  destruct W as [Hs Hw]. unfold exact_truncated.
  change (@List.map) with (@fmap list _). apply Forall2_fmap_l.
  destruct (Z_le_gt_dec 0 (a x)) as [A0|A0].
  - destruct (initial_allocations_near x ws SI A0) as [_ F].
    apply Forall2_same_length_lookup_2; [eapply Forall2_length, F|].
    intros i w v Hi Hv. rewrite Forall_lookup in Hw. specialize (Hw i w Hi).
    rewrite Forall2_lookup in F. specialize (F i). rewrite Hi, Hv in F.
    inversion F as [? ? N|]; subst. unfold compose.
    apply (near_share_quot _ _ _ _ Hs Hw); [|exact N].
    destruct SI as (_ & _ & _ & _ & HA). lia.
  - pose proof (small_input_opp x ws SI) as SI'.
    set (x' := mkMoney (c x) (- a x)) in *.
    assert (A0' : 0 <= a x') by (cbn [a x']; lia).
    assert (HA' : 0 <= a x' < 2 ^ 49).
    { destruct SI' as (_ & _ & _ & _ & HA). lia. }
    destruct (initial_allocations_near x' ws SI' A0') as [_ F].
    pose proof (initial_allocations_opp x' ws SI' A0') as O.
    assert (E : mkMoney (c x') (- a x') = x).
    { destruct x as [cx ax]. unfold x'. cbn [c a]. f_equal. lia. }
    rewrite E in O. rewrite O. clear E O.
    change (@List.map) with (@fmap list _). apply Forall2_fmap_r.
    apply Forall2_same_length_lookup_2; [eapply Forall2_length, F|].
    intros i w v Hi Hv. rewrite Forall_lookup in Hw. specialize (Hw i w Hi).
    rewrite Forall2_lookup in F. specialize (F i). rewrite Hi, Hv in F.
    inversion F as [? ? N|]; subst.
    pose proof (near_share_quot _ _ _ _ Hs Hw HA' N) as Q.
    unfold compose.
    replace (a x) with (- a x') by (cbn [a x']; lia).
    replace (w * - a x') with (- (w * a x')) by ring.
    rewrite Z.quot_opp_l by lia. lia.
Qed.

Lemma truncated_within_one_witness :
  Forall2 (fun e v => Z.abs (v - e) <= 1)
    (exact_truncated (mkMoney "GBP" 90) (fst (fallback [3; 7]))
       (Zsum (fst (fallback [3; 7]))))
    (initial_allocations (mkMoney "GBP" 90) [3; 7]).
Proof.
  apply (truncated_within_one (mkMoney "GBP" 90) [3; 7]).
  unfold small_input. split; [discriminate|].
  split; [repeat apply List.Forall_cons; try apply List.Forall_nil; unfold is_uint; lia|].
  repeat split; reflexivity.
Defined.

(** ** Equal weights *)

Lemma fallback_replicate n w :
  exists w', w' <> 0 /\ fst (fallback (replicate n w)) = replicate n w'.
Proof.
  unfold fallback. destruct (Z.eqb_spec (uint_sum (replicate n w)) 0) as [E|E];
    cbn [fst].
  - exists 1. split; [lia|]. now rewrite length_replicate.
  - exists w. split; [|reflexivity]. intros ->.
    apply E. now rewrite uint_sum_Zsum, Zsum_replicate_zero.
Qed.

Lemma eligibleb_replicate n w j :
  w <> 0 -> (j < n)%nat -> eligibleb (replicate n w) j = true.
Proof.
  intros NZ L. rewrite (eligibleb_lookup _ j w) by now apply lookup_replicate_2.
  now destruct (Z.eqb_spec w 0).
Qed.

Lemma filter_all {A} (p : A -> bool) l :
  Forall (fun y => p y = true) l -> List.filter p l = l.
Proof.
  induction 1 as [|y l Hy H IH]; [reflexivity|]. cbn [List.filter].
  now rewrite Hy, IH.
Qed.

Lemma rank_replicate n w j :
  w <> 0 -> (j <= n)%nat -> rank (replicate n w) j = j.
Proof.
  intros NZ L. unfold rank. rewrite filter_all; [apply length_seq|].
  apply List.Forall_forall. intros i Hi. apply in_seq in Hi.
  apply eligibleb_replicate; [exact NZ|lia].
Qed.

Lemma eligible_replicate n w : w <> 0 -> length (eligible (replicate n w)) = n.
Proof.
  intros NZ. unfold eligible. rewrite length_replicate.
  exact (rank_replicate n w n NZ (le_n n)).
Qed.

(** Equal weights and a small, non-negative amount: the quotient for
    everyone, and one more for the first [a x mod n] parties. *)
Lemma equal_shares_nonneg x n w j :
  small_input x (replicate n w) -> 0 <= a x -> (j < n)%nat ->
  spec_distribute (fst (fallback (replicate n w)))
    (initial_allocations x (replicate n w))
    (initial_remainder x (replicate n w)) !! j
  = Some (a x / Z.of_nat n
          + (if Z.of_nat j <? a x mod Z.of_nat n then 1 else 0)).
Proof.
  intros SI A0 Lj.
  destruct (initial_remainder_small x _ SI A0) as (RE & [R0 R1] & _).
  destruct (initial_allocations_near x _ SI A0) as [_ F].
  assert (NE : replicate n w <> []) by apply SI.
  destruct (fallback_replicate n w) as (w' & NZ & FW).
  assert (HA : a x < 2 ^ 49).
  { destruct SI as (_ & _ & _ & _ & HA). lia. }
  set (ws := replicate n w) in *.
  (* every party has the same truncated allocation *)
  assert (V : exists v, initial_allocations x ws = replicate n v).
  { unfold initial_allocations, truncated, ratios_of. rewrite FW.
    change (@List.map) with (@fmap list _). rewrite !fmap_replicate. eauto. }
  destruct V as [v V].
  assert (Vn : 0 <= v).
  { rewrite V, FW in F. destruct n as [|n]; [lia|].
    inversion F as [|? ? ? ? (Vn & _)]. exact Vn. }
  assert (ZV : Zsum (replicate n v) = Z.of_nat n * v).
  { unfold Zsum. clear. induction n as [|n IH]; [reflexivity|].
    simpl replicate. simpl foldr. rewrite IH. lia. }
  assert (M : nonzero_count (fst (fallback ws)) = Z.of_nat n).
  { rewrite <- eligible_count, FW. now rewrite eligible_replicate. }
  rewrite V, ZV in RE. rewrite M in R1.
  rewrite spec_distribute_lookup;
    [|now apply fallback_eligible|apply initial_allocations_ints].
  rewrite V, lookup_replicate_2 by exact Lj. cbn [fmap option_fmap option_map].
  f_equal.
  replace (initial_remainder x ws <? 0) with false by (symmetry; apply Z.ltb_ge; lia).
  rewrite FW. rewrite (units_for_eligible _ _ j w') by
    (try apply lookup_replicate_2; assumption).
  rewrite eligible_replicate, rank_replicate by (try assumption; lia).
  set (R := initial_remainder x ws) in *.
  assert (Pn : 0 < Z.of_nat n) by lia.
  destruct (Z.eq_dec R (Z.of_nat n)) as [E|E].
  - (* a full round: the amount is a multiple of [n] *)
    replace (Z.abs_nat R) with n by lia.
    rewrite Nat.div_same, Nat.Div0.mod_same by lia.
    replace (j <? 0)%nat with false by (symmetry; apply Nat.ltb_ge; lia).
    assert (Q : a x = (v + 1) * Z.of_nat n) by lia.
    rewrite Q, Z.div_mul, Z.mod_mul by lia.
    replace (Z.of_nat j <? 0) with false by (symmetry; apply Z.ltb_ge; lia).
    rewrite wrap_int_small by (unfold is_int; nia). simpl. lia.
  - assert (Rn : (Z.abs_nat R < n)%nat) by lia.
    rewrite Nat.div_small, Nat.mod_small by exact Rn.
    assert (Q : a x / Z.of_nat n = v).
    { symmetry. apply Z.div_unique with (r := R); lia. }
    assert (Q' : a x mod Z.of_nat n = R).
    { symmetry. apply Z.mod_unique with (q := v); lia. }
    rewrite Q, Q'.
    destruct (Nat.ltb_spec j (Z.abs_nat R)), (Z.ltb_spec (Z.of_nat j) R); try lia;
      rewrite wrap_int_small by (unfold is_int; nia); simpl; lia.
Qed.

(** X28: equal weights split evenly.  On small inputs, [n] parties of
    one common weight (zero included: the fallback) receive the quotient
    of the atoms by [n], and the first [|atoms| mod n] of them one unit
    more, with the sign of the amount; the second loop ends within one
    pass. *)
Theorem Share_equal_weights (x : Money) (n : nat) (w : Z) :
  small_input x (replicate n w) ->
  exists res,
    (forall fuel, (n <= fuel)%nat ->
       fst (Share fuel x (replicate n w)) = Returned res) /\
    forall j, (j < n)%nat ->
      res !! j
      = Some (mkMoney (c x)
                (Z.sgn (a x)
                 * (Z.abs (a x) / Z.of_nat n
                    + (if Z.of_nat j <? Z.abs (a x) mod Z.of_nat n then 1 else 0)))).
Proof.
  intros SI.
  assert (NE : replicate n w <> []) by apply SI.
  assert (HB : Z.abs (a x) < 2 ^ 49 /\ Z.of_nat n < 2 ^ 63).
  { destruct SI as (_ & _ & _ & L & HA). rewrite length_replicate in L. lia. }
  destruct HB as [HA L].
  assert (Hx : is_int (a x)) by (unfold is_int; lia).
  eexists.
  destruct (Z_le_gt_dec 0 (a x)) as [A0|A0].
  - destruct (initial_remainder_small x _ SI A0) as (_ & RB & _).
    split.
    + intros fuel F. apply Share_one_pass; try assumption;
        rewrite ?length_replicate; lia.
    + intros j Lj. rewrite list_lookup_fmap, (equal_shares_nonneg x n w j SI A0 Lj).
      cbn [fmap option_fmap option_map]. do 2 f_equal.
      rewrite (Z.abs_eq (a x)) by lia.
      destruct (Z.eq_dec (a x) 0) as [E|E].
      * rewrite E. rewrite Z.div_0_l, Z.mod_0_l by lia.
        replace (Z.of_nat j <? 0) with false by (symmetry; apply Z.ltb_ge; lia).
        reflexivity.
      * rewrite Z.sgn_pos by lia. lia.
  - pose proof (small_input_opp x _ SI) as SI'.
    set (x' := mkMoney (c x) (- a x)) in *.
    assert (A0' : 0 <= a x') by (cbn [a x']; lia).
    destruct (initial_remainder_small x' _ SI' A0') as (_ & RB & _).
    destruct (final_shares_opp x' _ SI' A0') as [IR FO].
    assert (E : mkMoney (c x') (- a x') = x).
    { destruct x as [cx ax]. unfold x'. cbn [c a]. f_equal. lia. }
    rewrite E in IR, FO.
    split.
    + intros fuel F. apply Share_one_pass; try assumption;
        rewrite ?length_replicate; lia.
    + intros j Lj. rewrite FO, !list_lookup_fmap.
      rewrite (equal_shares_nonneg x' n w j SI' A0' Lj).
      cbn [fmap option_fmap option_map]. do 2 f_equal.
      rewrite Z.sgn_neg by lia.
      replace (Z.abs (a x)) with (a x') by (cbn [a x']; lia). lia.
Qed.

Lemma Share_equal_weights_witness :
  exists res,
    (forall fuel, (3 <= fuel)%nat ->
       fst (Share fuel (mkMoney "GBP" (- 5)) (replicate 3 0)) = Returned res) /\
    forall j, (j < 3)%nat ->
      res !! j
      = Some (mkMoney "GBP"
                (Z.sgn (- 5)
                 * (Z.abs (- 5) / Z.of_nat 3
                    + (if Z.of_nat j <? Z.abs (- 5) mod Z.of_nat 3 then 1 else 0)))).
Proof.
  apply (Share_equal_weights (mkMoney "GBP" (- 5)) 3 0).
  unfold small_input. split; [discriminate|].
  split; [repeat apply List.Forall_cons; try apply List.Forall_nil; unfold is_uint; lia|].
  repeat split; reflexivity.
Defined.
